(** * maec: the processing-graph kernel

    A shallow embedding of the module kernel of maec (audio_module.cpp,
    module_mixer.cpp, fund_oscillator.cpp, meta_audio.hpp) together with the
    statements that the specification makes about it, and of the header
    reading of io/wav.cpp and the helpers of dsp/util.cpp and
    container_benchmark.cpp.

    Conventions of the embedding:
    - [long double] samples are real numbers ([R]); the rounding of the
      arithmetic is not modelled.  The conversion to double that the
      oscillators make before [modf] is a parameter.
    - [AudioModule*] pointers are addresses into a store of module objects;
      [std::unique_ptr<AudioBuffer>] is an optional address into a store of
      blocks ([None] is the null pointer).  Destroying a block that lost its
      last owner is not modelled (no operation reads a released block).
    - A method is a computation in the monad [M]: it threads the store and
      fails ([None]) where the C++ program has no defined behaviour (a null
      or dangling pointer is dereferenced, a write leaves the storage) or
      throws ([std::vector::at] out of range). *)

From Stdlib Require Import ZArith Reals Lra.
From Stdlib Require Strings.Byte.
From stdpp Require Import base option list gmap.

(** ** Blocks *)

Abbreviation sample := R (only parsing).

(** Modelled from the spec: audio_buffer.hpp is not under src/.  An Audio Block
    owns C channels x F frames of samples; the storage is kept in sequential
    order (channel 0's F samples, then channel 1's, ...), and [create]
    allocates zero-initialised storage. *)
Record AudioBuffer : Type := mkAudioBuffer {
  buf_frames : nat;
  buf_channels : nat;
  buf_data : list sample
}.

Definition AudioBuffer_new (size channels : nat) : AudioBuffer :=
  mkAudioBuffer size channels (replicate (size * channels) 0%R).

(** [b->size()]: the number of samples the block stores. *)
Definition size (b : AudioBuffer) : nat := length (buf_data b).

Definition with_data (b : AudioBuffer) (d : list sample) : AudioBuffer :=
  mkAudioBuffer (buf_frames b) (buf_channels b) d.

(** Modelled from the spec: the interleaved view is frame-major (ch0@t0,
    ch1@t0, ch0@t1, ...).  [interleaved_pos b j] is the storage position that
    the interleaved iterator with linear index [j] addresses. *)
Definition interleaved_pos (b : AudioBuffer) (j : nat) : nat :=
  (j mod buf_channels b) * buf_frames b + j / buf_channels b.

(** ** Descriptors *)

(** The per-module information record ([this->info]).  audio_module.hpp is not
    under src/; the one field that the code under src/ reads is [out_buffer],
    the size of the block the module puts out. *)
Record ModuleInfo : Type := mkModuleInfo {
  out_buffer : nat
}.

(** Modelled from the spec: the shared chain descriptor ([ChainInfo], reached
    through [this->chain]) is {sample_rate, channels, block_size}, all
    positive integers, one instance shared by reference. *)
Record ChainInfo : Type := mkChainInfo {
  chain_sample_rate : nat;
  chain_channels : nat;
  chain_block_size : nat
}.

(** ** Module objects *)

Abbreviation addr := positive (only parsing).   (* AudioModule*  *)
Abbreviation bptr := positive (only parsing).   (* the target of a unique_ptr<AudioBuffer> *)
Abbreviation cptr := positive (only parsing).   (* ChainInfo*    *)

Inductive Wave : Type := Sine | Square | Sawtooth | Triangle.

#[global] Instance Wave_eq_dec : EqDecision Wave.
Proof. solve_decision. Defined.

(** The state that a derived class adds to [AudioModule], tagged by the
    dynamic type of the object. *)
Inductive Derived : Type :=
  | Plain
      (* a module whose process() has no effect, as LatencyModule's dummy *)
  | Oscillator (w : Wave) (frequency : R) (phase : Z) (sample_rate : R)
      (* SineOscillator, SquareOscillator, SawtoothOscillator, TriangleOscillator *)
  | MixDown (in_ : list addr) (buffs : list (option bptr))
      (* ModuleMixDown: [in] and [buffs] *)
  | MixUp (out : list addr).
      (* ModuleMixUp: [out] *)

Record AudioModule : Type := mkAudioModule {
  backward : option addr;
  forward : option addr;
  buff : option bptr;
  info : ModuleInfo;
  chain : option cptr;
  derived : Derived
}.

Definition with_buff (m : AudioModule) (x : option bptr) : AudioModule :=
  mkAudioModule (backward m) (forward m) x (info m) (chain m) (derived m).
Definition with_derived (m : AudioModule) (x : Derived) : AudioModule :=
  mkAudioModule (backward m) (forward m) (buff m) (info m) (chain m) x.

(** ** The store and the monad of methods *)

Record Store : Type := mkStore {
  mods : gmap addr AudioModule;
  heap : gmap bptr AudioBuffer;
  chains : gmap cptr ChainInfo
}.

Definition with_mods (s : Store) (x : gmap addr AudioModule) : Store :=
  mkStore x (heap s) (chains s).
Definition with_heap (s : Store) (x : gmap bptr AudioBuffer) : Store :=
  mkStore (mods s) x (chains s).

Definition M (A : Type) : Type := Store → option (A * Store).

Definition fail {A} : M A := λ _, None.

#[global] Instance M_ret : MRet M := λ A x s, Some (x, s).
#[global] Instance M_bind : MBind M := λ A B k c s,
  match c s with
  | Some (x, s') => k x s'
  | None => None
  end.

(** A [for (auto &x : xs)] loop. *)
Fixpoint for_each {A} (xs : list A) (body : A → M unit) : M unit :=
  match xs with
  | [] => mret tt
  | x :: xs' => body x;; for_each xs' body
  end.

(** Dereferencing an [AudioModule*]. *)
Definition get_module (a : addr) : M AudioModule :=
  λ s, match mods s !! a with
       | Some m => Some (m, s)
       | None => None
       end.

Definition put_module (a : addr) (m : AudioModule) : M unit :=
  λ s, Some (tt, with_mods s (<[a := m]> (mods s))).

(** [std::make_unique<AudioBuffer>(...)]: a block at an address not in use. *)
Definition new_buffer (b : AudioBuffer) : M bptr :=
  λ s, let p := fresh (dom (heap s)) in
       Some (p, with_heap s (<[p := b]> (heap s))).

(** Dereferencing a [unique_ptr<AudioBuffer>]; null has no target. *)
Definition read_buffer (p : option bptr) : M AudioBuffer :=
  λ s, match p with
       | Some q => match heap s !! q with
                   | Some b => Some (b, s)
                   | None => None
                   end
       | None => None
       end.

Definition write_buffer (q : bptr) (b : AudioBuffer) : M unit :=
  λ s, Some (tt, with_heap s (<[q := b]> (heap s))).

(** ** AudioModule (audio_module.cpp) *)

(** [this->buff = std::move(inbuff)] *)
Definition AudioModule_set_buffer (this : addr) (inbuff : option bptr) : M unit :=
  m ← get_module this;
  put_module this (with_buff m inbuff).

(** [return std::move(this->buff)]: the caller receives the pointer and the
    member is left null. *)
Definition AudioModule_get_buffer (this : addr) : M (option bptr) :=
  m ← get_module this;
  put_module this (with_buff m None);;
  mret (buff m).

(** [std::make_unique<AudioBuffer>(this->info.out_buffer, channels)] *)
Definition create_buffer (this : addr) (channels : nat) : M bptr :=
  m ← get_module this;
  new_buffer (AudioBuffer_new (out_buffer (info m)) channels).

(** The two-argument overload: [std::make_unique<AudioBuffer>(size, channels)]. *)
Definition create_buffer_sized (size channels : nat) : M bptr :=
  new_buffer (AudioBuffer_new size channels).






(** ModuleMixDown::bind: [this->in.push_back(mod)] *)
Definition ModuleMixDown_bind (this : addr) (mod_ : addr) : M unit :=
  m ← get_module this;
  match derived m with
  | MixDown ins buffs => put_module this (with_derived m (MixDown (ins ++ [mod_]) buffs))
  | _ => fail
  end.

(** ** Sample arithmetic of the loops *)

Definition lift_option {A} (o : option A) : M A :=
  λ s, match o with
       | Some x => Some (x, s)
       | None => None
       end.

(** One turn of [fbuff->at(i) += b->at(i)]; [at] throws out of range. *)
Definition add_at (b : list sample) (acc : option (list sample)) (i : nat)
  : option (list sample) :=
  f ← acc;
  x ← f !! i;
  y ← b !! i;
  Some (<[i := (x + y)%R]> f).

(** [for (unsigned int i = 0; i < b->size(); i++) fbuff->at(i) += b->at(i);] *)
Definition add_block (f b : list sample) : option (list sample) :=
  fold_left (add_at b) (seq 0 (length b)) (Some f).

(** [std::copy(first, last, d_first)] over the samples of two blocks: the result
    is the destination storage after the copy.  Copying more samples than the
    destination holds writes past its end. *)
Definition std_copy (src dst : list sample) : option (list sample) :=
  if decide (length src ≤ length dst)
  then Some (src ++ drop (length src) dst)
  else None.

(** [modf(x, &placeholder)]: the fractional part, with the sign of [x]. *)
Definition modf (x : R) : R :=
  if Rle_dec 0 x then frac_part x else (- frac_part (- x))%R.

Definition TWO_PI : R := (2 * PI)%R.

(** The value an oscillator writes at one sample, by waveform:
    [sin(TWO_PI * frequency * phase / sample_rate)],
    [(modf(double(frequency * phase / sample_rate), &p) < 0.5) ? 1.0 : -1.0],
    [2.0 * modf(double(frequency * phase / sample_rate + 0.5), &p) - 1.0],
    and the three branches on [modf(double(frequency * phase / sample_rate),
    &p)] of the triangle.  [to_double] is the conversion [double(x)]; the
    arithmetic inside it and around it is that of the real numbers.  At the
    sample rate 0 the quotient is no real number (the code has an infinity
    or a NaN there): what is written then is not modelled, and there is no
    value. *)
Definition oscillator_value (to_double : R → R)
    (w : Wave) (frequency : R) (phase : Z) (sample_rate : R) : option sample :=
  if Req_dec_T sample_rate 0 then None
  else Some
    match w with
    | Sine => sin (TWO_PI * frequency * IZR phase / sample_rate)%R
    | Square =>
        if Rlt_dec (modf (to_double (frequency * IZR phase / sample_rate)%R))
             (1 / 2)%R
        then 1%R else (-1)%R
    | Sawtooth =>
        (2 * modf (to_double (frequency * IZR phase / sample_rate + 1 / 2)) - 1)%R
    | Triangle =>
        let temp := modf (to_double (frequency * IZR phase / sample_rate)%R) in
        if Rlt_dec temp (1 / 4)%R then (temp * 4)%R
        else if Rgt_dec temp (3 / 4)%R then ((temp - 1) * 4)%R
        else ((1 / 2 - temp) * 4)%R
    end.

(** The conversion to double of a run in which every value converted is a
    double: it changes nothing. *)
Definition exact_conversion (x : R) : R := x.

(** The four waveforms over the reals: the value an oscillator writes when
    the conversion to double changes nothing.  At the sample rate 0, where
    [oscillator_value] has no value, this is 0. *)
Definition wave_sample (w : Wave) (frequency : R) (phase : Z) (sample_rate : R) : sample :=
  default 0%R (oscillator_value exact_conversion w frequency phase sample_rate).

(** ** Counter and LatencyModule (meta_audio.hpp) *)

Module Latency.

(** [int] and [int64_t] values are integers in range; arithmetic that leaves
    the range wraps as on two's-complement hardware. *)
Definition wrap (bits : Z) (x : Z) : Z :=
  ((x + 2 ^ (bits - 1)) mod 2 ^ bits - 2 ^ (bits - 1))%Z.
Definition wrap32 : Z → Z := wrap 32.
Definition wrap64 : Z → Z := wrap 64.

Definition INT64_MIN : Z := (- 2 ^ 63)%Z.

(** The members of Counter and of LatencyModule.  The ChainTimer member is
    left out: no operation modelled here reads it. *)
Record LatencyModule : Type := mkLatencyModule {
  m_processed : Z;               (* int *)
  m_samples : Z;                 (* int *)
  start_time : Z;                (* int64_t *)
  operation_time : Z;            (* int64_t *)
  operation_latency : Z;         (* int64_t *)
  total_operation_time : Z;      (* int64_t *)
  total_operation_latency : Z    (* int64_t *)
}.

(** A newly constructed module: every member has its initialiser, zero. *)
Definition new : LatencyModule := mkLatencyModule 0 0 0 0 0 0 0.

(** Counter::reset *)
Definition Counter_reset (l : LatencyModule) : LatencyModule :=
  mkLatencyModule 0 0 (start_time l) (operation_time l) (operation_latency l)
    (total_operation_time l) (total_operation_latency l).

Definition processed (l : LatencyModule) : Z := m_processed l.
Definition samples (l : LatencyModule) : Z := m_samples l.
Definition get_start_time (l : LatencyModule) : Z := start_time l.
Definition time (l : LatencyModule) : Z := operation_time l.
Definition total_time (l : LatencyModule) : Z := total_operation_time l.
Definition latency (l : LatencyModule) : Z := operation_latency l.
Definition total_latency (l : LatencyModule) : Z := total_operation_latency l.

(** The quotient [a / b] of an [int64_t] by an [int]: it truncates towards
    zero, and it is undefined for a zero divisor and for the one quotient
    that does not fit. *)
Definition div64 (a b : Z) : option Z :=
  if decide (b = 0%Z) then None
  else if decide (a = INT64_MIN ∧ b = (-1)%Z) then None
  else Some (a ÷ b)%Z.

(** [return this->total_operation_time / this->processed();] *)
Definition average_time (l : LatencyModule) : option Z :=
  div64 (total_operation_time l) (processed l).

(** [return this->total_operation_latency / this->processed();] *)
Definition average_latency (l : LatencyModule) : option Z :=
  div64 (total_operation_latency l) (processed l).

(** [this->start_time = get_time()], with the reading of the clock as input. *)
Definition start (now : Z) (l : LatencyModule) : LatencyModule :=
  mkLatencyModule (m_processed l) (m_samples l) now (operation_time l)
    (operation_latency l) (total_operation_time l) (total_operation_latency l).

(** One operation as the clock and the chain behind the module determine it:
    the time it took, its latency, and the size of the block it produced. *)
Record Operation : Type := mkOperation {
  op_time : Z;
  op_latency : Z;
  op_samples : Z
}.

(** Modelled from the spec: the bodies of LatencyModule::meta_process and of
    Counter::process are in meta_audio.cpp, which is not under src/.  By the
    documentation of the two classes, a completed meta_process is one
    operation: the module is processed once more, has encountered the samples
    of the block, records the time and latency of the operation and adds them
    to the two sums. *)
Definition meta_process (o : Operation) (l : LatencyModule) : LatencyModule :=
  mkLatencyModule
    (wrap32 (m_processed l + 1))
    (wrap32 (m_samples l + op_samples o))
    (start_time l)
    (op_time o)
    (op_latency o)
    (wrap64 (total_operation_time l + op_time o))
    (wrap64 (total_operation_latency l + op_latency o)).

(** The calls made on a module in its lifetime: a completed meta_process(),
    which is one operation, or Counter::reset(). *)
Inductive Call : Type :=
  | Meta_process (o : Operation)
  | Do_reset.

Definition call (l : LatencyModule) (c : Call) : LatencyModule :=
  match c with
  | Meta_process o => meta_process o l
  | Do_reset => Counter_reset l
  end.

(** The module after the calls [cs], first to last. *)
Definition play (cs : list Call) (l : LatencyModule) : LatencyModule :=
  foldl call l cs.

(** The operations among the calls [cs] that come after the last reset() (all
    of them, when there is none), following the operations [acc] completed
    before [cs]. *)
Definition since_reset_from (acc : list Operation) (cs : list Call) : list Operation :=
  foldl (λ acc c, match c with
                  | Meta_process o => acc ++ [o]
                  | Do_reset => []
                  end) acc cs.

Definition since_reset (cs : list Call) : list Operation := since_reset_from [] cs.

End Latency.

(** ** The sample clock and the envelopes

    envelope.hpp and chrono.hpp are not under src/ (their tests are); the
    definitions of this part follow the specification. *)

Module Envelope.

Definition nano : Z := 1000000000.

(** Modelled from the spec: the Sample Clock (ChainTimer) is a monotonically
    increasing sample count plus a configured sample rate, and converts a
    sample count to nanoseconds.  The conversion factor is the whole number of
    nanoseconds per sample, as the repository's test BaseEnvelopeTest.GetSet
    fixes it (220507 samples remain in 5 s at 44100 Hz). *)
Record ChainTimer : Type := mkChainTimer {
  sample : nat;
  nano_frame : Z
}.

Definition set_samplerate (rate : Z) (t : ChainTimer) : ChainTimer :=
  mkChainTimer (sample t) (nano ÷ rate)%Z.

Definition set_sample (n : nat) (t : ChainTimer) : ChainTimer :=
  mkChainTimer n (nano_frame t).

Definition add_sample (n : nat) (t : ChainTimer) : ChainTimer :=
  mkChainTimer (sample t + n) (nano_frame t).

(** The time of the sample with index [n]. *)
Definition time_of (t : ChainTimer) (n : nat) : Z := (Z.of_nat n * nano_frame t)%Z.

Definition get_time (t : ChainTimer) : Z := time_of t (sample t).

Inductive Shape : Type := Constant | LinearRamp | ExponentialRamp | SetValue.

(** Modelled from the spec: an Envelope Segment is {start_time, stop_time,
    start_value, stop_value}, with stop_time = -1 the sentinel of a segment
    that never ends, and a pure function from time to amplitude. *)
Record Segment : Type := mkSegment {
  shape : Shape;
  start_time : Z;
  stop_time : Z;
  start_value : R;
  stop_value : R
}.

Definition never_ends (e : Segment) : Prop := stop_time e = (-1)%Z.

#[global] Instance never_ends_dec (e : Segment) : Decision (never_ends e).
Proof. unfold never_ends. apply _. Defined.

(** Modelled from the spec (section 4.4): the value of a segment at time [t].
    Constant: start_value.  Linear ramp: start_value + (stop_value -
    start_value) (t - start_time) / (stop_time - start_time).  Exponential
    ramp: start_value (stop_value / start_value) ^ ((t - start_time) /
    (stop_time - start_time)).  Step: start_value for t < stop_time, else
    stop_value. *)
Definition value_at (e : Segment) (t : Z) : R :=
  let frac := (IZR (t - start_time e) / IZR (stop_time e - start_time e))%R in
  match shape e with
  | Constant => start_value e
  | LinearRamp => (start_value e + (stop_value e - start_value e) * frac)%R
  | ExponentialRamp => (start_value e * Rpower (stop_value e / start_value e) frac)%R
  | SetValue => if decide (t < stop_time e)%Z then start_value e else stop_value e
  end.

(** Modelled from the spec: an envelope used as a module on its own (as the
    tests do) fills a block of [n] samples, each one evaluated at the time of
    the clock, which then advances by one sample. *)
Fixpoint fill (e : Segment) (n : nat) (t : ChainTimer) : list R * ChainTimer :=
  match n with
  | O => ([], t)
  | S n' =>
      let v := value_at e (get_time t) in
      let '(vs, t') := fill e n' (add_sample 1 t) in
      (v :: vs, t')
  end.

(** Modelled from the spec: an Envelope Sequence (ChainEnvelope) is an ordered
    list of segments, a cursor to the current one and the shared clock. *)
Record ChainEnvelope : Type := mkChainEnvelope {
  segments : list Segment;
  cursor : nat;
  timer : ChainTimer
}.

Definition add_envelope (e : Segment) (c : ChainEnvelope) : ChainEnvelope :=
  mkChainEnvelope (segments c ++ [e]) (cursor c) (timer c).

Definition has_next (c : ChainEnvelope) : Prop := S (cursor c) < length (segments c).

(** The manual advance: move to the next queued segment, whatever the time. *)
Definition next_envelope (c : ChainEnvelope) : ChainEnvelope :=
  if decide (has_next c)
  then mkChainEnvelope (segments c) (S (cursor c)) (timer c)
  else c.

(** Modelled from the spec: one sample of a sequence.  (1) read the clock,
    (2) evaluate the current segment at that time (an exhausted or empty
    sequence is silent), (3) advance the clock by one sample, (4) if the
    advanced time reaches or exceeds the stop_time of the current segment, the
    segment is not one that never ends, and a next segment exists, move the
    cursor to it. *)
Definition step (c : ChainEnvelope) : R * ChainEnvelope :=
  let t := get_time (timer c) in
  let cur := segments c !! cursor c in
  let v := match cur with Some e => value_at e t | None => 0%R end in
  let timer' := add_sample 1 (timer c) in
  let switch :=
    match cur with
    | Some e =>
        bool_decide (¬ never_ends e ∧ (stop_time e ≤ get_time timer')%Z ∧ has_next c)
    | None => false
    end in
  (v, mkChainEnvelope (segments c) (if switch then S (cursor c) else cursor c) timer').

(** process(): one block of [n] samples. *)
Fixpoint process (n : nat) (c : ChainEnvelope) : list R * ChainEnvelope :=
  match n with
  | O => ([], c)
  | S n' =>
      let '(v, c') := step c in
      let '(vs, c'') := process n' c' in
      (v :: vs, c'')
  end.

(** [k] successive process() calls with block size [n]. *)
Fixpoint pull (k n : nat) (c : ChainEnvelope) : list (list R) * ChainEnvelope :=
  match k with
  | O => ([], c)
  | S k' =>
      let '(b, c') := process n c in
      let '(bs, c'') := pull k' n c' in
      (b :: bs, c'')
  end.

(** The sequence after [n] samples during which the cursor stays put. *)
Definition advanced (n : nat) (c : ChainEnvelope) : ChainEnvelope :=
  mkChainEnvelope (segments c) (cursor c) (add_sample n (timer c)).

(** The sequence after [n] samples at the end of which the cursor moves on. *)
Definition switched (n : nat) (c : ChainEnvelope) : ChainEnvelope :=
  mkChainEnvelope (segments c) (S (cursor c)) (add_sample n (timer c)).

End Envelope.

(** ** WaveReader (io/wav.cpp) *)

Module Wav.

Abbreviation byte := Byte.byte (only parsing).

(** The input stream after [stream->start()], as the bytes still to be read.
    The stream classes are not under src/: [stream->read(p, n)] takes the next
    [n] bytes; what it does when fewer are left is not known, and is a
    failure here. *)
Definition stream_read (n : nat) (bs : list byte) : option (list byte * list byte) :=
  if decide (n ≤ length bs) then Some (take n bs, drop n bs) else None.

Section Decode.

(** The values that the bytes read into a 16-bit and into a 32-bit member
    stand for (the members are declared in io/wav.hpp, not under src/;
    [reinterpret_cast<char*>] fills them in the byte order of the host). *)
Variable u16 u32 : list byte → Z.

Record ChunkHeader : Type := mkChunkHeader {
  chunk_id : list byte;
  chunk_size : Z
}.

Record WavHeader : Type := mkWavHeader {
  wav_chunk_id : list byte;
  wav_chunk_size : Z;
  wav_format : list byte
}.

Record WavFormat : Type := mkWavFormat {
  fmt_format : Z;
  fmt_channels : Z;
  fmt_sample_rate : Z;
  fmt_byte_rate : Z;
  fmt_block_align : Z;
  fmt_bits_per_sample : Z
}.

(** The members of the reader that start() sets, with the stream. *)
Record WaveReader : Type := mkWaveReader {
  stream : list byte;
  size : Z;
  format : Z;
  channels : Z;
  samplerate : Z;
  byterate : Z;
  blockalign : Z;
  bits_per_sample : Z
}.

(** WaveReader::read_chunk_header *)
Definition read_chunk_header (bs : list byte) : option (ChunkHeader * list byte) :=
  '(id, bs) ← stream_read 4 bs;
  '(sz, bs) ← stream_read 4 bs;
  Some (mkChunkHeader id (u32 sz), bs).

(** WaveReader::read_wave_header *)
Definition read_wave_header (bs : list byte) : option (WavHeader * list byte) :=
  '(head, bs) ← read_chunk_header bs;
  '(fmt, bs) ← stream_read 4 bs;
  Some (mkWavHeader (chunk_id head) (chunk_size head) fmt, bs).

(** WaveReader::read_format_chunk *)
Definition read_format_chunk (bs : list byte) : option (WavFormat * list byte) :=
  '(format, bs) ← stream_read 2 bs;
  '(channels, bs) ← stream_read 2 bs;
  '(sample_rate, bs) ← stream_read 4 bs;
  '(byte_rate, bs) ← stream_read 4 bs;
  '(block_align, bs) ← stream_read 2 bs;
  '(bits, bs) ← stream_read 2 bs;
  Some (mkWavFormat (u16 format) (u16 channels) (u32 sample_rate) (u32 byte_rate)
          (u16 block_align) (u16 bits), bs).

(** WaveReader::start.  The three comparisons of the chunk ids and of the
    format tag with the expected text guard a block that declares a local
    variable and does nothing else; the reader goes on in either case. *)
Definition start (r : WaveReader) : option WaveReader :=
  '(head, bs) ← read_wave_header (stream r);
  '(chead, bs) ← read_chunk_header bs;
  '(form, bs) ← read_format_chunk bs;
  Some (mkWaveReader bs (wav_chunk_size head)
          (fmt_format form) (fmt_channels form) (fmt_sample_rate form)
          (fmt_byte_rate form) (fmt_block_align form) (fmt_bits_per_sample form)).

End Decode.

(** Little-endian decoding, the byte order of the hosts the program is built
    for. *)
Definition little_endian (bs : list byte) : Z :=
  foldr (λ b acc, (Z.of_N (Byte.to_N b) + 256 * acc)%Z) 0%Z bs.

End Wav.

(** ** Observations on a store, used in the statements *)

(** The block a module holds in a store. *)
Definition held (s : Store) (a : addr) : option (option bptr) :=
  buff <$> mods s !! a.


(** The block pointers a Mixdown has collected, as stored in a store. *)
Definition collected (s : Store) (a : addr) : list (option bptr) :=
  match mods s !! a with
  | Some m => match derived m with
              | MixDown _ buffs => buffs
              | _ => []
              end
  | None => []
  end.

(** The storage that a pointer refers to. *)
Definition data_at (s : Store) (p : option bptr) : option (list sample) :=
  q ← p; b ← heap s !! q; Some (buf_data b).

(** The summation of ModuleMixDown::process as a recursion over the two
    storages, to be compared with the indexed loop [add_block]. *)
Fixpoint add_samples (f b : list sample) {struct b} : option (list sample) :=
  match b with
  | [] => Some f
  | y :: b' =>
      match f with
      | x :: f' => cons (x + y)%R <$> add_samples f' b'
      | [] => None
      end
  end.

(** Accumulating a list of storages into [f], first to last. *)
Definition sum_blocks (f : list sample) (bs : list (list sample)) : option (list sample) :=
  foldl (λ acc b, d ← acc; add_block d b) (Some f) bs.

(** What a local processing step may change in the derived part of a module:
    nothing, or the phase of an oscillator. *)
Definition same_but_phase (d d' : Derived) : Prop :=
  d' = d ∨ ∃ w f ph ph' sr, d = Oscillator w f ph sr ∧ d' = Oscillator w f ph' sr.

(** What a local processing step may change in a module: the block it holds
    and the phase. *)
Definition local_change (m m' : AudioModule) : Prop :=
  ∃ p d', m' = with_derived (with_buff m p) d' ∧ same_but_phase (derived m) d'.

(** A step that is local to the module at [a]: every other module, every
    block that existed before and every descriptor is as it was. *)
Definition local_step (a : addr) (s s' : Store) : Prop :=
  (∀ x, x ≠ a → mods s' !! x = mods s !! x)
  ∧ (∃ m m', mods s !! a = Some m ∧ mods s' !! a = Some m' ∧ local_change m m')
  ∧ heap s ⊆ heap s'
  ∧ chains s' = chains s.

(** [behind s i p]: [p] is reached from [i] along backward links, that is,
    [p] belongs to the chain behind [i]. *)
Inductive behind (s : Store) : addr → addr → Prop :=
  | behind_one (i p : addr) (m : AudioModule) :
      mods s !! i = Some m → backward m = Some p → behind s i p
  | behind_far (i p p' : addr) :
      behind s i p → behind s p p' → behind s i p'.

(** The samples of the block a module holds. *)
Definition output (s : Store) (a : addr) : option (list sample) :=
  p ← held s a; data_at s p.

(** The store in which the pointers a Mixdown has collected are put in another
    order (or replaced by [buffs']). *)
Definition with_collected (s : Store) (a : addr) (buffs' : list (option bptr)) : Store :=
  match mods s !! a with
  | Some m =>
      match derived m with
      | MixDown ins _ =>
          with_mods s (<[a := with_derived m (MixDown ins buffs')]> (mods s))
      | _ => s
      end
  | None => s
  end.


(** The sum, over the storages [ds], of their samples at position [i]; a
    storage that ends before [i] adds nothing. *)
Definition sample_sum (ds : list (list sample)) (i : nat) : sample :=
  foldl (λ acc d, (acc + default 0%R (d !! i))%R) 0%R ds.

(** [line s l src]: the modules [l], front to back, are plain modules, each
    with the next one as its predecessor and the last with [src]. *)
Fixpoint line (s : Store) (l : list addr) (src : addr) : Prop :=
  match l with
  | [] => True
  | a :: l' =>
      (∃ m, mods s !! a = Some m ∧ derived m = Plain
            ∧ backward m = Some (hd src l'))
      ∧ line s l' src
  end.

(** [input_block s frames a d]: the module at [a] is a Mix-up that declares
    blocks of [frames] frames and retains a block with the samples [d]. *)
Definition input_block (s : Store) (frames : nat) (a : addr) (d : list sample) : Prop :=
  ∃ m out r b, mods s !! a = Some m
               ∧ derived m = MixUp out
               ∧ out_buffer (info m) = frames
               ∧ buff m = Some r
               ∧ heap s !! r = Some b
               ∧ buf_data b = d.

(** ** Starting and stopping a chain (audio_module.cpp) *)

Definition with_info (m : AudioModule) (x : ModuleInfo) : AudioModule :=
  mkAudioModule (backward m) (forward m) (buff m) x (chain m) (derived m).

(** Modelled from the spec: source_module.hpp is not under src/.  A source
    has no predecessor and ends the recursion locally: its meta_start() and
    its meta_stop() run its own hook. *)
Definition SourceModule_meta_start (start : addr → M unit) (this : addr) : M unit :=
  start this.
Definition SourceModule_meta_stop (stop : addr → M unit) (this : addr) : M unit :=
  stop this.

(** AudioModule::meta_start, with the virtual call [backward->meta_start()]
    that it makes.  [start] is the hook [start()], whose bodies are in the
    headers.  The classes of module_mixer.cpp define no meta_start there.
    [fuel] bounds the depth of the recursion. *)
Fixpoint meta_start (start : addr → M unit) (fuel : nat) (this : addr) : M unit :=
  match fuel with
  | O => fail
  | S fuel' =>
      m ← get_module this;
      match derived m with
      | Oscillator _ _ _ _ => SourceModule_meta_start start this
      | _ =>
          back ← lift_option (backward m);
          meta_start start fuel' back;;
          m1 ← get_module this;
          back1 ← lift_option (backward m1);
          mb ← get_module back1;
          put_module this (with_info m1 (info mb));;
          start this
      end
  end.

(** AudioModule::meta_stop, in the same way, with the hook [stop()]. *)
Fixpoint meta_stop (stop : addr → M unit) (fuel : nat) (this : addr) : M unit :=
  match fuel with
  | O => fail
  | S fuel' =>
      m ← get_module this;
      match derived m with
      | Oscillator _ _ _ _ => SourceModule_meta_stop stop this
      | _ =>
          back ← lift_option (backward m);
          meta_stop stop fuel' back;;
          stop this
      end
  end.

(** What a hook leaves alone in a module object: its backward link and its
    info record. *)
Definition outline (m : AudioModule) : option addr * ModuleInfo :=
  (backward m, info m).

(** A hook that completes on every module and changes the outline of none. *)
Definition keeps_outline (hook : addr → M unit) : Prop :=
  ∀ (a : addr) (s : Store),
    is_Some (mods s !! a) →
    ∃ s', hook a s = Some (tt, s')
          ∧ ∀ x, outline <$> mods s' !! x = outline <$> mods s !! x.

(** ** DSP helpers (dsp/util.cpp, container_benchmark.cpp) *)

(** [std::sin(x) / x].  At 0 the quotient is 0/0, which is no number. *)
Definition sinc (x : R) : option R :=
  if Req_dec_T x 0 then None else Some (sin x / x)%R.

(** [abs(second - first) / ((first + second) / 2) * 100].  When the two
    arguments add up to zero the divisor is zero and the quotient is no
    finite number. *)
Definition percent_diff (first second : R) : option R :=
  if Req_dec_T (first + second) 0 then None
  else Some (Rabs (second - first) / ((first + second) / 2) * 100)%R.
(** ** A small graph to run the kernel on

    A Mixdown (address 1) with two inputs, the Mix-ups at 2 and 4.  Each
    Mix-up retains a block of two samples equal to 1 and stands in front of a
    sub-chain: a sine oscillator (3) behind the first, a plain module (5),
    holding a block of its own, behind the second.  Every module declares a
    block size of 2; the descriptor of the chain declares [channels]
    channels.  The graph is as bind() and ModuleMixDown::bind leave it: each
    predecessor has its forward pointer on the module in front of it, and
    registering an input with the Mixdown sets no pointer in the input. *)
Definition ones : AudioBuffer := mkAudioBuffer 2 1 [1%R; 1%R].

Definition studio_mixdown : AudioModule :=
  mkAudioModule None None None (mkModuleInfo 2) (Some 1%positive)
    (MixDown [2%positive; 4%positive] []).
Definition studio_mixup_a : AudioModule :=
  mkAudioModule (Some 3%positive) None (Some 1%positive)
    (mkModuleInfo 2) (Some 1%positive) (MixUp []).
Definition studio_mixup_b : AudioModule :=
  mkAudioModule (Some 5%positive) None (Some 2%positive)
    (mkModuleInfo 2) (Some 1%positive) (MixUp []).
Definition studio_sine : AudioModule :=
  mkAudioModule None (Some 2%positive) None (mkModuleInfo 2) (Some 1%positive)
    (Oscillator Sine 440 0 44100).
Definition studio_plain : AudioModule :=
  mkAudioModule None (Some 4%positive) (Some 3%positive) (mkModuleInfo 2)
    (Some 1%positive) Plain.

Definition studio (channels : nat) : Store :=
  mkStore
    (<[1%positive := studio_mixdown]>
       (<[2%positive := studio_mixup_a]>
          (<[3%positive := studio_sine]>
             (<[4%positive := studio_mixup_b]>
                (<[5%positive := studio_plain]> ∅)))))
    (<[1%positive := ones]> (<[2%positive := ones]> (<[3%positive := ones]> ∅)))
    (<[1%positive := mkChainInfo 1000 channels 2]> ∅).

(** The numbers of the envelope tests: 1000 samples per second and a step
    at sample 348; 100 samples per second and Constant segments that end
    after one and two seconds. *)
Definition clock_1000 : Envelope.ChainTimer :=
  Envelope.set_samplerate 1000 (Envelope.mkChainTimer 0 0).
Definition step_at_348 : Envelope.Segment :=
  Envelope.mkSegment Envelope.SetValue 0 348000000 0 1.
Definition constant_5 : Envelope.Segment :=
  Envelope.mkSegment Envelope.Constant 0 Envelope.nano 5 10.
Definition constant_20 : Envelope.Segment :=
  Envelope.mkSegment Envelope.Constant Envelope.nano (2 * Envelope.nano) 20 30.
Definition constant_30 : Envelope.Segment :=
  Envelope.mkSegment Envelope.Constant (2 * Envelope.nano) (3 * Envelope.nano) 30 30.


(** ** Further small graphs

    A bench of mixers: a Mixdown (1) that has collected a block of two
    samples and a shorter one, a Mix-up (2) that holds no block, and a
    Mixdown (3) that has collected a null pointer. *)
Definition bench : Store :=
  mkStore
    (<[1%positive := mkAudioModule None None None (mkModuleInfo 2) None
                       (MixDown [] [Some 1%positive; Some 2%positive])]>
       (<[2%positive := mkAudioModule None None None (mkModuleInfo 2) None (MixUp [])]>
          (<[3%positive := mkAudioModule None None None (mkModuleInfo 2) None
                             (MixDown [] [None])]> ∅)))
    (<[1%positive := ones]> (<[2%positive := mkAudioBuffer 1 1 [3%R]]> ∅))
    ∅.

(** A rack: two plain modules (7 in front of 8) in front of a square-wave
    oscillator (9).  The oscillator declares blocks of two frames, the plain
    modules, not started yet, blocks of five and of three. *)
Definition rack_front : AudioModule :=
  mkAudioModule (Some 8%positive) None None (mkModuleInfo 5) None Plain.
Definition rack_middle : AudioModule :=
  mkAudioModule (Some 9%positive) (Some 7%positive) None (mkModuleInfo 3) None Plain.
Definition rack_square : AudioModule :=
  mkAudioModule None (Some 8%positive) None (mkModuleInfo 2) None
    (Oscillator Square 1 0 4).

Definition rack : Store :=
  mkStore
    (<[7%positive := rack_front]>
       (<[8%positive := rack_middle]> (<[9%positive := rack_square]> ∅)))
    ∅ ∅.



(** A header of 36 bytes: zeros, with 2 at offset 22 (the channels) and 16 at
    offset 34 (the bits per sample). *)
Definition plain_header : list Wav.byte :=
  replicate 22 Byte.x00 ++ [Byte.x02; Byte.x00] ++ replicate 10 Byte.x00
  ++ [Byte.x10; Byte.x00].

(** The start() hook that does nothing. *)
Definition no_hook (a : addr) : M unit := mret tt.



(** An idle desk: a Mixdown (1) whose one input is a plain module (2) that
    holds no block. *)
Definition idle_mixdown : AudioModule :=
  mkAudioModule None None None (mkModuleInfo 2) None (MixDown [2%positive] []).
Definition idle_input : AudioModule :=
  mkAudioModule None None None (mkModuleInfo 2) None Plain.

Definition idle : Store :=
  mkStore (<[1%positive := idle_mixdown]> (<[2%positive := idle_input]> ∅)) ∅ ∅.
Section Kernel.

(** The default of the [channels] argument of [create_buffer(int channels)].
    It is declared in audio_module.hpp, which is not under src/: every
    [create_buffer()] call without an argument passes this constant. *)
Variable default_channels : nat.

(** The conversion [double(x)] that three of the oscillators apply before
    [modf].  The members that make up its argument are declared in
    fund_oscillator.hpp, which is not under src/: the value of type double
    that the conversion gives for a number is a parameter.  It stands for the
    conversion of numbers within the range of double, which gives a number. *)
Variable to_double : R → R.

(** ** The oscillators (fund_oscillator.cpp)

    The four process() methods differ in the value they write only:
    [this->set_buffer(this->create_buffer())], then the loop over the
    interleaved view of [this->buff]. *)

(** The loop of an oscillator: [for (iter = buff->ibegin(); iter.get_index() <
    buff->size(); ++iter) { *iter = ...; this->phase++; }], over the interleaved
    indices [js].  The samples of a block are real numbers: where the value
    written is not modelled (at the sample rate 0) the block of the model
    keeps the cell as it was, and no statement is made about the samples of
    such a block.  The phase is counted in the integers; the code counts it in a
    machine integer, and the statements about the samples of a block are made
    for phases that stay within the range of a 32-bit integer. *)
Fixpoint osc_fill (w : Wave) (frequency sample_rate : R) (b : AudioBuffer)
    (js : list nat) (phase : Z) (d : list sample) : list sample * Z :=
  match js with
  | [] => (d, phase)
  | j :: js' =>
      osc_fill w frequency sample_rate b js' (phase + 1)%Z
        match oscillator_value to_double w frequency phase sample_rate with
        | Some v => <[interleaved_pos b j := v]> d
        | None => d
        end
  end.

Definition oscillator_process (w : Wave) (this : addr) : M unit :=
  p ← create_buffer this default_channels;
  AudioModule_set_buffer this (Some p);;
  m ← get_module this;
  match derived m with
  | Oscillator w' frequency phase sample_rate =>
      if decide (w' = w) then
        q ← lift_option (buff m);
        b ← read_buffer (Some q);
        let '(d, phase') :=
          osc_fill w frequency sample_rate b (seq 0 (size b)) phase (buf_data b) in
        write_buffer q (with_data b d);;
        put_module this (with_derived m (Oscillator w frequency phase' sample_rate))
      else fail
  | _ => fail
  end.

Definition SineOscillator_process : addr → M unit := oscillator_process Sine.
Definition SquareOscillator_process : addr → M unit := oscillator_process Square.
Definition SawtoothOscillator_process : addr → M unit := oscillator_process Sawtooth.
Definition TriangleOscillator_process : addr → M unit := oscillator_process Triangle.

(** ** ModuleMixDown and ModuleMixUp (module_mixer.cpp) *)

(** The body of [for (auto &b : this->buffs)] in ModuleMixDown::process. *)
Definition mix_into (fbuff : bptr) (b : option bptr) : M unit :=
  bb ← read_buffer b;
  fb ← read_buffer (Some fbuff);
  d ← lift_option (add_block (buf_data fb) (buf_data bb));
  write_buffer fbuff (with_data fb d).

Definition ModuleMixDown_process (this : addr) : M unit :=
  fbuff ← create_buffer this default_channels;
  m ← get_module this;
  match derived m with
  | MixDown _ buffs =>
      for_each buffs (mix_into fbuff);;
      AudioModule_set_buffer this (Some fbuff)
  | _ => fail
  end.

Definition ModuleMixUp_get_buffer (this : addr) : M (option bptr) :=
  tbuff ← create_buffer this default_channels;
  m ← get_module this;
  src ← read_buffer (buff m);
  dst ← read_buffer (Some tbuff);
  d ← lift_option (std_copy (buf_data src) (buf_data dst));
  write_buffer tbuff (with_data dst d);;
  mret (Some tbuff).

(** ** Virtual calls *)

(** [mod->process()].  ModuleMixUp defines no process() of its own: it runs the
    hook it inherits, which (as LatencyModule's dummy) does nothing. *)
Definition process (this : addr) : M unit :=
  m ← get_module this;
  match derived m with
  | Plain => mret tt
  | MixUp _ => mret tt
  | Oscillator Sine _ _ _ => SineOscillator_process this
  | Oscillator Square _ _ _ => SquareOscillator_process this
  | Oscillator Sawtooth _ _ _ => SawtoothOscillator_process this
  | Oscillator Triangle _ _ _ => TriangleOscillator_process this
  | MixDown _ _ => ModuleMixDown_process this
  end.

(** [mod->get_buffer()] *)
Definition get_buffer (this : addr) : M (option bptr) :=
  m ← get_module this;
  match derived m with
  | MixUp _ => ModuleMixUp_get_buffer this
  | _ => AudioModule_get_buffer this
  end.

(** [this->buffs.push_back(std::move(b))] *)
Definition push_buff (this : addr) (b : option bptr) : M unit :=
  m ← get_module this;
  match derived m with
  | MixDown ins buffs => put_module this (with_derived m (MixDown ins (buffs ++ [b])))
  | _ => fail
  end.

(** The body of [for (auto &mod : this->in)] in ModuleMixDown::meta_process. *)
Definition collect_one (this : addr) (mod_ : addr) : M unit :=
  process mod_;;
  b ← get_buffer mod_;
  push_buff this b.

Definition collect (this : addr) (ins : list addr) : M unit :=
  for_each ins (collect_one this).

Definition ModuleMixDown_meta_process (this : addr) : M unit :=
  m ← get_module this;
  match derived m with
  | MixDown ins _ =>
      collect this ins;;
      ModuleMixDown_process this
  | _ => fail
  end.


(** AudioModule::meta_process, the full backward recursion, together with the
    virtual call [mod->meta_process()] that it makes.  The recursion ends at a
    module of another kind: at a Mixdown, which has its own meta_process, or
    at a source.  Modelled from the spec: source_module.hpp is not under src/;
    a source has no predecessor and ends the recursion with its own
    processing hook.  [fuel] bounds the depth of the recursion, which the code
    leaves unbounded on a cyclic graph. *)
Fixpoint meta_process (fuel : nat) (this : addr) : M unit :=
  match fuel with
  | O => fail
  | S fuel' =>
      m ← get_module this;
      match derived m with
      | MixDown _ _ => ModuleMixDown_meta_process this
      | Oscillator _ _ _ _ => process this
      | Plain | MixUp _ =>
          back ← lift_option (backward m);
          meta_process fuel' back;;
          b ← get_buffer back;
          AudioModule_set_buffer this b;;
          process this
      end
  end.

(** ** Statements about the kernel *)

(** The modules whose process() hook puts out a block made by
    [create_buffer()]: the oscillators, and a Mixdown all of whose collected
    pointers refer to blocks that fit the block it makes. *)
Definition allocates_output (s : Store) (m : AudioModule) : Prop :=
  match derived m with
  | Oscillator _ _ _ _ => True
  | MixDown _ buffs =>
      Forall (λ p, ∃ d, data_at s p = Some d
                        ∧ length d ≤ out_buffer (info m) * default_channels) buffs
  | _ => False
  end.

(** The block a module holds after a step has the dimensions [frames] x
    [channels], and did not exist before the step. *)
Definition holds_new_block (s s' : Store) (a : addr) (frames channels : nat) : Prop :=
  ∃ q b, held s' a = Some (Some q)
         ∧ heap s' !! q = Some b
         ∧ heap s !! q = None
         ∧ buf_frames b = frames
         ∧ buf_channels b = channels
         ∧ size b = frames * channels.

(** ** Statements about oscillators as inputs *)



(** * Reasoning about methods *)

Lemma bind_Some {A B} (c : M A) (k : A → M B) (s s' : Store) (r : B) :
  (c ≫= k) s = Some (r, s') ↔
  ∃ x s1, c s = Some (x, s1) ∧ k x s1 = Some (r, s').
Proof.
  unfold mbind, M_bind. split.
  - destruct (c s) as [[x s1]|] eqn:E; [eauto | discriminate].
  - intros (x & s1 & -> & H). exact H.
Qed.

Lemma bind_run {A B} (c : M A) (k : A → M B) (s s1 : Store) (x : A) :
  c s = Some (x, s1) → (c ≫= k) s = k x s1.
Proof. unfold mbind, M_bind. by intros ->. Qed.

Lemma get_module_Some (a : addr) (s s' : Store) (m : AudioModule) :
  get_module a s = Some (m, s') ↔ mods s !! a = Some m ∧ s' = s.
Proof.
  unfold get_module. destruct (mods s !! a) as [m0|]; split.
  - by intros [= <- <-].
  - by intros [[= <-] ->].
  - discriminate.
  - by intros [? _].
Qed.

Lemma get_module_run (a : addr) (s : Store) (m : AudioModule) :
  mods s !! a = Some m → get_module a s = Some (m, s).
Proof. intros H. by apply get_module_Some. Qed.

Lemma read_buffer_Some (p : option bptr) (s s' : Store) (b : AudioBuffer) :
  read_buffer p s = Some (b, s') ↔ (∃ q, p = Some q ∧ heap s !! q = Some b) ∧ s' = s.
Proof.
  unfold read_buffer. split.
  - destruct p as [q|]; [|discriminate].
    destruct (heap s !! q) as [b0|] eqn:E; [|discriminate].
    intros [= <- <-]. eauto.
  - intros [(q & -> & Hq) ->]. by rewrite Hq.
Qed.

Lemma lift_option_Some {A} (o : option A) (s s' : Store) (x : A) :
  lift_option o s = Some (x, s') ↔ o = Some x ∧ s' = s.
Proof.
  unfold lift_option. destruct o as [y|]; split.
  - by intros [= <- <-].
  - by intros [[= <-] ->].
  - discriminate.
  - by intros [? _].
Qed.

(** Inversion of a successful run, one step at a time. *)
Ltac inv_run :=
  repeat match goal with
  | H : (_ ≫= _) _ = Some _ |- _ =>
      apply bind_Some in H; destruct H as (? & ? & ? & H)
  | H : get_module _ _ = Some _ |- _ =>
      apply get_module_Some in H; destruct H as [H ->]
  | H : read_buffer _ _ = Some _ |- _ =>
      apply read_buffer_Some in H; destruct H as [(? & ? & H) ->]
  | H : lift_option _ _ = Some _ |- _ =>
      apply lift_option_Some in H; destruct H as [H ->]
  | H : put_module _ _ _ = Some _ |- _ =>
      unfold put_module in H; simplify_eq
  | H : write_buffer _ _ _ = Some _ |- _ =>
      unfold write_buffer in H; simplify_eq
  | H : new_buffer _ _ = Some _ |- _ =>
      unfold new_buffer in H; simplify_eq
  | H : mret _ _ = Some _ |- _ =>
      unfold mret, M_ret in H; simplify_eq
  | H : fail _ = Some _ |- _ => discriminate H
  end.

(** * Block transfer *)

Lemma AudioModule_get_buffer_run (s : Store) (this : addr) (m : AudioModule) :
  mods s !! this = Some m →
  AudioModule_get_buffer this s
  = Some (buff m, with_mods s (<[this := with_buff m None]> (mods s))).
Proof.
  intros Hm. unfold AudioModule_get_buffer.
  rewrite (bind_run _ _ _ _ _ (get_module_run _ _ _ Hm)). reflexivity.
Qed.

Lemma AudioModule_set_buffer_run (s : Store) (this : addr) (m : AudioModule)
    (p : option bptr) :
  mods s !! this = Some m →
  AudioModule_set_buffer this p s
  = Some (tt, with_mods s (<[this := with_buff m p]> (mods s))).
Proof.
  intros Hm. unfold AudioModule_set_buffer.
  rewrite (bind_run _ _ _ _ _ (get_module_run _ _ _ Hm)). reflexivity.
Qed.

(** The call [mod->get_buffer()] on an object that is not a Mix-up runs
    AudioModule's own method. *)
Lemma get_buffer_base (s : Store) (a : addr) (m : AudioModule) :
  mods s !! a = Some m →
  (∀ out, derived m ≠ MixUp out) →
  get_buffer a s
  = Some (buff m, with_mods s (<[a := with_buff m None]> (mods s))).
Proof.
  intros Hm Hk. unfold get_buffer.
  rewrite (bind_run _ _ _ _ _ (get_module_run _ _ _ Hm)).
  rewrite <- (AudioModule_get_buffer_run _ _ _ Hm).
  destruct (derived m) eqn:E; try reflexivity. by destruct (Hk out).
Qed.

(** * Binding *)











(** * The summation loop *)

Lemma add_at_None (b : list sample) (js : list nat) :
  fold_left (add_at b) js None = None.
Proof. induction js as [|j js IH]; [reflexivity | exact IH]. Qed.

Lemma add_block_shifted (b f pre_f pre_b : list sample) :
  length pre_f = length pre_b →
  fold_left (add_at (pre_b ++ b)) (seq (length pre_b) (length b)) (Some (pre_f ++ f))
  = app pre_f <$> add_samples f b.
Proof.
  revert f pre_f pre_b.
  induction b as [|y b IH]; intros f pre_f pre_b Hlen; [reflexivity|].
  cbn [length seq fold_left add_samples].
  unfold add_at at 2. cbn [mbind option_bind].
  rewrite (lookup_app_r pre_f) by lia.
  rewrite (lookup_app_r pre_b) by lia.
  rewrite Hlen, Nat.sub_diag.
  destruct f as [|x f]; simpl.
  { apply add_at_None. }
  rewrite (insert_app_r_alt pre_f) by lia.
  rewrite <- Hlen, Nat.sub_diag. simpl.
  specialize (IH f (pre_f ++ [(x + y)%R]) (pre_b ++ [y])).
  rewrite !length_app in IH. simpl in IH.
  rewrite <- !(assoc_L app) in IH. simpl in IH.
  rewrite Hlen, <- Nat.add_1_r.
  rewrite IH by lia.
  destruct (add_samples f b) as [r|]; simpl; [|reflexivity].
  by rewrite <- (assoc_L app).
Qed.

Lemma add_block_samples (f b : list sample) :
  add_block f b = add_samples f b.
Proof.
  unfold add_block.
  pose proof (add_block_shifted b f [] [] eq_refl) as H. simpl in H.
  rewrite H. by destruct (add_samples f b).
Qed.

Lemma add_samples_zip (f b : list sample) :
  length b = length f →
  add_samples f b = Some (zip_with Rplus f b).
Proof.
  revert f. induction b as [|y b IH]; intros [|x f] Hlen; try discriminate.
  - reflexivity.
  - simpl. rewrite IH by (simpl in Hlen; lia). reflexivity.
Qed.

Lemma add_samples_Some_length (f b r : list sample) :
  add_samples f b = Some r → length b ≤ length f ∧ length r = length f.
Proof.
  revert f r. induction b as [|y b IH]; intros f r H.
  - injection H as <-. simpl. lia.
  - destruct f as [|x f]; [discriminate|]. simpl in H.
    destruct (add_samples f b) as [r'|] eqn:E; [|discriminate].
    injection H as <-. destruct (IH _ _ E). simpl. lia.
Qed.

Lemma add_samples_fits (f b : list sample) :
  length b ≤ length f → is_Some (add_samples f b).
Proof.
  revert f. induction b as [|y b IH]; intros f Hlen; [by eexists|].
  destruct f as [|x f]; [simpl in Hlen; lia|].
  simpl. destruct (IH f) as [r ->]; [simpl in Hlen; lia|]. by eexists.
Qed.

Lemma zip_with_Rplus_replicate (n : nat) (u v : sample) :
  zip_with Rplus (replicate n u) (replicate n v) = replicate n (u + v)%R.
Proof. induction n as [|n IH]; [reflexivity|]. simpl. by rewrite IH. Qed.

Lemma zip_with_Rplus_swap (f x y : list sample) :
  zip_with Rplus (zip_with Rplus f x) y = zip_with Rplus (zip_with Rplus f y) x.
Proof.
  revert x y. induction f as [|a f IH]; intros [|b x] [|c y]; simpl; try reflexivity.
  rewrite IH. f_equal. lra.
Qed.

Lemma sum_blocks_None (bs : list (list sample)) :
  foldl (λ acc b, d ← acc; add_block d b) None bs = None.
Proof. induction bs as [|b bs IH]; [reflexivity | exact IH]. Qed.

(** With equal sizes the loop neither throws nor leaves a sample out: the
    result is the sample-for-sample sum. *)
Lemma sum_blocks_zip (f : list sample) (bs : list (list sample)) :
  Forall (λ b, length b = length f) bs →
  sum_blocks f bs = Some (foldl (zip_with Rplus) f bs).
Proof.
  unfold sum_blocks. revert f.
  induction bs as [|b bs IH]; intros f Hall; [reflexivity|].
  inversion Hall as [|?? Hb Hbs]; subst. simpl.
  rewrite add_block_samples, add_samples_zip by done.
  apply IH.
  assert (Hl : length (zip_with Rplus f b) = length f)
    by (rewrite length_zip_with; lia).
  eapply Forall_impl; [exact Hbs|]. simpl. intros c Hc. congruence.
Qed.

(** The sample-for-sample sum does not depend on the order of the blocks. *)
Lemma sum_order_irrelevant (bs bs' : list (list sample)) :
  bs ≡ₚ bs' →
  ∀ f, foldl (zip_with Rplus) f bs = foldl (zip_with Rplus) f bs'.
Proof.
  induction 1 as [|b bs bs' _ IH|b c bs|bs bs' bs'' _ IH1 _ IH2]; intros f; simpl.
  - reflexivity.
  - apply IH.
  - by rewrite zip_with_Rplus_swap.
  - by rewrite IH1, IH2.
Qed.

Lemma sum_constant_blocks (n k : nat) (u v : sample) :
  foldl (zip_with Rplus) (replicate n u) (replicate k (replicate n v))
  = replicate n (u + INR k * v)%R.
Proof.
  revert u. induction k as [|k IH]; intros u.
  - simpl. f_equal. lra.
  - cbn [replicate foldl]. rewrite zip_with_Rplus_replicate, IH.
    f_equal. rewrite S_INR. lra.
Qed.

(** * Local processing steps *)

Lemma create_buffer_run (s : Store) (this : addr) (m : AudioModule) (channels : nat) :
  mods s !! this = Some m →
  create_buffer this channels s
  = Some (fresh (dom (heap s)),
          with_heap s (<[fresh (dom (heap s))
                         := AudioBuffer_new (out_buffer (info m)) channels]> (heap s))).
Proof.
  intros Hm. unfold create_buffer.
  rewrite (bind_run _ _ _ _ _ (get_module_run _ _ _ Hm)). reflexivity.
Qed.

Lemma fresh_block_unused (s : Store) : heap s !! fresh (dom (heap s)) = None.
Proof. apply not_elem_of_dom, is_fresh. Qed.

Lemma AudioBuffer_new_size (n channels : nat) :
  size (AudioBuffer_new n channels) = n * channels.
Proof. unfold size. simpl. apply length_replicate. Qed.

Lemma osc_fill_length (w : Wave) (f sr : R) (b : AudioBuffer) (js : list nat)
    (ph : Z) (d : list sample) :
  length (osc_fill w f sr b js ph d).1 = length d.
Proof.
  revert ph d. induction js as [|j js IH]; intros ph d; [reflexivity|].
  simpl. rewrite IH.
  destruct (oscillator_value to_double w f ph sr); [apply length_insert|reflexivity].
Qed.

Lemma osc_fill_phase (w : Wave) (f sr : R) (b : AudioBuffer) (js : list nat)
    (ph : Z) (d : list sample) :
  (osc_fill w f sr b js ph d).2 = (ph + Z.of_nat (length js))%Z.
Proof.
  revert ph d. induction js as [|j js IH]; intros ph d; simpl; [lia|].
  rewrite IH. lia.
Qed.

(** The store an oscillator leaves behind: its block is a new one, filled
    through the interleaved view, and its phase has advanced by one per
    sample. *)
Lemma oscillator_process_run (w : Wave) (s : Store) (this : addr) (m : AudioModule)
    (f : R) (ph : Z) (sr : R) :
  mods s !! this = Some m →
  derived m = Oscillator w f ph sr →
  let p := fresh (dom (heap s)) in
  let b0 := AudioBuffer_new (out_buffer (info m)) default_channels in
  let r := osc_fill w f sr b0 (seq 0 (size b0)) ph (buf_data b0) in
  oscillator_process w this s
  = Some (tt, mkStore
                (<[this := with_derived (with_buff m (Some p)) (Oscillator w f r.2 sr)]>
                   (mods s))
                (<[p := with_data b0 r.1]> (heap s))
                (chains s)).
Proof.
  intros Hm Hd p b0 r. unfold oscillator_process.
  rewrite (bind_run _ _ _ _ _ (create_buffer_run _ _ _ default_channels Hm)).
  fold p b0.
  erewrite bind_run; [|by apply AudioModule_set_buffer_run].
  erewrite bind_run; [|apply get_module_run; simpl; apply lookup_insert_eq].
  simpl. rewrite Hd.
  destruct (decide (w = w)) as [_|]; [|done].
  erewrite bind_run; [|apply lift_option_Some; split; reflexivity].
  erewrite bind_run;
    [|apply read_buffer_Some; split; [|reflexivity];
      eexists; split; [reflexivity|]; simpl; apply lookup_insert_eq].
  fold r. destruct r as [d ph'] eqn:Er.
  unfold mbind, M_bind, write_buffer, put_module, with_heap, with_mods. simpl.
  by rewrite !insert_insert_eq.
Qed.

(** * ModuleMixDown::process *)

Lemma with_heap_same (s : Store) : with_heap s (heap s) = s.
Proof. by destruct s. Qed.

Lemma with_data_same (b : AudioBuffer) : with_data b (buf_data b) = b.
Proof. by destruct b. Qed.

Lemma data_at_Some (s : Store) (p : option bptr) (d : list sample) :
  data_at s p = Some d ↔ ∃ q b, p = Some q ∧ heap s !! q = Some b ∧ buf_data b = d.
Proof.
  unfold data_at. split.
  - destruct p as [q|]; [|discriminate]. simpl.
    destruct (heap s !! q) as [b|] eqn:E; [|discriminate].
    intros [= <-]. eauto.
  - intros (q & b & -> & Hq & <-). simpl. by rewrite Hq.
Qed.

Lemma mix_into_run (fbuff : bptr) (p : option bptr) (s : Store)
    (fb : AudioBuffer) (d : list sample) :
  heap s !! fbuff = Some fb →
  data_at s p = Some d →
  mix_into fbuff p s
  = (r ← add_block (buf_data fb) d;
     Some (tt, with_heap s (<[fbuff := with_data fb r]> (heap s)))).
Proof.
  intros Hf (q & b & -> & Hq & <-)%data_at_Some. unfold mix_into.
  erewrite bind_run; [|apply read_buffer_Some; eauto].
  erewrite bind_run; [|apply read_buffer_Some; eauto].
  destruct (add_block (buf_data fb) (buf_data b)) as [r|]; reflexivity.
Qed.

(** The loop over the collected blocks computes [sum_blocks] into the block at
    [fbuff], when every collected pointer refers to a block other than
    [fbuff]. *)
Lemma mix_loop_run (fbuff : bptr) (buffs : list (option bptr)) (ds : list (list sample)) :
  ∀ (s : Store) (fb : AudioBuffer),
  heap s !! fbuff = Some fb →
  Forall2 (λ p d, data_at s p = Some d ∧ p ≠ Some fbuff) buffs ds →
  for_each buffs (mix_into fbuff) s
  = (r ← sum_blocks (buf_data fb) ds;
     Some (tt, with_heap s (<[fbuff := with_data fb r]> (heap s)))).
Proof.
  revert ds. induction buffs as [|p buffs IH]; intros ds s fb Hf Hall.
  - inversion Hall; subst. simpl.
    by rewrite with_data_same, insert_id, with_heap_same.
  - inversion Hall as [|? d ? ds' [Hp Hne] Hrest]; subst.
    cbn [for_each]. unfold sum_blocks. cbn [foldl].
    unfold mbind at 1, M_bind.
    rewrite (mix_into_run _ _ _ _ _ Hf Hp). simpl.
    destruct (add_block (buf_data fb) d) as [r|] eqn:Er; simpl.
    + set (s1 := with_heap s _).
      rewrite (IH ds' s1 (with_data fb r)).
      * unfold sum_blocks. simpl.
        destruct (foldl _ (Some r) ds') as [r'|]; [|reflexivity].
        simpl. subst s1. unfold with_heap. simpl.
        by rewrite insert_insert_eq.
      * subst s1. simpl. apply lookup_insert_eq.
      * eapply Forall2_impl; [exact Hrest|].
        intros p' d' [(q & b & -> & Hq & <-)%data_at_Some Hne'].
        split; [|done]. apply data_at_Some. exists q, b.
        split; [done|]. split; [|done].
        subst s1. simpl. rewrite lookup_insert_ne; [done|congruence].
    + by rewrite sum_blocks_None.
Qed.

Lemma mix_into_inv (fbuff : bptr) (p : option bptr) (s s' : Store) :
  mix_into fbuff p s = Some (tt, s') →
  ∃ fb r, heap s !! fbuff = Some fb
          ∧ length r = length (buf_data fb)
          ∧ s' = with_heap s (<[fbuff := with_data fb r]> (heap s)).
Proof.
  unfold mix_into. intros H. inv_run.
  match goal with
  | H : add_block _ _ = Some _ |- _ =>
      rewrite add_block_samples in H; apply add_samples_Some_length in H as [_ Hl]
  end.
  eauto.
Qed.

(** Whatever the collected pointers are, a completed loop has written to the
    block at [fbuff] only, and has kept its dimensions. *)
Lemma mix_loop_inv (fbuff : bptr) (buffs : list (option bptr)) :
  ∀ (s s' : Store) (fb : AudioBuffer),
  heap s !! fbuff = Some fb →
  for_each buffs (mix_into fbuff) s = Some (tt, s') →
  ∃ r, length r = length (buf_data fb)
       ∧ s' = with_heap s (<[fbuff := with_data fb r]> (heap s)).
Proof.
  induction buffs as [|p buffs IH]; intros s s' fb Hf H.
  - injection H as <-. exists (buf_data fb).
    by rewrite with_data_same, insert_id, with_heap_same.
  - cbn [for_each] in H. apply bind_Some in H as ([] & s1 & H1 & H2).
    apply mix_into_inv in H1 as (fb1 & r1 & Hf1 & Hl1 & ->).
    replace fb1 with fb in * by congruence.
    assert (Hf2 : heap (with_heap s (<[fbuff := with_data fb r1]> (heap s))) !! fbuff
                  = Some (with_data fb r1))
      by (simpl; apply lookup_insert_eq).
    destruct (IH _ _ _ Hf2 H2) as (r & Hl & ->).
    exists r. split; [simpl in Hl; congruence|].
    unfold with_heap. simpl. by rewrite insert_insert_eq.
Qed.

Lemma ModuleMixDown_process_unfold (s : Store) (this : addr) (m : AudioModule)
    (ins : list addr) (buffs : list (option bptr)) :
  mods s !! this = Some m →
  derived m = MixDown ins buffs →
  let p := fresh (dom (heap s)) in
  let b0 := AudioBuffer_new (out_buffer (info m)) default_channels in
  ModuleMixDown_process this s
  = (for_each buffs (mix_into p);; AudioModule_set_buffer this (Some p))
      (with_heap s (<[p := b0]> (heap s))).
Proof.
  intros Hm Hd p b0. unfold ModuleMixDown_process.
  rewrite (bind_run _ _ _ _ _ (create_buffer_run _ _ _ default_channels Hm)).
  fold p b0.
  erewrite bind_run; [|apply get_module_run; simpl; exact Hm].
  by rewrite Hd.
Qed.

(** The store a completed ModuleMixDown::process leaves behind. *)
Lemma ModuleMixDown_process_inv (s s' : Store) (this : addr) (m : AudioModule)
    (ins : list addr) (buffs : list (option bptr)) :
  mods s !! this = Some m →
  derived m = MixDown ins buffs →
  ModuleMixDown_process this s = Some (tt, s') →
  ∃ r, length r = out_buffer (info m) * default_channels
       ∧ s' = mkStore
                (<[this := with_buff m (Some (fresh (dom (heap s))))]> (mods s))
                (<[fresh (dom (heap s))
                   := mkAudioBuffer (out_buffer (info m)) default_channels r]> (heap s))
                (chains s).
Proof.
  intros Hm Hd H.
  rewrite (ModuleMixDown_process_unfold _ _ _ _ _ Hm Hd) in H.
  apply bind_Some in H as ([] & s1 & H1 & H2).
  set (p := fresh (dom (heap s))) in *.
  set (b0 := AudioBuffer_new (out_buffer (info m)) default_channels) in *.
  assert (Hp : heap (with_heap s (<[p := b0]> (heap s))) !! p = Some b0)
    by (simpl; apply lookup_insert_eq).
  destruct (mix_loop_inv _ _ _ _ _ Hp H1) as (r & Hl & ->).
  rewrite (AudioModule_set_buffer_run _ _ m) in H2 by exact Hm.
  injection H2 as <-. exists r. split.
  - rewrite Hl. simpl. apply length_replicate.
  - unfold with_mods, with_heap, with_data. simpl. by rewrite insert_insert_eq.
Qed.

(** ModuleMixDown::process completes, with the sum of the collected blocks in
    a new block, when every collected pointer refers to a block. *)
Lemma ModuleMixDown_process_run (s : Store) (this : addr) (m : AudioModule)
    (ins : list addr) (buffs : list (option bptr)) (ds : list (list sample)) :
  mods s !! this = Some m →
  derived m = MixDown ins buffs →
  Forall2 (λ p d, data_at s p = Some d) buffs ds →
  ModuleMixDown_process this s
  = (r ← sum_blocks (replicate (out_buffer (info m) * default_channels) 0%R) ds;
     Some (tt, mkStore
                 (<[this := with_buff m (Some (fresh (dom (heap s))))]> (mods s))
                 (<[fresh (dom (heap s))
                    := mkAudioBuffer (out_buffer (info m)) default_channels r]> (heap s))
                 (chains s))).
Proof.
  intros Hm Hd Hall.
  rewrite (ModuleMixDown_process_unfold _ _ _ _ _ Hm Hd).
  set (p := fresh (dom (heap s))).
  set (b0 := AudioBuffer_new _ _).
  set (s1 := with_heap s _).
  unfold mbind at 1, M_bind.
  rewrite (mix_loop_run p buffs ds s1 b0).
  - simpl. destruct (sum_blocks _ ds) as [r|]; [|reflexivity]. simpl.
    rewrite (AudioModule_set_buffer_run _ _ m) by exact Hm.
    unfold with_mods, with_heap, with_data. simpl. by rewrite insert_insert_eq.
  - subst s1. simpl. apply lookup_insert_eq.
  - eapply Forall2_impl; [exact Hall|].
    intros p' d' (q & b & -> & Hq & <-)%data_at_Some.
    assert (q ≠ p).
    { intros E. rewrite E in Hq. subst p.
      rewrite fresh_block_unused in Hq. discriminate. }
    split; [|congruence].
    apply data_at_Some. exists q, b. split; [done|]. split; [|done].
    subst s1. simpl. by rewrite lookup_insert_ne.
Qed.

(** * ModuleMixUp::get_buffer *)

Lemma std_copy_same_size (src dst : list sample) :
  length src = length dst → std_copy src dst = Some src.
Proof.
  intros Hl. unfold std_copy. rewrite decide_True by lia.
  by rewrite Hl, drop_all, app_nil_r.
Qed.

(** A completed ModuleMixUp::get_buffer has allocated one block and touched
    nothing else. *)
Lemma ModuleMixUp_get_buffer_inv (s s' : Store) (this : addr) (x : option bptr) :
  ModuleMixUp_get_buffer this s = Some (x, s') →
  x = Some (fresh (dom (heap s)))
  ∧ mods s' = mods s
  ∧ chains s' = chains s
  ∧ ∃ b, heap s' = <[fresh (dom (heap s)) := b]> (heap s).
Proof.
  unfold ModuleMixUp_get_buffer, create_buffer. intros H. inv_run.
  simpl. repeat split; try reflexivity.
  eexists. by rewrite insert_insert_eq.
Qed.

(** A Mix-up whose retained block has the size its info record declares
    hands out a new block with the same samples and keeps its own. *)
Lemma ModuleMixUp_get_buffer_run (s : Store) (this : addr) (m : AudioModule)
    (r : bptr) (b : AudioBuffer) :
  mods s !! this = Some m →
  buff m = Some r →
  heap s !! r = Some b →
  size b = out_buffer (info m) * default_channels →
  ModuleMixUp_get_buffer this s
  = Some (Some (fresh (dom (heap s))),
          with_heap s
            (<[fresh (dom (heap s))
               := mkAudioBuffer (out_buffer (info m)) default_channels (buf_data b)]>
               (heap s))).
Proof.
  intros Hm Hr Hb Hsz. unfold ModuleMixUp_get_buffer.
  rewrite (bind_run _ _ _ _ _ (create_buffer_run _ _ _ default_channels Hm)).
  set (p := fresh (dom (heap s))).
  assert (Hpr : p ≠ r).
  { intros E. rewrite <- E in Hb. subst p.
    rewrite fresh_block_unused in Hb. discriminate. }
  erewrite bind_run; [|apply get_module_run; simpl; exact Hm].
  erewrite bind_run;
    [|apply read_buffer_Some; split; [|reflexivity]; exists r; split; [done|];
      simpl; rewrite lookup_insert_ne by done; exact Hb].
  erewrite bind_run;
    [|apply read_buffer_Some; split; [|reflexivity]; eexists; split; [done|];
      simpl; apply lookup_insert_eq].
  erewrite bind_run;
    [|apply lift_option_Some; split; [|reflexivity];
      apply std_copy_same_size; simpl; rewrite length_replicate; exact Hsz].
  unfold mbind, M_bind, write_buffer, mret, M_ret, with_heap, with_data. simpl.
  by rewrite insert_insert_eq.
Qed.

(** C4.  A Mix-up holding a retained block of the size its info record
    declares answers two successive get_buffer() calls with two new blocks:
    each has the samples of the retained block, the retained block stays held
    and unchanged, the three blocks are distinct objects, and a write through
    any one of the three pointers leaves the other two blocks as they were. *)
Theorem mixup_get_buffer_copies
    (s : Store) (this : addr) (m : AudioModule) (r : bptr) (b : AudioBuffer) :
  mods s !! this = Some m →
  buff m = Some r →
  heap s !! r = Some b →
  size b = out_buffer (info m) * default_channels →
  ∃ p1 p2 s1 s2 b1 b2,
    ModuleMixUp_get_buffer this s = Some (Some p1, s1)
    ∧ ModuleMixUp_get_buffer this s1 = Some (Some p2, s2)
    ∧ heap s1 !! p1 = Some b1 ∧ heap s2 !! p1 = Some b1 ∧ heap s2 !! p2 = Some b2
    ∧ buf_data b1 = buf_data b ∧ buf_data b2 = buf_data b
    ∧ held s1 this = Some (Some r) ∧ held s2 this = Some (Some r)
    ∧ heap s1 !! r = Some b ∧ heap s2 !! r = Some b
    ∧ p1 ≠ r ∧ p2 ≠ r ∧ p1 ≠ p2
    ∧ (∀ (q : bptr) (b' : AudioBuffer) (s3 : Store),
         q ∈ [p1; p2; r] →
         write_buffer q b' s2 = Some (tt, s3) →
         ∀ q', q' ∈ [p1; p2; r] → q' ≠ q → heap s3 !! q' = heap s2 !! q').
Proof.
  intros Hm Hr Hb Hsz.
  set (p1 := fresh (dom (heap s))).
  set (b1 := mkAudioBuffer (out_buffer (info m)) default_channels (buf_data b)).
  set (s1 := with_heap s (<[p1 := b1]> (heap s))).
  assert (H1r : p1 ≠ r).
  { intros E. rewrite <- E in Hb. subst p1.
    rewrite fresh_block_unused in Hb. discriminate. }
  assert (Hb1 : heap s1 !! r = Some b)
    by (subst s1; simpl; by rewrite lookup_insert_ne).
  assert (Hp1 : heap s1 !! p1 = Some b1)
    by (subst s1; simpl; apply lookup_insert_eq).
  set (p2 := fresh (dom (heap s1))).
  set (s2 := with_heap s1 (<[p2 := b1]> (heap s1))).
  assert (H2r : p2 ≠ r).
  { intros E. rewrite <- E in Hb1. subst p2.
    rewrite fresh_block_unused in Hb1. discriminate. }
  assert (H12 : p1 ≠ p2).
  { intros E. rewrite E in Hp1. subst p2.
    rewrite fresh_block_unused in Hp1. discriminate. }
  exists p1, p2, s1, s2, b1, b1.
  split; [by apply (ModuleMixUp_get_buffer_run s this m r b)|].
  split; [by apply (ModuleMixUp_get_buffer_run s1 this m r b)|].
  split; [done|].
  split; [subst s2; simpl; by rewrite lookup_insert_ne|].
  split; [subst s2; simpl; apply lookup_insert_eq|].
  do 2 (split; [reflexivity|]).
  do 2 (split; [unfold held; simpl; rewrite Hm; simpl; by rewrite Hr|]).
  split; [done|].
  split; [subst s2; simpl; by rewrite lookup_insert_ne|].
  do 3 (split; [done|]).
  intros q b' s3 _ [= <-] q' _ Hne. simpl. by rewrite lookup_insert_ne.
Qed.

(** * Frame properties of the virtual calls *)

Lemma local_change_refl (m : AudioModule) : local_change m m.
Proof. exists (buff m), (derived m). split; [by destruct m | by left]. Qed.

Lemma local_change_buff (m : AudioModule) (p : option bptr) :
  local_change m (with_buff m p).
Proof. exists p, (derived m). split; [by destruct m | by left]. Qed.

Lemma local_change_keeps (m m' : AudioModule) :
  local_change m m' →
  info m' = info m ∧ backward m' = backward m ∧ forward m' = forward m
  ∧ chain m' = chain m
  ∧ (∀ ins buffs, derived m = MixDown ins buffs → derived m' = MixDown ins buffs).
Proof.
  intros (p & d' & -> & Hd). repeat split; try reflexivity.
  intros ins buffs E. simpl.
  destruct Hd as [->|(w & f & ph & ph' & sr & E' & _)]; congruence.
Qed.

Lemma fresh_insert_subseteq (s : Store) (b : AudioBuffer) :
  heap s ⊆ <[fresh (dom (heap s)) := b]> (heap s).
Proof. apply insert_subseteq, fresh_block_unused. Qed.

Lemma process_local (a : addr) (s s' : Store) :
  process a s = Some (tt, s') → local_step a s s'.
Proof.
  unfold process. intros H.
  apply bind_Some in H as (m & s0 & [Hm ->]%get_module_Some & H).
  assert (Hsame : local_step a s s).
  { split; [done|]. split; [|done]. exists m, m. eauto using local_change_refl. }
  destruct (derived m) as [|w f ph sr|ins buffs|out] eqn:Hd.
  - by injection H as <-.
  - assert (Ho : oscillator_process w a s = Some (tt, s'))
      by (destruct w; exact H).
    rewrite (oscillator_process_run _ _ _ _ _ _ _ Hm Hd) in Ho.
    injection Ho as <-. split; [|split; [|split]]; simpl.
    + intros x Hx. by rewrite lookup_insert_ne.
    + eexists m, _. split; [done|]. split; [apply lookup_insert_eq|].
      eexists _, _. split; [reflexivity|]. right. rewrite Hd. eauto 10.
    + apply fresh_insert_subseteq.
    + reflexivity.
  - destruct (ModuleMixDown_process_inv _ _ _ _ _ _ Hm Hd H) as (r & _ & ->).
    split; [|split; [|split]]; simpl.
    + intros x Hx. by rewrite lookup_insert_ne.
    + eexists m, _. split; [done|]. split; [apply lookup_insert_eq|].
      apply local_change_buff.
    + apply fresh_insert_subseteq.
    + reflexivity.
  - by injection H as <-.
Qed.

Lemma get_buffer_local (a : addr) (s s' : Store) (x : option bptr) :
  get_buffer a s = Some (x, s') → local_step a s s'.
Proof.
  unfold get_buffer. intros H.
  apply bind_Some in H as (m & s0 & [Hm ->]%get_module_Some & H).
  assert (Hbase : AudioModule_get_buffer a s = Some (x, s') → local_step a s s').
  { rewrite (AudioModule_get_buffer_run _ _ _ Hm). intros [= <- <-].
    split; [|split; [|split]]; simpl; try done.
    - intros y Hy. by rewrite lookup_insert_ne.
    - eexists m, _. split; [done|]. split; [apply lookup_insert_eq|].
      apply local_change_buff. }
  destruct (derived m) as [|w f ph sr|ins buffs|out] eqn:Hd; try by apply Hbase.
  apply ModuleMixUp_get_buffer_inv in H as (_ & Hmods & Hch & b & Hheap).
  split; [|split; [|split]].
  - intros y _. by rewrite Hmods.
  - exists m, m. rewrite Hmods. eauto using local_change_refl.
  - rewrite Hheap. apply fresh_insert_subseteq.
  - done.
Qed.

Lemma local_step_module (a : addr) (s s' : Store) (x : addr) (m : AudioModule) :
  local_step a s s' →
  mods s !! x = Some m →
  ∃ m', mods s' !! x = Some m'
        ∧ info m' = info m
        ∧ (∀ ins buffs, derived m = MixDown ins buffs → derived m' = MixDown ins buffs)
        ∧ (x ≠ a → m' = m).
Proof.
  intros (Hother & (ma & ma' & Ha & Ha' & Hc) & _ & _) Hx.
  destruct (decide (x = a)) as [->|Hne].
  - replace ma with m in * by congruence.
    apply local_change_keeps in Hc as (? & _ & _ & _ & ?).
    exists ma'. by repeat split.
  - exists m. rewrite Hother by done. by repeat split.
Qed.

Lemma push_buff_inv (this : addr) (b : option bptr) (s s' : Store) :
  push_buff this b s = Some (tt, s') →
  ∃ m ins buffs,
    mods s !! this = Some m
    ∧ derived m = MixDown ins buffs
    ∧ s' = with_mods s (<[this := with_derived m (MixDown ins (buffs ++ [b]))]> (mods s)).
Proof.
  unfold push_buff. intros H.
  apply bind_Some in H as (m & s0 & [Hm ->]%get_module_Some & H).
  destruct (derived m) as [| |ins buffs|] eqn:Hd; try discriminate.
  injection H as <-. by exists m, ins, buffs.
Qed.

(** What one turn of the loop of ModuleMixDown::meta_process does: only the
    input and the Mixdown change, the Mixdown by one more collected pointer. *)
Lemma collect_one_inv (this a : addr) (s s' : Store) (m : AudioModule)
    (ins0 : list addr) (buffs : list (option bptr)) :
  mods s !! this = Some m →
  derived m = MixDown ins0 buffs →
  collect_one this a s = Some (tt, s') →
  (∀ x, x ≠ this → x ≠ a → mods s' !! x = mods s !! x)
  ∧ heap s ⊆ heap s'
  ∧ chains s' = chains s
  ∧ ∃ m' b, mods s' !! this = Some m'
            ∧ info m' = info m
            ∧ derived m' = MixDown ins0 (buffs ++ [b]).
Proof.
  intros Hm Hd H. unfold collect_one in H.
  apply bind_Some in H as ([] & sa & Hp & H).
  apply bind_Some in H as (b & sb & Hg & H).
  apply process_local in Hp. apply get_buffer_local in Hg.
  destruct (local_step_module _ _ _ _ _ Hp Hm) as (m1 & Hm1 & Hi1 & Hk1 & _).
  destruct (local_step_module _ _ _ _ _ Hg Hm1) as (m2 & Hm2 & Hi2 & Hk2 & _).
  apply push_buff_inv in H as (m3 & ins3 & buffs3 & Hm3 & Hd3 & ->).
  replace m3 with m2 in * by congruence.
  assert (Hd2 : derived m2 = MixDown ins0 buffs) by eauto.
  rewrite Hd2 in Hd3. injection Hd3 as <- <-.
  destruct Hp as (Ho1 & _ & Hh1 & Hc1). destruct Hg as (Ho2 & _ & Hh2 & Hc2).
  simpl. split; [|split; [|split]].
  - intros x Hx Hxa. by rewrite lookup_insert_ne, Ho2, Ho1.
  - by transitivity (heap sa).
  - congruence.
  - eexists _, b. split; [apply lookup_insert_eq|]. simpl.
    split; [congruence|reflexivity].
Qed.

Lemma collect_inv (this : addr) (ins : list addr) :
  ∀ (s s' : Store) (m : AudioModule) (ins0 : list addr) (buffs : list (option bptr)),
  mods s !! this = Some m →
  derived m = MixDown ins0 buffs →
  collect this ins s = Some (tt, s') →
  (∀ x, x ≠ this → x ∉ ins → mods s' !! x = mods s !! x)
  ∧ heap s ⊆ heap s'
  ∧ chains s' = chains s
  ∧ ∃ m' new, mods s' !! this = Some m'
              ∧ info m' = info m
              ∧ derived m' = MixDown ins0 (buffs ++ new)
              ∧ length new = length ins.
Proof.
  induction ins as [|a ins IH]; intros s s' m ins0 buffs Hm Hd H.
  - injection H as <-. repeat split; try done.
    exists m, []. by rewrite app_nil_r.
  - unfold collect in H. cbn [for_each] in H.
    apply bind_Some in H as ([] & s1 & H1 & H2).
    destruct (collect_one_inv _ _ _ _ _ _ _ Hm Hd H1)
      as (Hf1 & Hh1 & Hc1 & m1 & b & Hm1 & Hi1 & Hd1).
    destruct (IH _ _ _ _ _ Hm1 Hd1 H2)
      as (Hf2 & Hh2 & Hc2 & m2 & new & Hm2 & Hi2 & Hd2 & Hl).
    split; [|split; [|split]].
    + intros x Hx Hin. rewrite not_elem_of_cons in Hin. destruct Hin.
      by rewrite Hf2, Hf1.
    + by transitivity (heap s1).
    + congruence.
    + exists m2, (b :: new). split; [done|]. split; [congruence|].
      split; [by rewrite Hd2, <- (assoc_L app)|simpl; by rewrite Hl].
Qed.

(** * The dimensions of a processed block *)

Lemma add_block_fits (f d : list sample) :
  length d ≤ length f → ∃ r, add_block f d = Some r ∧ length r = length f.
Proof.
  intros Hl. rewrite add_block_samples.
  destruct (add_samples_fits f d Hl) as [r Hr]. exists r. split; [done|].
  by apply add_samples_Some_length in Hr as [_ ?].
Qed.

Lemma sum_blocks_fits (f : list sample) (ds : list (list sample)) :
  Forall (λ d, length d ≤ length f) ds →
  ∃ r, sum_blocks f ds = Some r ∧ length r = length f.
Proof.
  unfold sum_blocks. revert f. induction ds as [|d ds IH]; intros f Hall.
  - by exists f.
  - inversion Hall as [|?? Hd Hds]; subst. simpl.
    destruct (add_block_fits f d Hd) as (r1 & -> & Hl1).
    destruct (IH r1) as (r & Hr & Hl).
    { eapply Forall_impl; [exact Hds|]. simpl. intros; lia. }
    exists r. split; [done|congruence].
Qed.

Lemma process_allocates (s : Store) (this : addr) (m : AudioModule) :
  mods s !! this = Some m →
  allocates_output s m →
  ∃ s', process this s = Some (tt, s')
        ∧ holds_new_block s s' this (out_buffer (info m)) default_channels
        ∧ chains s' = chains s.
Proof.
  intros Hm Hk. unfold process, allocates_output in *.
  rewrite (bind_run _ _ _ _ _ (get_module_run _ _ _ Hm)).
  destruct (derived m) as [|w f ph sr|ins buffs|out] eqn:Hd; try done.
  - (* an oscillator *)
    eexists. split.
    { destruct w; apply (oscillator_process_run _ _ _ _ _ _ _ Hm Hd). }
    split; [|reflexivity].
    eexists _, _. unfold held. simpl. rewrite !lookup_insert_eq. simpl.
    repeat split; try reflexivity.
    + apply fresh_block_unused.
    + unfold size. simpl. rewrite osc_fill_length. apply length_replicate.
  - (* a Mixdown *)
    assert (Hds : ∃ ds, Forall2 (λ p d, data_at s p = Some d) buffs ds
                        ∧ Forall (λ d, length d
                                       ≤ out_buffer (info m) * default_channels) ds).
    { clear Hd. induction buffs as [|p buffs IH]; [by exists []|].
      inversion Hk as [|?? (d & Hp & Hl) Hrest]; subst.
      destruct (IH Hrest) as (ds & H2 & Hf). exists (d :: ds).
      split; by constructor. }
    destruct Hds as (ds & H2 & Hf).
    rewrite (ModuleMixDown_process_run _ _ _ _ _ _ Hm Hd H2).
    destruct (sum_blocks_fits (replicate (out_buffer (info m) * default_channels) 0%R) ds)
      as (r & -> & Hl).
    { eapply Forall_impl; [exact Hf|]. simpl. intros d.
      by rewrite length_replicate. }
    eexists. split; [reflexivity|]. split; [|reflexivity].
    eexists _, _. unfold held. simpl. rewrite !lookup_insert_eq. simpl.
    repeat split; try reflexivity.
    + apply fresh_block_unused.
    + unfold size. simpl. by rewrite Hl, length_replicate.
Qed.

(** C1, as the code has it.  process() of an oscillator, and of a Mixdown
    whose collected blocks fit, completes and leaves the module holding a new
    block whose frame count is the [out_buffer] size of the module's own info
    record and whose channel count is the channel argument of create_buffer();
    the shared chain descriptor is neither read nor changed. *)
Theorem process_block_dimensions (s : Store) (this : addr) (m : AudioModule) :
  mods s !! this = Some m →
  allocates_output s m →
  ∃ s', process this s = Some (tt, s')
        ∧ holds_new_block s s' this (out_buffer (info m)) default_channels
        ∧ chains s' = chains s.
Proof. apply process_allocates. Qed.

(** * The Mixdown cycle *)

Lemma ModuleMixDown_meta_process_unfold (s : Store) (this : addr) (m : AudioModule)
    (ins : list addr) (buffs : list (option bptr)) :
  mods s !! this = Some m →
  derived m = MixDown ins buffs →
  ModuleMixDown_meta_process this s
  = (collect this ins;; ModuleMixDown_process this) s.
Proof.
  intros Hm Hd. unfold ModuleMixDown_meta_process.
  by rewrite (bind_run _ _ _ _ _ (get_module_run _ _ _ Hm)), Hd.
Qed.

Lemma Forall2_replicate_r {A B} (P : A → B → Prop) (l : list A) (y : B) :
  Forall (λ x, P x y) l → Forall2 P l (replicate (length l) y).
Proof. induction 1; simpl; by constructor. Qed.

(** ModuleMixDown::process over collected blocks that all equal [v]. *)
Lemma ModuleMixDown_process_constant (s : Store) (this : addr) (m : AudioModule)
    (ins : list addr) (buffs : list (option bptr)) (v : sample) :
  mods s !! this = Some m →
  derived m = MixDown ins buffs →
  Forall (λ p, data_at s p
               = Some (replicate (out_buffer (info m) * default_channels) v)) buffs →
  ∃ s', ModuleMixDown_process this s = Some (tt, s')
        ∧ holds_new_block s s' this (out_buffer (info m)) default_channels
        ∧ output s' this
          = Some (replicate (out_buffer (info m) * default_channels)
                    (INR (length buffs) * v)%R).
Proof.
  intros Hm Hd Hall.
  set (n := out_buffer (info m) * default_channels) in *.
  rewrite (ModuleMixDown_process_run _ _ _ _ _ _ Hm Hd
             (Forall2_replicate_r _ _ _ Hall)).
  rewrite sum_blocks_zip, sum_constant_blocks.
  2:{ apply Forall_replicate. by rewrite !length_replicate. }
  replace (0 + INR (length buffs) * v)%R with (INR (length buffs) * v)%R by lra.
  eexists. split; [reflexivity|].
  split.
  - eexists _, _. unfold held. simpl. rewrite !lookup_insert_eq. simpl.
    repeat split; try reflexivity.
    + apply fresh_block_unused.
    + unfold size. simpl. apply length_replicate.
  - unfold output, held, data_at. simpl. rewrite lookup_insert_eq. simpl.
    by rewrite lookup_insert_eq.
Qed.

Lemma with_collected_lookup (s : Store) (this : addr) (m : AudioModule)
    (ins : list addr) (buffs buffs' : list (option bptr)) :
  mods s !! this = Some m →
  derived m = MixDown ins buffs →
  mods (with_collected s this buffs') !! this
  = Some (with_derived m (MixDown ins buffs'))
  ∧ heap (with_collected s this buffs') = heap s.
Proof.
  intros Hm Hd. unfold with_collected. rewrite Hm, Hd. simpl.
  by rewrite lookup_insert_eq.
Qed.

Lemma collected_lookup (s : Store) (this : addr) (m : AudioModule)
    (ins : list addr) (buffs : list (option bptr)) :
  mods s !! this = Some m →
  derived m = MixDown ins buffs →
  collected s this = buffs.
Proof. intros Hm Hd. unfold collected. by rewrite Hm, Hd. Qed.

(** The first cycle of a Mixdown, the one that starts with nothing collected:
    when its N inputs each hand over a block of the declared size with every
    sample equal to [v], meta_process() completes and the Mixdown then holds a
    new block of the declared dimensions with every sample equal to N x v;
    summing the collected blocks in any other order gives the same samples.
    A later cycle starts with the blocks of the cycles before it still
    collected. *)
Lemma mixdown_sums_constant_inputs
    (s s1 : Store) (this : addr) (m : AudioModule) (ins : list addr) (v : sample) :
  mods s !! this = Some m →
  derived m = MixDown ins [] →
  collect this ins s = Some (tt, s1) →
  Forall (λ p, data_at s1 p
               = Some (replicate (out_buffer (info m) * default_channels) v))
         (collected s1 this) →
  ∃ s2,
    ModuleMixDown_meta_process this s = Some (tt, s2)
    ∧ holds_new_block s1 s2 this (out_buffer (info m)) default_channels
    ∧ output s2 this
      = Some (replicate (out_buffer (info m) * default_channels)
                (INR (length ins) * v)%R)
    ∧ ∀ buffs', buffs' ≡ₚ collected s1 this →
        ∃ s2', ModuleMixDown_process this (with_collected s1 this buffs')
               = Some (tt, s2')
               ∧ output s2' this = output s2 this.
Proof.
  intros Hm Hd Hc Hall.
  destruct (collect_inv _ _ _ _ _ _ _ Hm Hd Hc)
    as (_ & _ & _ & m1 & new & Hm1 & Hi1 & Hd1 & Hlen).
  simpl in Hd1.
  rewrite (collected_lookup _ _ _ _ _ Hm1 Hd1) in *.
  rewrite (ModuleMixDown_meta_process_unfold _ _ _ _ _ Hm Hd).
  rewrite (bind_run _ _ _ _ _ Hc).
  rewrite <- Hi1 in *.
  destruct (ModuleMixDown_process_constant _ _ _ _ _ v Hm1 Hd1 Hall)
    as (s2 & Hrun & Hnew & Hout).
  exists s2. rewrite <- Hlen.
  do 3 (split; [done|]).
  intros buffs' Hperm.
  destruct (with_collected_lookup _ _ _ _ _ buffs' Hm1 Hd1) as [Hm1' Hheap].
  destruct (ModuleMixDown_process_constant
              (with_collected s1 this buffs') this _ ins buffs' v Hm1' eq_refl)
    as (s2' & Hrun' & _ & Hout').
  { simpl. rewrite Hperm. unfold data_at in *. by rewrite Hheap. }
  exists s2'. split; [done|].
  simpl in Hout'. by rewrite Hout', Hout, Hperm.
Qed.

(** In general, for collected blocks of the declared size and any contents,
    the order in which ModuleMixDown::process sums them is irrelevant. *)
Lemma mixdown_order_irrelevant (s : Store) (this : addr) (m : AudioModule)
    (ins : list addr) (buffs buffs' : list (option bptr)) :
  mods s !! this = Some m →
  derived m = MixDown ins buffs →
  Forall (λ p, ∃ d, data_at s p = Some d
                    ∧ length d = out_buffer (info m) * default_channels) buffs →
  buffs' ≡ₚ buffs →
  ∃ s1 s1' r,
    ModuleMixDown_process this s = Some (tt, s1)
    ∧ ModuleMixDown_process this (with_collected s this buffs') = Some (tt, s1')
    ∧ output s1 this = Some r
    ∧ output s1' this = Some r.
Proof.
  intros Hm Hd Hall Hperm.
  set (n := out_buffer (info m) * default_channels) in *.
  set (g := λ p : option bptr, default [] (data_at s p)).
  assert (Hres : ∀ l, Forall (λ p, ∃ d, data_at s p = Some d ∧ length d = n) l →
                 Forall2 (λ p d, data_at s p = Some d) l (g <$> l)
                 ∧ Forall (λ d, length d = length (replicate n 0%R)) (g <$> l)).
  { induction 1 as [|p l (d & Hp & Hl) _ [IH1 IH2]]; simpl; [by split|].
    assert (g p = d) as -> by (unfold g; by rewrite Hp).
    split; constructor; try done. by rewrite length_replicate. }
  destruct (Hres _ Hall) as [H2 Hlen].
  assert (Hall' : Forall (λ p, ∃ d, data_at s p = Some d ∧ length d = n) buffs')
    by (by rewrite Hperm).
  destruct (Hres _ Hall') as [H2' Hlen'].
  destruct (with_collected_lookup _ _ _ _ _ buffs' Hm Hd) as [Hm' Hheap].
  assert (H2'' : Forall2 (λ p d, data_at (with_collected s this buffs') p = Some d)
                   buffs' (g <$> buffs')).
  { eapply Forall2_impl; [exact H2'|]. intros p d Hp.
    unfold data_at in *. by rewrite Hheap. }
  rewrite (ModuleMixDown_process_run _ _ _ _ _ _ Hm Hd H2).
  rewrite (ModuleMixDown_process_run _ _ _ _ _ _ Hm' eq_refl H2'').
  fold n. simpl. fold n.
  rewrite !sum_blocks_zip by done.
  rewrite (sum_order_irrelevant (g <$> buffs') (g <$> buffs))
    by (by apply fmap_Permutation).
  eexists _, _, _. split; [reflexivity|]. split; [reflexivity|].
  unfold output, held, data_at. simpl. rewrite !lookup_insert_eq. simpl.
  by rewrite !lookup_insert_eq.
Qed.

(** * What a Mixdown cycle leaves alone, and what it keeps *)

Lemma ModuleMixDown_meta_process_inv (s s' : Store) (this : addr) (m : AudioModule)
    (ins : list addr) (buffs : list (option bptr)) :
  mods s !! this = Some m →
  derived m = MixDown ins buffs →
  ModuleMixDown_meta_process this s = Some (tt, s') →
  (∀ x, x ≠ this → x ∉ ins → mods s' !! x = mods s !! x)
  ∧ heap s ⊆ heap s'
  ∧ chains s' = chains s
  ∧ ∃ new, collected s' this = buffs ++ new ∧ length new = length ins.
Proof.
  intros Hm Hd H.
  rewrite (ModuleMixDown_meta_process_unfold _ _ _ _ _ Hm Hd) in H.
  apply bind_Some in H as ([] & s1 & Hc & Hp).
  destruct (collect_inv _ _ _ _ _ _ _ Hm Hd Hc)
    as (Hf & Hh & Hch & m1 & new & Hm1 & Hi1 & Hd1 & Hlen).
  destruct (ModuleMixDown_process_inv _ _ _ _ _ _ Hm1 Hd1 Hp) as (r & _ & ->).
  simpl. split; [|split; [|split]].
  - intros x Hx Hin. rewrite lookup_insert_ne by done. by apply Hf.
  - etransitivity; [exact Hh|]. apply fresh_insert_subseteq.
  - done.
  - exists new. split; [|done].
    unfold collected. simpl. rewrite lookup_insert_eq. simpl. by rewrite Hd1.
Qed.

(** C6.  A completed ModuleMixDown::meta_process has run process() and
    get_buffer() of each registered input and nothing of the modules behind
    them: every module [p] of the chain behind an input (that is not itself
    registered as an input, nor the Mixdown) is exactly as before the cycle,
    and so is the block it holds; the descriptors are untouched. *)
Theorem mixdown_cycle_leaves_predecessors
    (s s' : Store) (this : addr) (m : AudioModule)
    (ins : list addr) (buffs : list (option bptr)) :
  mods s !! this = Some m →
  derived m = MixDown ins buffs →
  ModuleMixDown_meta_process this s = Some (tt, s') →
  ∀ i p, i ∈ ins → behind s i p → p ∉ ins → p ≠ this →
    mods s' !! p = mods s !! p
    ∧ (∀ mp q b, mods s !! p = Some mp → buff mp = Some q →
                 heap s !! q = Some b → heap s' !! q = Some b)
    ∧ chains s' = chains s.
Proof.
  intros Hm Hd H i p _ _ Hin Hne.
  destruct (ModuleMixDown_meta_process_inv _ _ _ _ _ _ Hm Hd H)
    as (Hf & Hh & Hch & _).
  split; [by apply Hf|]. split; [|done].
  intros mp q b _ _ Hq. by eapply lookup_weaken.
Qed.

(** The collected pointers survive the cycle: ModuleMixDown::process reads
    [buffs] and never empties it, so each cycle adds one pointer per input to
    those of all cycles before. *)
Lemma mixdown_cycle_keeps_collected
    (s s' : Store) (this : addr) (m : AudioModule)
    (ins : list addr) (buffs : list (option bptr)) :
  mods s !! this = Some m →
  derived m = MixDown ins buffs →
  ModuleMixDown_meta_process this s = Some (tt, s') →
  ∃ new, collected s' this = buffs ++ new ∧ length new = length ins.
Proof.
  intros Hm Hd H.
  by destruct (ModuleMixDown_meta_process_inv _ _ _ _ _ _ Hm Hd H) as (_ & _ & _ & ?).
Qed.

(** By contrast, the backward recursion of AudioModule::meta_process does
    advance the module behind: when a plain module stands in front of an
    oscillator, one meta_process() of the plain module runs the oscillator,
    whose phase moves on by one per sample, and leaves the plain module
    holding the block the oscillator made. *)
Lemma meta_process_advances_predecessor
    (s : Store) (a p : addr) (ma mp : AudioModule) (w : Wave) (f : R) (ph : Z) (sr : R) :
  mods s !! a = Some ma →
  derived ma = Plain →
  backward ma = Some p →
  a ≠ p →
  mods s !! p = Some mp →
  derived mp = Oscillator w f ph sr →
  ∃ s' mp',
    meta_process 2 a s = Some (tt, s')
    ∧ mods s' !! p = Some mp'
    ∧ derived mp'
      = Oscillator w f
          (ph + Z.of_nat (out_buffer (info mp) * default_channels)) sr
    ∧ held s' a = Some (Some (fresh (dom (heap s)))).
Proof.
  intros Ha Hda Hba Hne Hp Hdp.
  assert (Hrun := oscillator_process_run w s p mp f ph sr Hp Hdp).
  simpl in Hrun.
  set (s1 := mkStore _ _ _) in Hrun.
  set (mp1 := with_derived (with_buff mp (Some (fresh (dom (heap s))))) _) in *.
  assert (Hp1 : mods s1 !! p = Some mp1) by (subst s1; simpl; apply lookup_insert_eq).
  set (s2 := with_mods s1 (<[p := with_buff mp1 None]> (mods s1))).
  assert (Ha2 : mods s2 !! a = Some ma).
  { subst s2 s1. simpl. by rewrite !lookup_insert_ne. }
  set (s3 := with_mods s2 (<[a := with_buff ma (buff mp1)]> (mods s2))).
  assert (Ha3 : mods s3 !! a = Some (with_buff ma (buff mp1)))
    by (subst s3; simpl; apply lookup_insert_eq).
  exists s3, (with_buff mp1 None). split.
  - cbn [meta_process].
    rewrite (bind_run _ _ _ _ _ (get_module_run _ _ _ Ha)), Hda.
    erewrite bind_run; [|apply lift_option_Some; split; [exact Hba|reflexivity]].
    erewrite bind_run.
    2:{ rewrite (bind_run _ _ _ _ _ (get_module_run _ _ _ Hp)), Hdp.
        unfold process. rewrite (bind_run _ _ _ _ _ (get_module_run _ _ _ Hp)), Hdp.
        destruct w; exact Hrun. }
    erewrite bind_run.
    2:{ unfold get_buffer. rewrite (bind_run _ _ _ _ _ (get_module_run _ _ _ Hp1)).
        simpl. apply (AudioModule_get_buffer_run _ _ _ Hp1). }
    fold s2.
    erewrite bind_run; [|apply (AudioModule_set_buffer_run _ _ _ _ Ha2)].
    fold s3.
    unfold process. rewrite (bind_run _ _ _ _ _ (get_module_run _ _ _ Ha3)).
    simpl. by rewrite Hda.
  - subst s3 s2 s1. simpl.
    rewrite lookup_insert_ne by done. rewrite lookup_insert_eq.
    split; [reflexivity|]. simpl.
    split.
    + rewrite osc_fill_phase, length_seq. unfold size. simpl.
      by rewrite length_replicate.
    + unfold held. simpl. by rewrite lookup_insert_eq.
Qed.

(** * What an oscillator writes *)

Lemma interleaved_pos_frame_major (b : AudioBuffer) (c t : nat) :
  c < buf_channels b →
  interleaved_pos b (t * buf_channels b + c) = c * buf_frames b + t.
Proof.
  intros Hc. unfold interleaved_pos.
  replace (t * buf_channels b + c) with (c + t * buf_channels b) by lia.
  rewrite Nat.Div0.mod_add, Nat.mod_small by lia.
  rewrite Nat.div_add by lia. rewrite Nat.div_small by lia. lia.
Qed.

Lemma interleaved_index_split (C j : nat) :
  0 < C → j = (j / C) * C + j mod C ∧ j mod C < C.
Proof.
  intros HC. split; [|apply Nat.mod_upper_bound; lia].
  rewrite (Nat.div_mod_eq j C) at 1. lia.
Qed.

Lemma osc_fill_app (w : Wave) (f sr : R) (b : AudioBuffer) (js1 js2 : list nat) :
  ∀ (ph : Z) (d : list sample),
  osc_fill w f sr b (js1 ++ js2) ph d
  = osc_fill w f sr b js2 (osc_fill w f sr b js1 ph d).2
      (osc_fill w f sr b js1 ph d).1.
Proof.
  induction js1 as [|j js1 IH]; intros ph d; [reflexivity|].
  simpl. apply IH.
Qed.

Lemma oscillator_value_Some (w : Wave) (f : R) (ph : Z) (sr : R) :
  sr ≠ 0%R → is_Some (oscillator_value to_double w f ph sr).
Proof.
  intros Hsr. unfold oscillator_value.
  destruct (Req_dec_T sr 0) as [|_]; [done|]. eauto.
Qed.

(** After the interleaved indices below [n] have been visited, the sample of
    channel [c] and frame [t] holds the value of the phase at which its index
    [t * C + c] was visited; the other positions are as before. *)
Lemma osc_fill_lookup (w : Wave) (f sr : R) (b : AudioBuffer) (ph : Z) (d : list sample) :
  sr ≠ 0%R →
  0 < buf_channels b →
  length d = buf_frames b * buf_channels b →
  ∀ n, n ≤ buf_frames b * buf_channels b →
  ∀ c t, c < buf_channels b → t < buf_frames b →
    (osc_fill w f sr b (seq 0 n) ph d).1 !! (c * buf_frames b + t)
    = if decide (t * buf_channels b + c < n)
      then oscillator_value to_double w f (ph + Z.of_nat (t * buf_channels b + c)) sr
      else d !! (c * buf_frames b + t).
Proof.
  intros Hsr HC Hlen. induction n as [|n IH]; intros Hn c t Hc Ht.
  - reflexivity.
  - rewrite seq_S, osc_fill_app. cbn [osc_fill fst].
    rewrite osc_fill_phase, length_seq.
    destruct (oscillator_value_Some w f (ph + Z.of_nat n) sr Hsr) as [v Hv].
    replace (ph + Z.of_nat n + 0)%Z with (ph + Z.of_nat n)%Z by lia.
    rewrite Hv. change (0 + n) with n.
    destruct (interleaved_index_split (buf_channels b) n HC) as [Hsplit Hmod].
    set (cn := n mod buf_channels b) in *. set (tn := n / buf_channels b) in *.
    assert (Htn : tn < buf_frames b) by nia.
    rewrite Hsplit at 1. rewrite (interleaved_pos_frame_major b cn tn Hmod).
    destruct (decide (c = cn ∧ t = tn)) as [[-> ->]|Hne].
    + rewrite list_lookup_insert_eq.
      * rewrite decide_True by lia. rewrite <- Hv. do 2 f_equal. lia.
      * rewrite osc_fill_length, Hlen. nia.
    + rewrite list_lookup_insert_ne.
      2:{ intros Heq. apply Hne.
          assert (c = cn) by nia. subst c. split; [done|]. nia. }
      rewrite IH by (done || lia).
      destruct (decide (t * buf_channels b + c < n)).
      * by rewrite decide_True by lia.
      * rewrite decide_False; [done|]. intros Hlt. apply Hne.
        assert (t = tn) by nia. subst t. split; [nia|done].
Qed.

(** process() of an oscillator completes and leaves a new block; the phase
    has then advanced by one per sample.  At a sample rate other than 0 the
    sample of channel [c] and frame [t] is the value at the phase the
    oscillator had on entry plus the interleaved index [t * C + c] of the
    sample. *)
Lemma oscillator_run_samples
    (s : Store) (this : addr) (m : AudioModule) (w : Wave) (f : R) (ph : Z) (sr : R) :
  mods s !! this = Some m →
  derived m = Oscillator w f ph sr →
  0 < default_channels →
  ∃ s' q b,
    process this s = Some (tt, s')
    ∧ mods s' !! this
      = Some (with_derived (with_buff m (Some q))
                (Oscillator w f
                   (ph + Z.of_nat (out_buffer (info m) * default_channels)) sr))
    ∧ heap s' !! q = Some b
    ∧ heap s !! q = None
    ∧ (sr ≠ 0%R →
       ∀ c t, c < default_channels → t < out_buffer (info m) →
         buf_data b !! (c * out_buffer (info m) + t)
         = oscillator_value to_double w f (ph + Z.of_nat (t * default_channels + c)) sr).
Proof.
  intros Hm Hd HC.
  assert (Hrun : process this s = oscillator_process w this s).
  { unfold process. rewrite (bind_run _ _ _ _ _ (get_module_run _ _ _ Hm)), Hd.
    by destruct w. }
  rewrite Hrun, (oscillator_process_run _ _ _ _ _ _ _ Hm Hd).
  eexists _, _, _. split; [reflexivity|]. simpl.
  rewrite !lookup_insert_eq.
  split.
  { do 3 f_equal. rewrite osc_fill_phase, length_seq. unfold size. simpl.
    by rewrite length_replicate. }
  split; [reflexivity|]. split; [apply fresh_block_unused|].
  intros Hsr c t Hc Ht. simpl.
  set (b0 := AudioBuffer_new (out_buffer (info m)) default_channels).
  rewrite (osc_fill_lookup w f sr b0 ph (buf_data b0) Hsr HC);
    try (subst b0; simpl; rewrite ?length_replicate; unfold size; simpl;
         rewrite ?length_replicate; (done || lia)).
  subst b0. simpl. unfold size. simpl. rewrite length_replicate.
  rewrite decide_True; [done|]. nia.
Qed.


(** The sample values: a sine lies between -1 and 1, a square wave is 1 or
    -1, and so do a sawtooth and a triangle when the converted phase ratio is
    not negative. *)
Lemma modf_nonneg (x : R) : (0 <= x)%R → (0 <= modf x < 1)%R.
Proof.
  intros Hx. unfold modf. destruct (Rle_dec 0 x) as [_|Hn]; [|done].
  destruct (base_fp x). lra.
Qed.

Lemma phase_ratio_nonneg (f : R) (ph : Z) (sr : R) :
  (0 <= f)%R → (0 < sr)%R → (0 ≤ ph)%Z → (0 <= f * IZR ph / sr)%R.
Proof.
  intros Hf Hsr Hph. apply IZR_le in Hph.
  apply Rmult_le_pos; [by apply Rmult_le_pos|].
  left. by apply Rinv_0_lt_compat.
Qed.

Lemma oscillator_value_bounded (w : Wave) (f : R) (ph : Z) (sr : R) (v : sample) :
  w = Sine ∨ w = Square
  ∨ ((0 <= f)%R ∧ (0 < sr)%R ∧ (0 ≤ ph)%Z ∧ ∀ x, (0 <= x)%R → (0 <= to_double x)%R) →
  oscillator_value to_double w f ph sr = Some v →
  (-1 <= v <= 1)%R.
Proof.
  intros Hw. unfold oscillator_value.
  destruct (Req_dec_T sr 0) as [|_]; [done|]. intros [= <-].
  destruct w.
  - apply SIN_bound.
  - destruct (Rlt_dec _ _); lra.
  - destruct Hw as [|[|(Hf & Hsr & Hph & Hpos)]]; [done..|].
    pose proof (phase_ratio_nonneg f ph sr Hf Hsr Hph) as Hx.
    destruct (modf_nonneg (to_double (f * IZR ph / sr + 1 / 2))); [apply Hpos|]; lra.
  - destruct Hw as [|[|(Hf & Hsr & Hph & Hpos)]]; [done..|].
    pose proof (phase_ratio_nonneg f ph sr Hf Hsr Hph) as Hx.
    destruct (modf_nonneg (to_double (f * IZR ph / sr))); [by apply Hpos|].
    cbv zeta. destruct (Rlt_dec _ _); [lra|]. destruct (Rgt_dec _ _); lra.
Qed.

(** X3.  Every sample of the block that an oscillator with a sample rate
    other than 0 puts out lies between -1 and 1 (the phase counter staying
    within the range of a 32-bit integer): for the sine and the square wave
    always, and for the sawtooth and the triangle when frequency and phase
    are not negative, the sample rate is positive and the conversion to
    double gives no negative value for a number that is not negative. *)
Theorem oscillator_block_bounded
    (s : Store) (this : addr) (m : AudioModule) (w : Wave) (f : R) (ph : Z) (sr : R) :
  mods s !! this = Some m →
  derived m = Oscillator w f ph sr →
  0 < default_channels →
  sr ≠ 0%R →
  (- 2 ^ 31 ≤ ph)%Z →
  (ph + Z.of_nat (out_buffer (info m) * default_channels) ≤ 2 ^ 31 - 1)%Z →
  w = Sine ∨ w = Square
  ∨ ((0 <= f)%R ∧ (0 < sr)%R ∧ (0 ≤ ph)%Z ∧ ∀ x, (0 <= x)%R → (0 <= to_double x)%R) →
  ∃ s' q b,
    process this s = Some (tt, s')
    ∧ held s' this = Some (Some q)
    ∧ heap s' !! q = Some b
    ∧ size b = out_buffer (info m) * default_channels
    ∧ Forall (λ x, (-1 <= x <= 1)%R) (buf_data b).
Proof.
  intros Hm Hd HC Hsr _ _ Hw.
  destruct (oscillator_run_samples s this m w f ph sr Hm Hd HC)
    as (s' & q & b & Hrun & Hm' & Hb & _ & Hsamples).
  destruct (process_allocates s this m Hm) as (s2 & Hrun2 & Hnew & _).
  { unfold allocates_output. by rewrite Hd. }
  replace s2 with s' in * by congruence.
  destruct Hnew as (q' & b' & Hheld & Hb' & _ & _ & _ & Hsize).
  assert (q' = q) as ->.
  { unfold held in Hheld. rewrite Hm' in Hheld. simpl in Hheld. congruence. }
  replace b' with b in * by congruence.
  exists s', q, b. do 4 (split; [done|]).
  apply Forall_lookup. intros p x Hp.
  assert (Hlt : p < out_buffer (info m) * default_channels).
  { rewrite <- Hsize. unfold size. by eapply lookup_lt_Some. }
  set (F := out_buffer (info m)) in *.
  assert (HF : 0 < F) by nia.
  assert (Hsplit : p = (p / F) * F + p mod F)
    by (rewrite (Nat.div_mod_eq p F) at 1; lia).
  assert (Hc : p / F < default_channels)
    by (apply Nat.Div0.div_lt_upper_bound; lia).
  assert (Ht : p mod F < F) by (apply Nat.mod_upper_bound; lia).
  specialize (Hsamples Hsr _ _ Hc Ht). rewrite <- Hsplit, Hp in Hsamples.
  symmetry in Hsamples. revert Hsamples. apply oscillator_value_bounded.
  destruct Hw as [?|[?|(? & ? & ? & ?)]]; [by left|by right; left|].
  right; right. repeat split; (done || lia).
Qed.

Lemma for_each_cons {A} (x : A) (xs : list A) (body : A → M unit) (s : Store) :
  for_each (x :: xs) body s = (body x;; for_each xs body) s.
Proof. reflexivity. Qed.

(** * ModuleMixDown: the sum sample by sample, and when it fails *)

Lemma add_samples_lookup (b : list sample) :
  ∀ (f r : list sample) (i : nat) (x : sample),
  add_samples f b = Some r →
  f !! i = Some x →
  r !! i = Some (x + default 0%R (b !! i))%R.
Proof.
  induction b as [|y b IH]; intros f r i x H Hx.
  - injection H as <-. rewrite Hx. simpl. f_equal. lra.
  - destruct f as [|x0 f]; [discriminate|]. simpl in H.
    destruct (add_samples f b) as [r'|] eqn:E; [|discriminate].
    injection H as <-. destruct i as [|i]; simpl in *.
    + by injection Hx as ->.
    + by apply (IH f).
Qed.

Lemma sum_blocks_cons (f d : list sample) (ds : list (list sample)) :
  sum_blocks f (d :: ds) = add_block f d ≫= λ r, sum_blocks r ds.
Proof.
  unfold sum_blocks. simpl.
  destruct (add_block f d) as [r|]; [reflexivity|]. apply sum_blocks_None.
Qed.

(** The completed summation, position by position. *)
Lemma sum_blocks_lookup (ds : list (list sample)) :
  ∀ f : list sample,
  Forall (λ d, length d ≤ length f) ds →
  ∃ r, sum_blocks f ds = Some r
       ∧ length r = length f
       ∧ ∀ i x, f !! i = Some x →
           r !! i = Some (foldl (λ acc d, (acc + default 0%R (d !! i))%R) x ds).
Proof.
  induction ds as [|d ds IH]; intros f Hall.
  - exists f. repeat split. by intros i x ->.
  - inversion Hall as [|? ? Hd Hrest]; subst.
    destruct (add_samples_fits f d Hd) as [r1 Hr1].
    destruct (add_samples_Some_length _ _ _ Hr1) as [_ Hl1].
    destruct (IH r1) as (r & Hr & Hl & Hlook).
    { eapply Forall_impl; [exact Hrest|]. simpl. intros; lia. }
    exists r. rewrite sum_blocks_cons, add_block_samples, Hr1. simpl.
    split; [done|]. split; [lia|].
    intros i x Hx. apply Hlook. by apply (add_samples_lookup d f).
Qed.

(** ModuleMixDown::process adds sample by sample: when every collected
    pointer refers to a block that is not larger than the block the Mixdown
    makes, process() completes and leaves the Mixdown with a new block, of
    the declared dimensions, whose sample at each position is the sum of the
    collected blocks' samples at that position (a shorter block adds to the
    leading positions only). *)
Lemma ModuleMixDown_process_samples
    (s : Store) (this : addr) (m : AudioModule)
    (ins : list addr) (buffs : list (option bptr)) (ds : list (list sample)) :
  mods s !! this = Some m →
  derived m = MixDown ins buffs →
  Forall2 (λ p d, data_at s p = Some d) buffs ds →
  Forall (λ d, length d ≤ out_buffer (info m) * default_channels) ds →
  ∃ s' r,
    ModuleMixDown_process this s = Some (tt, s')
    ∧ holds_new_block s s' this (out_buffer (info m)) default_channels
    ∧ output s' this = Some r
    ∧ length r = out_buffer (info m) * default_channels
    ∧ ∀ i, i < out_buffer (info m) * default_channels →
        r !! i = Some (sample_sum ds i).
Proof.
  intros Hm Hd Hall Hfit.
  set (n := out_buffer (info m) * default_channels) in *.
  destruct (sum_blocks_lookup ds (replicate n 0%R)) as (r & Hr & Hl & Hlook).
  { eapply Forall_impl; [exact Hfit|]. simpl. intros d Hd'.
    by rewrite length_replicate. }
  rewrite length_replicate in Hl.
  pose proof (ModuleMixDown_process_run s this m ins buffs ds Hm Hd Hall) as Hrun.
  fold n in Hrun. rewrite Hr in Hrun. simpl in Hrun.
  eexists _, r. split; [exact Hrun|].
  split.
  { eexists _, _. unfold held. simpl. rewrite lookup_insert_eq. simpl.
    split; [reflexivity|]. rewrite lookup_insert_eq.
    split; [reflexivity|]. split; [apply fresh_block_unused|].
    do 2 (split; [reflexivity|]). exact Hl. }
  split.
  { unfold output, held, data_at. simpl. rewrite lookup_insert_eq. simpl.
    by rewrite lookup_insert_eq. }
  split; [exact Hl|].
  intros i Hi. apply Hlook. by apply lookup_replicate_2.
Qed.

(** X4.  ModuleMixDown::process adds sample by sample: when every collected
    pointer refers to a block that is not larger than the block the Mixdown
    makes, process() completes and leaves the Mixdown with a new block, of
    the declared dimensions, whose sample at each position is the sum of the
    collected blocks' samples at that position (a shorter block adds to the
    leading positions only).  The collected pointers stay with the Mixdown;
    no other module and no block that existed is changed. *)
Theorem mixdown_process_sums_samples
    (s : Store) (this : addr) (m : AudioModule)
    (ins : list addr) (buffs : list (option bptr)) (ds : list (list sample)) :
  mods s !! this = Some m →
  derived m = MixDown ins buffs →
  Forall2 (λ p d, data_at s p = Some d) buffs ds →
  Forall (λ d, length d ≤ out_buffer (info m) * default_channels) ds →
  ∃ s' r,
    ModuleMixDown_process this s = Some (tt, s')
    ∧ holds_new_block s s' this (out_buffer (info m)) default_channels
    ∧ output s' this = Some r
    ∧ length r = out_buffer (info m) * default_channels
    ∧ (∀ i, i < out_buffer (info m) * default_channels →
         r !! i = Some (sample_sum ds i))
    ∧ collected s' this = buffs
    ∧ (∀ x, x ≠ this → mods s' !! x = mods s !! x)
    ∧ heap s ⊆ heap s'.
Proof.
  intros Hm Hd Hall Hfit.
  destruct (ModuleMixDown_process_samples s this m ins buffs ds Hm Hd Hall Hfit)
    as (s' & r & Hrun & Hblock & Hout & Hlen & Hsum).
  exists s', r. do 5 (split; [assumption|]).
  destruct (ModuleMixDown_process_inv _ _ _ _ _ _ Hm Hd Hrun) as (r' & _ & ->).
  split; [|split].
  - unfold collected. simpl. rewrite lookup_insert_eq. simpl. by rewrite Hd.
  - intros x Hx. simpl. by rewrite lookup_insert_ne.
  - simpl. apply fresh_insert_subseteq.
Qed.

(** A collected pointer that the loop of process() cannot get past: the null
    pointer, or a block with more samples than [n]. *)
Lemma mix_into_stops (fbuff : bptr) (p : option bptr) (s : Store) (fb : AudioBuffer) :
  heap s !! fbuff = Some fb →
  p = None ∨ (∃ d, data_at s p = Some d ∧ length (buf_data fb) < length d) →
  mix_into fbuff p s = None.
Proof.
  intros Hf [->|(d & Hd & Hlen)]; [reflexivity|].
  rewrite (mix_into_run _ _ _ _ _ Hf Hd), add_block_samples.
  destruct (add_samples (buf_data fb) d) as [r|] eqn:E; [|reflexivity].
  apply add_samples_Some_length in E as [? _]. lia.
Qed.

Lemma mix_loop_stops (fbuff : bptr) (n : nat) (buffs : list (option bptr)) :
  ∀ (s : Store) (fb : AudioBuffer),
  heap s !! fbuff = Some fb →
  length (buf_data fb) = n →
  Exists (λ p, p = None
               ∨ ∃ q b, p = Some q ∧ q ≠ fbuff ∧ heap s !! q = Some b
                        ∧ n < length (buf_data b)) buffs →
  for_each buffs (mix_into fbuff) s = None.
Proof.
  induction buffs as [|p buffs IH]; intros s fb Hf Hn Hex.
  - by apply Exists_nil in Hex.
  - cbn [for_each]. unfold mbind, M_bind.
    destruct (mix_into fbuff p s) as [[[] s1]|] eqn:E; [|reflexivity].
    apply Exists_cons in Hex as [Hbad|Hex].
    { rewrite (mix_into_stops _ _ _ _ Hf) in E; [discriminate|].
      destruct Hbad as [->|(q & b & -> & _ & Hq & Hlen)]; [by left|].
      right. exists (buf_data b). split; [|lia].
      apply data_at_Some. eauto. }
    apply mix_into_inv in E as (fb1 & r1 & Hf1 & Hl1 & ->).
    replace fb1 with fb in * by congruence.
    apply (IH _ (with_data fb r1)).
    + simpl. apply lookup_insert_eq.
    + simpl. lia.
    + eapply Exists_impl; [exact Hex|]. simpl.
      intros p' [->|(q & b & -> & Hne & Hq & Hlen)]; [by left|].
      right. exists q, b. rewrite lookup_insert_ne by done. done.
Qed.

(** X5.  ModuleMixDown::process does not complete when one of the collected
    pointers is null (the loop dereferences it) or refers to a block with
    more samples than the block the Mixdown makes (the indexed access
    [fbuff->at(i)] leaves that block). *)
Theorem mixdown_process_fails_on_null_or_oversize
    (s : Store) (this : addr) (m : AudioModule)
    (ins : list addr) (buffs : list (option bptr)) :
  mods s !! this = Some m →
  derived m = MixDown ins buffs →
  Exists (λ p, p = None
               ∨ ∃ d, data_at s p = Some d
                      ∧ out_buffer (info m) * default_channels < length d) buffs →
  ModuleMixDown_process this s = None.
Proof.
  intros Hm Hd Hex.
  rewrite (ModuleMixDown_process_unfold _ _ _ _ _ Hm Hd).
  set (p := fresh (dom (heap s))).
  set (b0 := AudioBuffer_new _ _).
  unfold mbind, M_bind.
  rewrite (mix_loop_stops p (out_buffer (info m) * default_channels) buffs _ b0);
    [reflexivity| | |].
  - simpl. apply lookup_insert_eq.
  - simpl. apply length_replicate.
  - eapply Exists_impl; [exact Hex|]. simpl.
    intros p' [->|(d & (q & b & -> & Hq & <-)%data_at_Some & Hlen)]; [by left|].
    right. exists q, b.
    assert (q ≠ p).
    { intros E. rewrite E in Hq. subst p.
      rewrite fresh_block_unused in Hq. discriminate. }
    rewrite lookup_insert_ne by done. done.
Qed.

(** * ModuleMixDown::bind *)

Lemma ModuleMixDown_bind_run (s : Store) (this mod_ : addr) (m : AudioModule)
    (ins : list addr) (buffs : list (option bptr)) :
  mods s !! this = Some m →
  derived m = MixDown ins buffs →
  ModuleMixDown_bind this mod_ s
  = Some (tt, with_mods s
                (<[this := with_derived m (MixDown (ins ++ [mod_]) buffs)]> (mods s))).
Proof.
  intros Hm Hd. unfold ModuleMixDown_bind.
  erewrite bind_run; [|by apply get_module_run]. by rewrite Hd.
Qed.

(** X6.  Registering the inputs [xs] with a Mixdown, one bind() call each,
    appends them to its input list in the order of the calls and changes
    nothing else: unlike AudioModule::bind, it gives the Mixdown no
    predecessor, and it writes neither a forward pointer nor a chain
    descriptor into an input (an input is not even dereferenced). *)
Theorem mixdown_bind_appends_inputs (xs : list addr) :
  ∀ (s : Store) (this : addr) (m : AudioModule)
    (ins : list addr) (buffs : list (option bptr)),
  mods s !! this = Some m →
  derived m = MixDown ins buffs →
  ∃ s',
    for_each xs (ModuleMixDown_bind this) s = Some (tt, s')
    ∧ mods s' !! this = Some (with_derived m (MixDown (ins ++ xs) buffs))
    ∧ (∀ x, x ≠ this → mods s' !! x = mods s !! x)
    ∧ heap s' = heap s
    ∧ chains s' = chains s.
Proof.
  induction xs as [|x xs IH]; intros s this m ins buffs Hm Hd.
  - exists s. rewrite app_nil_r. split; [reflexivity|].
    split; [|done]. rewrite Hm. f_equal. destruct m; simpl in *. by subst.
  - set (m1 := with_derived m (MixDown (ins ++ [x]) buffs)).
    set (s1 := with_mods s (<[this := m1]> (mods s))).
    destruct (IH s1 this m1 (ins ++ [x]) buffs) as (s' & Hrun & Hthis & Hoth & Hh & Hc).
    { simpl. apply lookup_insert_eq. }
    { reflexivity. }
    exists s'. split.
    { rewrite for_each_cons.
      by rewrite (bind_run _ _ _ _ _ (ModuleMixDown_bind_run _ _ x _ _ _ Hm Hd)). }
    split; [by rewrite Hthis, <- app_assoc|].
    split; [|done].
    intros y Hy. rewrite (Hoth y Hy). simpl. by rewrite lookup_insert_ne.
Qed.

(** * The collected pointers over the cycles *)

Lemma ModuleMixDown_meta_process_collected (s s' : Store) (this : addr) (m : AudioModule)
    (ins : list addr) (buffs : list (option bptr)) :
  mods s !! this = Some m →
  derived m = MixDown ins buffs →
  ModuleMixDown_meta_process this s = Some (tt, s') →
  ∃ m' new, mods s' !! this = Some m'
            ∧ derived m' = MixDown ins (buffs ++ new)
            ∧ length new = length ins.
Proof.
  intros Hm Hd H.
  rewrite (ModuleMixDown_meta_process_unfold _ _ _ _ _ Hm Hd) in H.
  apply bind_Some in H as ([] & s1 & H1 & H2).
  destruct (collect_inv _ _ _ _ _ _ _ Hm Hd H1)
    as (_ & _ & _ & m1 & new & Hm1 & _ & Hd1 & Hlen).
  destruct (ModuleMixDown_process_inv _ _ _ _ _ _ Hm1 Hd1 H2) as (r & _ & ->).
  eexists _, new. simpl. rewrite lookup_insert_eq. done.
Qed.

(** X7.  A Mixdown never drops a collected pointer: [n] completed
    meta_process() cycles of a Mixdown with [N] inputs leave it with the
    pointers it had before, followed by [n * N] further ones. *)
Theorem mixdown_collected_grows (n : nat) :
  ∀ (s s' : Store) (this : addr) (m : AudioModule)
    (ins : list addr) (buffs : list (option bptr)),
  mods s !! this = Some m →
  derived m = MixDown ins buffs →
  for_each (replicate n this) ModuleMixDown_meta_process s = Some (tt, s') →
  ∃ new, collected s' this = buffs ++ new
         ∧ length new = n * length ins.
Proof.
  induction n as [|n IH]; intros s s' this m ins buffs Hm Hd H.
  - injection H as <-. exists []. unfold collected. rewrite Hm, Hd.
    by rewrite app_nil_r.
  - cbn [replicate] in H. rewrite for_each_cons in H.
    apply bind_Some in H as ([] & s1 & H1 & H2).
    destruct (ModuleMixDown_meta_process_collected _ _ _ _ _ _ Hm Hd H1)
      as (m1 & new1 & Hm1 & Hd1 & Hl1).
    destruct (IH _ _ _ _ _ _ Hm1 Hd1 H2) as (new & Hc & Hl).
    exists (new1 ++ new). rewrite Hc, <- app_assoc. split; [done|].
    rewrite length_app. lia.
Qed.
(** * ModuleMixUp::get_buffer on a block of another size *)

Lemma std_copy_shorter (src dst : list sample) :
  length src ≤ length dst →
  std_copy src dst = Some (src ++ drop (length src) dst).
Proof. intros Hl. unfold std_copy. by rewrite decide_True. Qed.

Lemma std_copy_longer (src dst : list sample) :
  length dst < length src → std_copy src dst = None.
Proof. intros Hl. unfold std_copy. rewrite decide_False; [done|lia]. Qed.

(** X8.  ModuleMixUp::get_buffer copies the samples, not the block: from a
    retained block with at most as many samples as the Mix-up's info record
    and the default channel count give, the caller receives a new block with
    the declared dimensions, whatever frames and channels the retained block
    has, holding the retained samples followed by zeros.  The retained block
    stays held and unchanged. *)
Theorem mixup_get_buffer_pads
    (s : Store) (this : addr) (m : AudioModule) (r : bptr) (b : AudioBuffer) :
  mods s !! this = Some m →
  buff m = Some r →
  heap s !! r = Some b →
  size b ≤ out_buffer (info m) * default_channels →
  ∃ p s',
    ModuleMixUp_get_buffer this s = Some (Some p, s')
    ∧ heap s !! p = None
    ∧ heap s' !! p
      = Some (mkAudioBuffer (out_buffer (info m)) default_channels
                (buf_data b
                 ++ replicate (out_buffer (info m) * default_channels - size b) 0%R))
    ∧ heap s' !! r = Some b
    ∧ held s' this = Some (Some r).
Proof.
  intros Hm Hr Hb Hsz.
  set (p := fresh (dom (heap s))).
  assert (Hpr : p ≠ r).
  { intros E. rewrite <- E in Hb. subst p.
    rewrite fresh_block_unused in Hb. discriminate. }
  exists p. eexists. split.
  - unfold ModuleMixUp_get_buffer.
    rewrite (bind_run _ _ _ _ _ (create_buffer_run _ _ _ default_channels Hm)).
    fold p.
    erewrite bind_run; [|apply get_module_run; simpl; exact Hm].
    erewrite bind_run;
      [|apply read_buffer_Some; split; [|reflexivity]; exists r; split; [done|];
        simpl; rewrite lookup_insert_ne by done; exact Hb].
    erewrite bind_run;
      [|apply read_buffer_Some; split; [|reflexivity]; eexists; split; [done|];
        simpl; apply lookup_insert_eq].
    erewrite bind_run;
      [|apply lift_option_Some; split; [|reflexivity];
        apply std_copy_shorter; simpl; rewrite length_replicate; exact Hsz].
    reflexivity.
  - simpl. split; [apply fresh_block_unused|].
    rewrite insert_insert_eq, lookup_insert_eq, lookup_insert_ne by done.
    split; [|split; [done|]].
    + unfold with_data. simpl. do 2 f_equal. unfold size.
      by rewrite drop_replicate.
    + unfold held. simpl. rewrite Hm. simpl. by rewrite Hr.
Qed.

(** X9.  ModuleMixUp::get_buffer does not complete on a Mix-up that holds no
    block (it dereferences the null pointer), nor on one whose retained block
    has more samples than the block it makes (the copy runs past the end of
    the new block). *)
Theorem mixup_get_buffer_fails
    (s : Store) (this : addr) (m : AudioModule) :
  mods s !! this = Some m →
  buff m = None
  ∨ (∃ r b, buff m = Some r ∧ heap s !! r = Some b
            ∧ out_buffer (info m) * default_channels < size b) →
  ModuleMixUp_get_buffer this s = None.
Proof.
  intros Hm Hbad. unfold ModuleMixUp_get_buffer.
  rewrite (bind_run _ _ _ _ _ (create_buffer_run _ _ _ default_channels Hm)).
  set (p := fresh (dom (heap s))).
  erewrite bind_run; [|apply get_module_run; simpl; exact Hm].
  destruct Hbad as [Hnull|(r & b & Hr & Hb & Hsz)].
  - by rewrite Hnull.
  - assert (Hpr : p ≠ r).
    { intros E. rewrite <- E in Hb. subst p.
      rewrite fresh_block_unused in Hb. discriminate. }
    erewrite bind_run;
      [|apply read_buffer_Some; split; [|reflexivity]; exists r; split; [done|];
        simpl; rewrite lookup_insert_ne by done; exact Hb].
    erewrite bind_run;
      [|apply read_buffer_Some; split; [|reflexivity]; eexists; split; [done|];
        simpl; apply lookup_insert_eq].
    unfold mbind, M_bind, lift_option.
    rewrite std_copy_longer; [done|].
    simpl. rewrite length_replicate. exact Hsz.
Qed.

(** * bind() called more than once *)





(** * AudioModule::meta_process along a chain *)


Lemma process_plain (s : Store) (a : addr) (m : AudioModule) :
  mods s !! a = Some m → derived m = Plain → process a s = Some (tt, s).
Proof.
  intros Hm Hd. unfold process.
  by rewrite (bind_run _ _ _ _ _ (get_module_run _ _ _ Hm)), Hd.
Qed.



(** X14.  AudioModule::meta_process needs a source behind it: when every
    module that is reached backwards from [a], [a] included, is a plain
    module or a Mix-up, no depth of recursion lets meta_process() of [a]
    complete (the backward links end in a null pointer, or run in a
    cycle). *)
Theorem meta_process_needs_a_source (s : Store) (a : addr) :
  (∀ x, x = a ∨ behind s a x →
        ∃ m, mods s !! x = Some m
             ∧ (derived m = Plain ∨ ∃ out, derived m = MixUp out)) →
  ∀ fuel, meta_process fuel a s = None.
Proof.
  intros Hall fuel.
  assert (H : ∀ x, x = a ∨ behind s a x → meta_process fuel x s = None);
    [|by apply H; left].
  induction fuel as [|fuel IH]; intros x Hx; [reflexivity|].
  destruct (Hall x Hx) as (m & Hm & Hk).
  cbn [meta_process].
  rewrite (bind_run _ _ _ _ _ (get_module_run _ _ _ Hm)).
  assert (Hgo : (back ← lift_option (backward m);
                 meta_process fuel back;;
                 b ← get_buffer back;
                 AudioModule_set_buffer x b;;
                 process x) s = None).
  { destruct (backward m) as [back|] eqn:Hb; [|reflexivity].
    erewrite bind_run; [|apply lift_option_Some; split; reflexivity].
    unfold mbind at 1, M_bind. rewrite IH; [reflexivity|].
    right. destruct Hx as [->|Hx].
    - by apply (behind_one _ _ _ m).
    - eapply behind_far; [exact Hx|]. by apply (behind_one _ _ _ m). }
  destruct Hk as [->|[out ->]]; exact Hgo.
Qed.
(** * A Mixdown over oscillators *)

Lemma push_buff_run (s : Store) (this : addr) (m : AudioModule)
    (ins : list addr) (buffs : list (option bptr)) (b : option bptr) :
  mods s !! this = Some m →
  derived m = MixDown ins buffs →
  push_buff this b s
  = Some (tt, with_mods s
                (<[this := with_derived m (MixDown ins (buffs ++ [b]))]> (mods s))).
Proof.
  intros Hm Hd. unfold push_buff.
  by rewrite (bind_run _ _ _ _ _ (get_module_run _ _ _ Hm)), Hd.
Qed.

Lemma process_oscillator (s : Store) (a : addr) (m : AudioModule)
    (w : Wave) (f : R) (ph : Z) (sr : R) :
  mods s !! a = Some m →
  derived m = Oscillator w f ph sr →
  process a s = oscillator_process w a s.
Proof.
  intros Hm Hd. unfold process.
  rewrite (bind_run _ _ _ _ _ (get_module_run _ _ _ Hm)), Hd. by destruct w.
Qed.

Lemma Forall2_impl_elem {A B} (P Q : A → B → Prop) (l : list A) (k : list B) :
  Forall2 P l k →
  (∀ x y, x ∈ l → P x y → Q x y) →
  Forall2 Q l k.
Proof.
  induction 1 as [|x y l k Hxy Hrest IH]; intros Himp; constructor.
  - apply Himp; [apply elem_of_cons; by left|done].
  - apply IH. intros x' y' Hin. apply Himp. apply elem_of_cons. by right.
Qed.



(** * A Mix-up inside a line *)

Lemma get_buffer_mixup (s : Store) (a : addr) (m : AudioModule) (out : list addr) :
  mods s !! a = Some m →
  derived m = MixUp out →
  get_buffer a s = ModuleMixUp_get_buffer a s.
Proof.
  intros Hm Hd. unfold get_buffer.
  by rewrite (bind_run _ _ _ _ _ (get_module_run _ _ _ Hm)), Hd.
Qed.


Lemma process_mixup (s : Store) (a : addr) (m : AudioModule) (out : list addr) :
  mods s !! a = Some m → derived m = MixUp out → process a s = Some (tt, s).
Proof.
  intros Hm Hd. unfold process.
  by rewrite (bind_run _ _ _ _ _ (get_module_run _ _ _ Hm)), Hd.
Qed.


(** * A Mixdown over an input that has nothing to give *)

Lemma ModuleMixDown_process_null (s : Store) (this : addr) (m : AudioModule)
    (ins : list addr) (buffs : list (option bptr)) :
  mods s !! this = Some m →
  derived m = MixDown ins buffs →
  None ∈ buffs →
  ModuleMixDown_process this s = None.
Proof.
  intros Hm Hd Hin.
  rewrite (ModuleMixDown_process_unfold _ _ _ _ _ Hm Hd).
  unfold mbind, M_bind.
  rewrite (mix_loop_stops _ (out_buffer (info m) * default_channels) buffs _
             (AudioBuffer_new (out_buffer (info m)) default_channels));
    [reflexivity| | |].
  - simpl. apply lookup_insert_eq.
  - simpl. apply length_replicate.
  - apply Exists_exists. exists None. split; [done|by left].
Qed.

Lemma collect_null (this a : addr) (ma : AudioModule) (ins : list addr) :
  a ≠ this →
  derived ma = Plain →
  buff ma = None →
  a ∈ ins →
  ∀ (s s' : Store) (m : AudioModule) (ins0 : list addr) (buffs : list (option bptr)),
  mods s !! this = Some m →
  derived m = MixDown ins0 buffs →
  mods s !! a = Some ma →
  collect this ins s = Some (tt, s') →
  ∃ m' buffs', mods s' !! this = Some m'
               ∧ derived m' = MixDown ins0 buffs'
               ∧ None ∈ buffs'.
Proof.
  intros Hne Hda Hba. induction ins as [|x ins IH]; intros Hin s s' m ins0 buffs Hm Hd Ha H.
  - by apply elem_of_nil in Hin.
  - unfold collect in H. cbn [for_each] in H.
    apply bind_Some in H as ([] & s1 & H1 & H2).
    destruct (decide (x = a)) as [->|Hxa].
    + (* the input with nothing to give *)
      assert (Hone : collect_one this a s
                     = Some (tt, with_mods (with_mods s (<[a := with_buff ma None]> (mods s)))
                                   (<[this := with_derived m (MixDown ins0 (buffs ++ [None]))]>
                                      (<[a := with_buff ma None]> (mods s))))).
      { unfold collect_one.
        rewrite (bind_run _ _ _ _ _ (process_plain _ _ _ Ha Hda)).
        assert (Hk : ∀ out, derived ma ≠ MixUp out) by (intros out; by rewrite Hda).
        rewrite (bind_run _ _ _ _ _ (get_buffer_base _ _ _ Ha Hk)).
        rewrite Hba. apply push_buff_run; [|done].
        simpl. by rewrite lookup_insert_ne. }
      rewrite Hone in H1. injection H1 as <-.
      set (m1 := with_derived m _) in H2.
      set (s1 := with_mods _ _) in H2.
      assert (Hm1 : mods s1 !! this = Some m1)
        by (subst s1; simpl; apply lookup_insert_eq).
      destruct (collect_inv this ins s1 s' m1 ins0 (buffs ++ [None]) Hm1 eq_refl H2)
        as (_ & _ & _ & m' & new & Hm' & _ & Hd' & _).
      exists m', ((buffs ++ [None]) ++ new). do 2 (split; [done|]).
      rewrite !elem_of_app, list_elem_of_singleton. tauto.
    + apply elem_of_cons in Hin as [->|Hin]; [done|].
      destruct (collect_one_inv _ _ _ _ _ _ _ Hm Hd H1)
        as (Hoth & _ & _ & m1 & b & Hm1 & _ & Hd1).
      apply (IH Hin s1 s' m1 ins0 (buffs ++ [b]) Hm1 Hd1); [|done].
      rewrite Hoth by done. exact Ha.
Qed.

(** X23.  A Mixdown cannot mix an input that has nothing to give: when one of
    the registered inputs is a plain module holding no block (as any module
    that is not a Mix-up is once its block was taken), meta_process() of the
    Mixdown does not complete: the null pointer it collects is dereferenced
    by process(). *)
Theorem mixdown_cycle_needs_blocks
    (s : Store) (this a : addr) (m ma : AudioModule)
    (ins : list addr) (buffs : list (option bptr)) :
  mods s !! this = Some m →
  derived m = MixDown ins buffs →
  a ∈ ins →
  a ≠ this →
  mods s !! a = Some ma →
  derived ma = Plain →
  buff ma = None →
  ModuleMixDown_meta_process this s = None.
Proof.
  intros Hm Hd Hin Hne Ha Hda Hba.
  rewrite (ModuleMixDown_meta_process_unfold _ _ _ _ _ Hm Hd).
  unfold mbind, M_bind.
  destruct (collect this ins s) as [[[] s1]|] eqn:Hcol; [|reflexivity].
  destruct (collect_null this a ma ins Hne Hda Hba Hin s s1 m ins buffs Hm Hd Ha Hcol)
    as (m' & buffs' & Hm' & Hd' & Hnull).
  by apply (ModuleMixDown_process_null s1 this m' ins buffs').
Qed.


(** * A Mixdown over Mix-ups *)

(** The loop of ModuleMixDown::meta_process over inputs that are Mix-ups:
    each one hands over a copy of the block it retains. *)
Lemma collect_copies (this : addr) (F : nat) (ins : list addr) :
  ∀ (ds : list (list sample)) (s : Store) (m : AudioModule)
    (ins0 : list addr) (buffs : list (option bptr)),
  mods s !! this = Some m →
  derived m = MixDown ins0 buffs →
  this ∉ ins →
  Forall2 (input_block s F) ins ds →
  Forall (λ d, length d = F * default_channels) ds →
  ∃ s' m' ptrs,
    collect this ins s = Some (tt, s')
    ∧ mods s' !! this = Some m'
    ∧ info m' = info m
    ∧ derived m' = MixDown ins0 (buffs ++ ptrs)
    ∧ heap s ⊆ heap s'
    ∧ (∀ x, x ≠ this → mods s' !! x = mods s !! x)
    ∧ Forall2 (λ p d, data_at s' p = Some d) ptrs ds.
Proof.
  induction ins as [|a ins IH]; intros ds s m ins0 buffs Hm Hd Hthis Hblocks Hlens.
  - inversion Hblocks; subst. exists s, m, [].
    rewrite app_nil_r. repeat split; done.
  - inversion Hblocks as [|? d ? ds' Ha Hrest]; subst.
    apply Forall_cons in Hlens as [Hlen Hlens].
    destruct Ha as (ma & out & r & b & Hma & Hda & HF & Hr & Hb & Hdata).
    apply not_elem_of_cons in Hthis as [Hta Hthis].
    assert (Hsz : size b = out_buffer (info ma) * default_channels).
    { unfold size. by rewrite Hdata, HF. }
    pose proof (ModuleMixUp_get_buffer_run s a ma r b Hma Hr Hb Hsz) as Hget.
    rewrite <- (get_buffer_mixup _ _ _ _ Hma Hda) in Hget.
    set (p := fresh (dom (heap s))) in Hget.
    set (s2 := with_heap s _) in Hget.
    assert (Hm2 : mods s2 !! this = Some m) by exact Hm.
    pose proof (push_buff_run s2 this m ins0 buffs (Some p) Hm2 Hd) as Hpush.
    set (m3 := with_derived m _) in Hpush.
    set (s3 := with_mods s2 _) in Hpush.
    assert (Hone : collect_one this a s = Some (tt, s3)).
    { unfold collect_one.
      rewrite (bind_run _ _ _ _ _ (process_mixup _ _ _ _ Hma Hda)).
      rewrite (bind_run _ _ _ _ _ Hget). exact Hpush. }
    assert (Hm3 : mods s3 !! this = Some m3)
      by (subst s3; simpl; apply lookup_insert_eq).
    assert (Hsub3 : heap s ⊆ heap s3) by apply fresh_insert_subseteq.
    assert (Hoth3 : ∀ x, x ≠ this → mods s3 !! x = mods s !! x).
    { intros x Hx. subst s3 s2. simpl. by rewrite lookup_insert_ne. }
    assert (Hrest3 : Forall2 (input_block s3 F) ins ds').
    { eapply Forall2_impl_elem; [exact Hrest|].
      intros x dx Hx (mx & outx & rx & bx & Hmx & Hdx & HFx & Hrx & Hbx & Hdatax).
      exists mx, outx, rx, bx. split.
      { rewrite Hoth3; [done|]. intros ->. by apply Hthis. }
      do 3 (split; [done|]). split; [|done]. by eapply lookup_weaken. }
    destruct (IH ds' s3 m3 ins0 (buffs ++ [Some p]) Hm3 eq_refl Hthis Hrest3 Hlens)
      as (s' & m' & ptrs & Hcol & Hm' & Hi' & Hd' & Hsub & Hoth & Hptrs).
    exists s', m', (Some p :: ptrs). split.
    { unfold collect. cbn [for_each]. rewrite (bind_run _ _ _ _ _ Hone).
      exact Hcol. }
    split; [done|]. split; [done|].
    split; [by rewrite Hd', <- app_assoc|].
    split; [by transitivity (heap s3)|].
    split; [intros x Hx; by rewrite Hoth, Hoth3|].
    constructor; [|done].
    apply data_at_Some. eexists p, _. split; [done|]. split.
    + eapply lookup_weaken; [|exact Hsub]. subst s3 s2. simpl.
      apply lookup_insert_eq.
    + done.
Qed.

(** X24.  A Mixdown mixes what its Mix-ups retain: one meta_process() cycle
    of a Mixdown that has collected nothing yet and whose inputs are Mix-ups
    retaining blocks of the size the Mixdown makes completes, and the block
    the Mixdown then holds is, sample by sample, the sum of the retained
    blocks.  Every other module is as before: each Mix-up still holds its
    block. *)
Theorem mixdown_mixes_retained_blocks
    (s : Store) (this : addr) (m : AudioModule) (ins : list addr)
    (ds : list (list sample)) :
  mods s !! this = Some m →
  derived m = MixDown ins [] →
  this ∉ ins →
  Forall2 (input_block s (out_buffer (info m))) ins ds →
  Forall (λ d, length d = out_buffer (info m) * default_channels) ds →
  ∃ s' r,
    ModuleMixDown_meta_process this s = Some (tt, s')
    ∧ output s' this = Some r
    ∧ length r = out_buffer (info m) * default_channels
    ∧ (∀ i, i < out_buffer (info m) * default_channels →
         r !! i = Some (sample_sum ds i))
    ∧ (∀ x, x ≠ this → mods s' !! x = mods s !! x)
    ∧ heap s ⊆ heap s'.
Proof.
  intros Hm Hd Hthis Hblocks Hlens.
  destruct (collect_copies this _ ins ds s m ins [] Hm Hd Hthis Hblocks Hlens)
    as (s1 & m1 & ptrs & Hcol & Hm1 & Hi1 & Hd1 & Hsub1 & Hoth1 & Hptrs).
  simpl in Hd1.
  destruct (ModuleMixDown_process_samples s1 this m1 ins ptrs ds Hm1 Hd1 Hptrs)
    as (s' & r & Hrun & _ & Hout & Hlen & Hsum).
  { rewrite Hi1. eapply Forall_impl; [exact Hlens|]. simpl. intros; lia. }
  rewrite Hi1 in Hlen, Hsum.
  exists s', r. split.
  { rewrite (ModuleMixDown_meta_process_unfold _ _ _ _ _ Hm Hd).
    by rewrite (bind_run _ _ _ _ _ Hcol). }
  do 3 (split; [done|]).
  destruct (ModuleMixDown_process_inv _ _ _ _ _ _ Hm1 Hd1 Hrun) as (r' & _ & ->).
  simpl. split.
  - intros x Hx. rewrite lookup_insert_ne by done. by apply Hoth1.
  - etransitivity; [exact Hsub1|]. apply fresh_insert_subseteq.
Qed.
(** * Taking and setting the held block *)

(** C5, as the code has it.  For a module that is not a Mix-up and holds a
    block [q], the call get_buffer() hands exactly [q] out and leaves the
    module holding none; the block itself and every other module are untouched; a second take
    before any set returns the null pointer.  set_buffer() installs the
    pointer it is given in any state of the module, whatever the module held
    before, and touches nothing else; the next take returns that pointer.
    Passing on what get_buffer() returns to set_buffer() of another module
    leaves the block with that module and the source empty.  A Mix-up that
    holds a block of the size it declares is not emptied by get_buffer(): it
    hands out another block, one that did not exist before, and still holds
    its own. *)
Theorem take_block_empties_and_set_block_installs
    (s : Store) (this : addr) (m : AudioModule) :
  mods s !! this = Some m →
  (∀ q, buff m = Some q → (∀ out, derived m ≠ MixUp out) →
     ∃ s1,
       get_buffer this s = Some (Some q, s1)
       ∧ held s1 this = Some None
       ∧ heap s1 = heap s
       ∧ (∀ a, a ≠ this → mods s1 !! a = mods s !! a)
       ∧ (∃ s2, get_buffer this s1 = Some (None, s2)
                ∧ held s2 this = Some None))
  ∧ (∀ p : option bptr, ∃ s3,
       AudioModule_set_buffer this p s = Some (tt, s3)
       ∧ held s3 this = Some p
       ∧ heap s3 = heap s
       ∧ (∀ a, a ≠ this → mods s3 !! a = mods s !! a)
       ∧ ((∀ out, derived m ≠ MixUp out) →
          ∃ s4, get_buffer this s3 = Some (p, s4)
                ∧ held s4 this = Some None))
  ∧ (∀ q to mt, buff m = Some q → (∀ out, derived m ≠ MixUp out) →
       to ≠ this → mods s !! to = Some mt →
       ∃ s5,
         (x ← get_buffer this; AudioModule_set_buffer to x) s = Some (tt, s5)
         ∧ held s5 this = Some None
         ∧ held s5 to = Some (Some q)
         ∧ heap s5 = heap s)
  ∧ (∀ q b out, buff m = Some q → derived m = MixUp out →
       heap s !! q = Some b →
       size b = out_buffer (info m) * default_channels →
       ∃ p s6,
         get_buffer this s = Some (Some p, s6)
         ∧ p ≠ q
         ∧ heap s !! p = None
         ∧ held s6 this = Some (Some q)
         ∧ heap s6 !! q = Some b).
Proof.
  intros Hm. split; [|split; [|split]]; cycle 3.
  { intros q b out Hq Hd Hb Hsz.
    rewrite (get_buffer_mixup _ _ _ _ Hm Hd).
    rewrite (ModuleMixUp_get_buffer_run _ _ _ _ _ Hm Hq Hb Hsz).
    set (p := fresh (dom (heap s))).
    assert (Hp : heap s !! p = None) by apply fresh_block_unused.
    assert (Hpq : p ≠ q) by (intros ->; rewrite Hb in Hp; discriminate).
    eexists _, _. split; [reflexivity|]. split; [exact Hpq|]. split; [exact Hp|].
    split; [unfold held; simpl; by rewrite Hm; simpl; rewrite Hq|].
    simpl. by rewrite lookup_insert_ne. }
  - intros q Hq Hk.
    eexists. split; [rewrite (get_buffer_base _ _ _ Hm Hk), Hq; reflexivity|].
    set (s1 := with_mods s _).
    assert (H1 : mods s1 !! this = Some (with_buff m None))
      by (subst s1; simpl; apply lookup_insert_eq).
    split; [unfold held; by rewrite H1|].
    split; [reflexivity|].
    split; [intros a Ha; subst s1; simpl; by rewrite lookup_insert_ne|].
    eexists. split; [rewrite (get_buffer_base _ _ _ H1 Hk); reflexivity|].
    unfold held. simpl. by rewrite lookup_insert_eq.
  - intros p. eexists.
    split; [rewrite (AudioModule_set_buffer_run _ _ _ p Hm); reflexivity|].
    set (s3 := with_mods s _).
    assert (H3 : mods s3 !! this = Some (with_buff m p))
      by (subst s3; simpl; apply lookup_insert_eq).
    split; [unfold held; by rewrite H3|].
    split; [reflexivity|].
    split; [intros a Ha; subst s3; simpl; by rewrite lookup_insert_ne|].
    intros Hk. eexists.
    split; [rewrite (get_buffer_base _ _ _ H3 Hk); reflexivity|].
    unfold held. simpl. by rewrite lookup_insert_eq.
  - intros q to mt Hq Hk Hne Hto.
    rewrite (bind_run _ _ _ _ _ (get_buffer_base _ _ _ Hm Hk)), Hq.
    set (s1 := with_mods s _).
    assert (Hto1 : mods s1 !! to = Some mt)
      by (subst s1; simpl; by rewrite lookup_insert_ne).
    rewrite (AudioModule_set_buffer_run _ _ _ _ Hto1).
    eexists. split; [reflexivity|].
    unfold held. subst s1. simpl.
    rewrite lookup_insert_ne, !lookup_insert_eq by done. done.
Qed.

End Kernel.

(** * LatencyModule: the averages *)

Lemma wrap32_in_range (x : Z) :
  (0 ≤ x < 2 ^ 31)%Z → Latency.wrap32 x = x.
Proof.
  intros Hx. unfold Latency.wrap32, Latency.wrap.
  change (2 ^ (32 - 1))%Z with (2 ^ 31)%Z.
  change (2 ^ 32)%Z with (2 * 2 ^ 31)%Z.
  rewrite Z.mod_small by lia. lia.
Qed.

Lemma div64_None (a b : Z) :
  Latency.div64 a b = None ↔ b = 0%Z ∨ (a = Latency.INT64_MIN ∧ b = (-1)%Z).
Proof.
  unfold Latency.div64.
  destruct (decide (b = 0%Z)) as [Hb|Hb]; [tauto|].
  destruct (decide (a = Latency.INT64_MIN ∧ b = (-1)%Z)) as [Hab|Hab]; [tauto|].
  split; [discriminate|tauto].
Qed.

Lemma div64_positive (a b : Z) :
  (0 < b)%Z → Latency.div64 a b = Some (a ÷ b)%Z.
Proof.
  intros Hb. unfold Latency.div64.
  rewrite decide_False by lia. rewrite decide_False by lia. reflexivity.
Qed.

Lemma meta_process_processed (o : Latency.Operation) (l : Latency.LatencyModule) :
  (0 ≤ Latency.processed l < 2 ^ 31 - 1)%Z →
  Latency.processed (Latency.meta_process o l) = (Latency.processed l + 1)%Z.
Proof.
  intros Hl. unfold Latency.processed in *. simpl. apply wrap32_in_range. lia.
Qed.

(** The count is the number of operations completed since the last reset(). *)
Lemma play_processed (cs : list Latency.Call) :
  ∀ (l : Latency.LatencyModule) (acc : list Latency.Operation),
  Latency.processed l = Z.of_nat (length acc) →
  (Z.of_nat (length acc + length cs) < 2 ^ 31)%Z →
  Latency.processed (Latency.play cs l)
  = Z.of_nat (length (Latency.since_reset_from acc cs)).
Proof.
  induction cs as [|c cs IH]; intros l acc Hl Hb; [exact Hl|].
  unfold Latency.play, Latency.since_reset_from in *. cbn [foldl length] in *.
  destruct c as [o|]; cbn [Latency.call].
  - apply IH.
    + rewrite meta_process_processed, Hl, length_app by lia. simpl. lia.
    + rewrite length_app. simpl. lia.
  - apply IH; [reflexivity|simpl; lia].
Qed.

(** C10, as the code has it.  average_time() and average_latency() divide by
    processed() without a guard.  In any state with a count that is not
    negative, each of them is defined exactly when processed() > 0.  A newly
    constructed module has processed() = 0, and after any calls of
    meta_process() and reset() (fewer than 2^31) processed() is the number of
    meta_process() calls completed since the last reset(): the two quotients
    are undefined exactly when no meta_process() has completed since the last
    reset() (since construction, when there was none), and are the truncated
    quotients of the sums by that number otherwise. *)
Theorem averages_defined_iff_processed (cs : list Latency.Call) :
  (Z.of_nat (length cs) < 2 ^ 31)%Z →
  (∀ l, (0 ≤ Latency.processed l)%Z →
        (is_Some (Latency.average_time l) ↔ (0 < Latency.processed l)%Z)
        ∧ (is_Some (Latency.average_latency l) ↔ (0 < Latency.processed l)%Z))
  ∧ Latency.processed Latency.new = 0%Z
  ∧ Latency.processed (Latency.play cs Latency.new)
    = Z.of_nat (length (Latency.since_reset cs))
  ∧ (Latency.average_time (Latency.play cs Latency.new) = None
     ↔ Latency.since_reset cs = [])
  ∧ (Latency.average_latency (Latency.play cs Latency.new) = None
     ↔ Latency.since_reset cs = [])
  ∧ (Latency.since_reset cs ≠ [] →
     Latency.average_time (Latency.play cs Latency.new)
     = Some (Latency.total_time (Latency.play cs Latency.new)
             ÷ Z.of_nat (length (Latency.since_reset cs)))%Z
     ∧ Latency.average_latency (Latency.play cs Latency.new)
       = Some (Latency.total_latency (Latency.play cs Latency.new)
               ÷ Z.of_nat (length (Latency.since_reset cs)))%Z).
Proof.
  intros Hn.
  assert (Hp : Latency.processed (Latency.play cs Latency.new)
               = Z.of_nat (length (Latency.since_reset cs))).
  { apply (play_processed cs Latency.new []); [reflexivity|simpl; lia]. }
  set (ops := Latency.since_reset cs) in *.
  assert (Hlen : Z.of_nat (length ops) = 0%Z ↔ ops = []).
  { destruct ops; simpl; split; (done || lia). }
  split; [|split; [reflexivity|split; [exact Hp|split; [|split]]]].
  - intros l Hl.
    unfold Latency.average_time, Latency.average_latency.
    rewrite <- !not_eq_None_Some, !div64_None. split; split; intros H; lia.
  - unfold Latency.average_time. rewrite div64_None, Hp. rewrite <- Hlen. lia.
  - unfold Latency.average_latency. rewrite div64_None, Hp. rewrite <- Hlen. lia.
  - intros Hne. unfold Latency.average_time, Latency.average_latency.
    rewrite Hp. rewrite !div64_positive; [done| |];
      destruct ops; simpl in *; (done || lia).
Qed.

(** After reset() the count is zero again, whatever was processed before. *)
Lemma reset_undefines_averages (l : Latency.LatencyModule) :
  Latency.processed (Latency.Counter_reset l) = 0%Z
  ∧ Latency.average_time (Latency.Counter_reset l) = None
  ∧ Latency.average_latency (Latency.Counter_reset l) = None.
Proof. repeat split. Qed.

(** * Envelopes *)

Lemma add_sample_add (a b : nat) (t : Envelope.ChainTimer) :
  Envelope.add_sample b (Envelope.add_sample a t) = Envelope.add_sample (a + b) t.
Proof. unfold Envelope.add_sample. simpl. f_equal. lia. Qed.

Lemma time_of_add_sample (n k : nat) (t : Envelope.ChainTimer) :
  Envelope.time_of (Envelope.add_sample n t) k = Envelope.time_of t k.
Proof. reflexivity. Qed.

Lemma time_of_lt (t : Envelope.ChainTimer) (i j : nat) :
  (0 < Envelope.nano_frame t)%Z →
  i < j → (Envelope.time_of t i < Envelope.time_of t j)%Z.
Proof. intros Hnf Hij. unfold Envelope.time_of. nia. Qed.

Lemma time_of_le (t : Envelope.ChainTimer) (i j : nat) :
  (0 ≤ Envelope.nano_frame t)%Z →
  i ≤ j → (Envelope.time_of t i ≤ Envelope.time_of t j)%Z.
Proof. intros Hnf Hij. unfold Envelope.time_of. nia. Qed.

(** Each sample of a block is the value of the segment at the time of that
    sample, whatever the samples before it were. *)
Lemma fill_lookup (e : Envelope.Segment) (n : nat) :
  ∀ (t : Envelope.ChainTimer) (i : nat),
  i < n →
  (Envelope.fill e n t).1 !! i
  = Some (Envelope.value_at e (Envelope.time_of t (Envelope.sample t + i))).
Proof.
  induction n as [|n IH]; intros t i Hi; [lia|].
  simpl. destruct (Envelope.fill e n (Envelope.add_sample 1 t)) as [vs t'] eqn:E.
  destruct i as [|i]; simpl.
  - unfold Envelope.get_time. by rewrite Nat.add_0_r.
  - specialize (IH (Envelope.add_sample 1 t) i). rewrite E in IH. simpl in IH.
    rewrite IH by lia. rewrite time_of_add_sample. do 3 f_equal. lia.
Qed.

Lemma fill_length (e : Envelope.Segment) (n : nat) :
  ∀ t : Envelope.ChainTimer, length (Envelope.fill e n t).1 = n.
Proof.
  induction n as [|n IH]; intros t; [reflexivity|].
  simpl. specialize (IH (Envelope.add_sample 1 t)).
  destruct (Envelope.fill e n (Envelope.add_sample 1 t)). simpl in *. by rewrite IH.
Qed.

(** C7.  A Step envelope whose stop_time is the time of the sample with index
    [k] of the block it produces: the block has N samples, each the value of
    the step at the time of that sample alone, which is start_value at every
    index below [k] and stop_value at every index from [k] on. *)
Theorem step_envelope_switches_at_k
    (e : Envelope.Segment) (t : Envelope.ChainTimer) (k n : nat) :
  Envelope.shape e = Envelope.SetValue →
  (0 < Envelope.nano_frame t)%Z →
  Envelope.stop_time e = Envelope.time_of t (Envelope.sample t + k) →
  length (Envelope.fill e n t).1 = n
  ∧ ∀ i, i < n →
      (Envelope.fill e n t).1 !! i
      = Some (Envelope.value_at e (Envelope.time_of t (Envelope.sample t + i)))
      ∧ (i < k → (Envelope.fill e n t).1 !! i = Some (Envelope.start_value e))
      ∧ (k ≤ i → (Envelope.fill e n t).1 !! i = Some (Envelope.stop_value e)).
Proof.
  intros Hs Hnf Hk. split; [apply fill_length|].
  intros i Hi. rewrite (fill_lookup e n t i Hi).
  split; [reflexivity|].
  unfold Envelope.value_at. rewrite Hs, Hk.
  split; intros Hik.
  - rewrite decide_True; [done|]. apply time_of_lt; [done|lia].
  - rewrite decide_False; [done|].
    apply Z.le_ngt, time_of_le; lia.
Qed.

(** When stop_time falls between two samples, the rule of the specification
    holds the start value up to the last sample before stop_time.  With the
    numbers of the test SetValueTest.ValueOffset (1000 samples per second,
    stop_time 348600000 ns) the sample with index 348, at 348000000 ns, still
    has the start value and the sample with index 349 is the first with the
    stop value; the test itself expects the stop value from index 348 on. *)
Lemma step_envelope_between_samples :
  let t := Envelope.set_samplerate 1000 (Envelope.mkChainTimer 0 0) in
  let e := Envelope.mkSegment Envelope.SetValue 0 348600000 0 1 in
  (Envelope.fill e 1000 t).1 !! 348 = Some 0%R
  ∧ (Envelope.fill e 1000 t).1 !! 349 = Some 1%R.
Proof.
  intros t e. rewrite !fill_lookup by lia. split; reflexivity.
Qed.

(** * The envelope sequence *)

Lemma process_app (a b : nat) :
  ∀ c : Envelope.ChainEnvelope,
  Envelope.process (a + b) c
  = let '(o1, c1) := Envelope.process a c in
    let '(o2, c2) := Envelope.process b c1 in
    (o1 ++ o2, c2).
Proof.
  induction a as [|a IH]; intros c; cbn [Envelope.process Nat.add].
  - by destruct (Envelope.process b c).
  - destruct (Envelope.step c) as [v c'].
    rewrite IH. destruct (Envelope.process a c') as [o1 c1].
    by destruct (Envelope.process b c1).
Qed.

Lemma pull_app (a b n : nat) :
  ∀ c : Envelope.ChainEnvelope,
  Envelope.pull (a + b) n c
  = let '(o1, c1) := Envelope.pull a n c in
    let '(o2, c2) := Envelope.pull b n c1 in
    (o1 ++ o2, c2).
Proof.
  induction a as [|a IH]; intros c; cbn [Envelope.pull Nat.add].
  - by destruct (Envelope.pull b n c).
  - destruct (Envelope.process n c) as [o c'].
    rewrite IH. destruct (Envelope.pull a n c') as [o1 c1].
    by destruct (Envelope.pull b n c1).
Qed.

Lemma step_constant_holds (c : Envelope.ChainEnvelope) (e : Envelope.Segment) :
  Envelope.segments c !! Envelope.cursor c = Some e →
  Envelope.shape e = Envelope.Constant →
  Envelope.never_ends e ∨ ¬ Envelope.has_next c
  ∨ (Envelope.time_of (Envelope.timer c) (Envelope.sample (Envelope.timer c) + 1)
     < Envelope.stop_time e)%Z →
  Envelope.step c = (Envelope.start_value e, Envelope.advanced 1 c).
Proof.
  intros He Hs Hstay. unfold Envelope.step, Envelope.advanced.
  rewrite He. unfold Envelope.value_at. rewrite Hs.
  rewrite bool_decide_eq_false_2; [done|].
  unfold Envelope.get_time. simpl. intros (Hne & Hle & Hnext).
  rewrite time_of_add_sample in Hle.
  destruct Hstay as [?|[?|?]]; [done|done|lia].
Qed.

Lemma step_constant_switches (c : Envelope.ChainEnvelope) (e : Envelope.Segment) :
  Envelope.segments c !! Envelope.cursor c = Some e →
  Envelope.shape e = Envelope.Constant →
  ¬ Envelope.never_ends e →
  Envelope.has_next c →
  (Envelope.stop_time e
   ≤ Envelope.time_of (Envelope.timer c) (Envelope.sample (Envelope.timer c) + 1))%Z →
  Envelope.step c = (Envelope.start_value e, Envelope.switched 1 c).
Proof.
  intros He Hs Hne Hnext Hle. unfold Envelope.step, Envelope.switched.
  rewrite He. unfold Envelope.value_at. rewrite Hs.
  rewrite bool_decide_eq_true_2; [done|].
  unfold Envelope.get_time. simpl. by rewrite time_of_add_sample.
Qed.

Lemma advanced_advanced (a b : nat) (c : Envelope.ChainEnvelope) :
  Envelope.advanced b (Envelope.advanced a c) = Envelope.advanced (a + b) c.
Proof. unfold Envelope.advanced. simpl. by rewrite add_sample_add. Qed.

Lemma switched_advanced (a b : nat) (c : Envelope.ChainEnvelope) :
  Envelope.switched b (Envelope.advanced a c) = Envelope.switched (a + b) c.
Proof. unfold Envelope.switched, Envelope.advanced. simpl. by rewrite add_sample_add. Qed.

(** A Constant segment that does not end within the next [n] samples (or
    never ends, or is the last one) yields [n] times its value. *)
Lemma process_constant_holds (e : Envelope.Segment) (n : nat) :
  ∀ c : Envelope.ChainEnvelope,
  Envelope.segments c !! Envelope.cursor c = Some e →
  Envelope.shape e = Envelope.Constant →
  (0 ≤ Envelope.nano_frame (Envelope.timer c))%Z →
  Envelope.never_ends e ∨ ¬ Envelope.has_next c
  ∨ (Envelope.time_of (Envelope.timer c) (Envelope.sample (Envelope.timer c) + n)
     < Envelope.stop_time e)%Z →
  Envelope.process n c
  = (replicate n (Envelope.start_value e), Envelope.advanced n c).
Proof.
  induction n as [|n IH]; intros c He Hs Hnf Hstay.
  - simpl. f_equal. unfold Envelope.advanced, Envelope.add_sample.
    destruct c as [? ? []]. simpl. by rewrite Nat.add_0_r.
  - cbn [Envelope.process].
    rewrite (step_constant_holds c e He Hs).
    2:{ destruct Hstay as [?|[?|Hlt]]; [by left|by right; left|right; right].
        eapply Z.le_lt_trans; [|exact Hlt]. apply time_of_le; [done|lia]. }
    rewrite (IH (Envelope.advanced 1 c)); try done.
    + by rewrite advanced_advanced.
    + destruct Hstay as [?|[?|Hlt]]; [by left|by right; left|right; right].
      simpl. rewrite time_of_add_sample.
      replace (Envelope.sample (Envelope.timer c) + 1 + n)
        with (Envelope.sample (Envelope.timer c) + S n) by lia. done.
Qed.

(** A Constant segment whose stop_time is the time of the sample [n + 1]
    samples ahead, followed by another segment, yields [n + 1] times its
    value and hands over to the next segment. *)
Lemma process_constant_until (e : Envelope.Segment) (n : nat)
    (c : Envelope.ChainEnvelope) :
  Envelope.segments c !! Envelope.cursor c = Some e →
  Envelope.shape e = Envelope.Constant →
  (0 < Envelope.nano_frame (Envelope.timer c))%Z →
  Envelope.has_next c →
  Envelope.stop_time e
  = Envelope.time_of (Envelope.timer c) (Envelope.sample (Envelope.timer c) + S n) →
  Envelope.process (S n) c
  = (replicate (S n) (Envelope.start_value e), Envelope.switched (S n) c).
Proof.
  intros He Hs Hnf Hnext Hstop.
  assert (Hne : ¬ Envelope.never_ends e).
  { unfold Envelope.never_ends. rewrite Hstop. unfold Envelope.time_of. nia. }
  replace (S n) with (n + 1) at 1 by lia.
  rewrite process_app.
  rewrite (process_constant_holds e n c He Hs); [|lia|].
  2:{ right; right. rewrite Hstop. apply time_of_lt; [done|lia]. }
  cbn [Envelope.process].
  rewrite (step_constant_switches (Envelope.advanced n c) e); try done.
  - rewrite switched_advanced.
    replace (n + 1) with (S n) by lia. f_equal.
    by rewrite replicate_S_end.
  - simpl. rewrite time_of_add_sample, Hstop.
    apply time_of_le; [lia|lia].
Qed.

Lemma pull_S (k n : nat) (c : Envelope.ChainEnvelope) :
  Envelope.pull (S k) n c
  = let '(b, c') := Envelope.process n c in
    let '(bs, c'') := Envelope.pull k n c' in
    (b :: bs, c'').
Proof. reflexivity. Qed.

Lemma pull_constant_holds (e : Envelope.Segment) (k n : nat) :
  ∀ c : Envelope.ChainEnvelope,
  Envelope.segments c !! Envelope.cursor c = Some e →
  Envelope.shape e = Envelope.Constant →
  (0 ≤ Envelope.nano_frame (Envelope.timer c))%Z →
  Envelope.never_ends e ∨ ¬ Envelope.has_next c
  ∨ (Envelope.time_of (Envelope.timer c) (Envelope.sample (Envelope.timer c) + k * n)
     < Envelope.stop_time e)%Z →
  Envelope.pull k n c
  = (replicate k (replicate n (Envelope.start_value e)), Envelope.advanced (k * n) c).
Proof.
  induction k as [|k IH]; intros c He Hs Hnf Hstay.
  - simpl. f_equal. unfold Envelope.advanced, Envelope.add_sample.
    destruct c as [? ? []]. simpl. by rewrite Nat.add_0_r.
  - rewrite pull_S.
    rewrite (process_constant_holds e n c He Hs Hnf).
    2:{ destruct Hstay as [?|[?|Hlt]]; [by left|by right; left|right; right].
        eapply Z.le_lt_trans; [|exact Hlt]. apply time_of_le; [done|lia]. }
    rewrite (IH (Envelope.advanced n c)); try done.
    + by rewrite advanced_advanced.
    + destruct Hstay as [?|[?|Hlt]]; [by left|by right; left|right; right].
      simpl. rewrite time_of_add_sample.
      replace (Envelope.sample (Envelope.timer c) + n + k * n)
        with (Envelope.sample (Envelope.timer c) + S k * n) by lia. done.
Qed.

Lemma pull_constant_until (e : Envelope.Segment) (j n : nat) :
  ∀ c : Envelope.ChainEnvelope,
  Envelope.segments c !! Envelope.cursor c = Some e →
  Envelope.shape e = Envelope.Constant →
  (0 < Envelope.nano_frame (Envelope.timer c))%Z →
  0 < n →
  Envelope.has_next c →
  Envelope.stop_time e
  = Envelope.time_of (Envelope.timer c)
      (Envelope.sample (Envelope.timer c) + S j * n) →
  Envelope.pull (S j) n c
  = (replicate (S j) (replicate n (Envelope.start_value e)),
     Envelope.switched (S j * n) c).
Proof.
  induction j as [|j IH]; intros c He Hs Hnf Hn Hnext Hstop.
  - rewrite pull_S. destruct n as [|n]; [lia|].
    rewrite (process_constant_until e n c He Hs Hnf Hnext).
    + simpl. by rewrite Nat.add_0_r.
    + rewrite Hstop. do 2 f_equal. lia.
  - rewrite pull_S.
    rewrite (process_constant_holds e n c He Hs); [|lia|].
    2:{ right; right. rewrite Hstop. apply time_of_lt; [done|]. simpl. lia. }
    rewrite (IH (Envelope.advanced n c)); try done.
    + by rewrite switched_advanced.
    + simpl. rewrite time_of_add_sample, Hstop. f_equal. lia.
Qed.

Lemma pull_constant_to_boundary (e : Envelope.Segment) (k n : nat)
    (c : Envelope.ChainEnvelope) :
  Envelope.segments c !! Envelope.cursor c = Some e →
  Envelope.shape e = Envelope.Constant →
  (0 < Envelope.nano_frame (Envelope.timer c))%Z →
  0 < n → 0 < k →
  Envelope.has_next c →
  Envelope.stop_time e
  = Envelope.time_of (Envelope.timer c) (Envelope.sample (Envelope.timer c) + k * n) →
  Envelope.pull k n c
  = (replicate k (replicate n (Envelope.start_value e)), Envelope.switched (k * n) c).
Proof.
  intros He Hs Hnf Hn Hk Hnext Hstop.
  destruct k as [|j]; [lia|]. by apply pull_constant_until.
Qed.

Lemma process_constant_to_boundary (e : Envelope.Segment) (n : nat)
    (c : Envelope.ChainEnvelope) :
  Envelope.segments c !! Envelope.cursor c = Some e →
  Envelope.shape e = Envelope.Constant →
  (0 < Envelope.nano_frame (Envelope.timer c))%Z →
  0 < n →
  Envelope.has_next c →
  Envelope.stop_time e
  = Envelope.time_of (Envelope.timer c) (Envelope.sample (Envelope.timer c) + n) →
  Envelope.process n c
  = (replicate n (Envelope.start_value e), Envelope.switched n c).
Proof.
  intros He Hs Hnf Hn Hnext Hstop.
  destruct n as [|j]; [lia|]. by apply process_constant_until.
Qed.

(** C8.  A sequence of three Constant segments with the values 5, 20 and 30
    that follow one another without a gap, the boundaries between them and
    the end of the last one at the times of the samples [m1 * B], [m2 * B]
    and [m3 * B], pulled from the start of the clock.  Pulled in [m3]
    successive blocks of [B] samples, the first [m1] blocks hold 5 at every
    sample, the next [m2 - m1] blocks hold 20 and the last [m3 - m2] blocks
    hold 30; pulled as one block of [m3 * B] samples, the block is [m1 * B]
    times 5, then [(m2 - m1) * B] times 20, then [(m3 - m2) * B] times 30: no
    sample has any other value. *)
Theorem chain_of_three_constants
    (e1 e2 e3 : Envelope.Segment) (B m1 m2 m3 : nat) (nf : Z) :
  Envelope.shape e1 = Envelope.Constant →
  Envelope.shape e2 = Envelope.Constant →
  Envelope.shape e3 = Envelope.Constant →
  Envelope.start_value e1 = 5%R →
  Envelope.start_value e2 = 20%R →
  Envelope.start_value e3 = 30%R →
  (0 < nf)%Z → 0 < B → 0 < m1 → m1 < m2 → m2 < m3 →
  Envelope.start_time e1 = 0%Z →
  Envelope.stop_time e1 = (Z.of_nat (m1 * B) * nf)%Z →
  Envelope.start_time e2 = Envelope.stop_time e1 →
  Envelope.stop_time e2 = (Z.of_nat (m2 * B) * nf)%Z →
  Envelope.start_time e3 = Envelope.stop_time e2 →
  Envelope.stop_time e3 = (Z.of_nat (m3 * B) * nf)%Z →
  let c0 := Envelope.mkChainEnvelope [e1; e2; e3] 0 (Envelope.mkChainTimer 0 nf) in
  (Envelope.pull m3 B c0).1
  = replicate m1 (replicate B 5%R)
    ++ replicate (m2 - m1) (replicate B 20%R)
    ++ replicate (m3 - m2) (replicate B 30%R)
  ∧ (Envelope.process (m3 * B) c0).1
    = replicate (m1 * B) 5%R
      ++ replicate ((m2 - m1) * B) 20%R
      ++ replicate ((m3 - m2) * B) 30%R.
Proof.
  intros Hs1 Hs2 Hs3 Hv1 Hv2 Hv3 Hnf HB Hm1 Hm12 Hm23 _ Hstop1 _ Hstop2 _ _ c0.
  set (c1 := Envelope.switched (m1 * B) c0).
  set (c2 := Envelope.switched ((m2 - m1) * B) c1).
  assert (Hnext0 : Envelope.has_next c0) by (unfold Envelope.has_next; simpl; lia).
  assert (Hnext1 : Envelope.has_next c1) by (unfold Envelope.has_next; simpl; lia).
  assert (Hlast : ¬ Envelope.has_next c2) by (unfold Envelope.has_next; simpl; lia).
  assert (Ht1 : Envelope.stop_time e1
                = Envelope.time_of (Envelope.timer c0)
                    (Envelope.sample (Envelope.timer c0) + m1 * B))
    by (rewrite Hstop1; reflexivity).
  assert (Ht2 : Envelope.stop_time e2
                = Envelope.time_of (Envelope.timer c1)
                    (Envelope.sample (Envelope.timer c1) + (m2 - m1) * B)).
  { rewrite Hstop2. unfold Envelope.time_of. simpl. f_equal. nia. }
  split.
  - replace m3 with (m1 + ((m2 - m1) + (m3 - m2))) at 1 by lia.
    rewrite pull_app.
    rewrite (pull_constant_to_boundary e1 m1 B c0) by done. fold c1.
    rewrite pull_app.
    rewrite (pull_constant_to_boundary e2 (m2 - m1) B c1) by (done || lia). fold c2.
    rewrite (pull_constant_holds e3 (m3 - m2) B c2); [|done|done|simpl; lia|by right; left].
    simpl. by rewrite Hv1, Hv2, Hv3.
  - replace (m3 * B) with (m1 * B + ((m2 - m1) * B + (m3 - m2) * B)) at 1 by nia.
    rewrite process_app.
    rewrite (process_constant_to_boundary e1 (m1 * B) c0) by (done || nia). fold c1.
    rewrite process_app.
    rewrite (process_constant_to_boundary e2 ((m2 - m1) * B) c1) by (done || nia).
    fold c2.
    rewrite (process_constant_holds e3 ((m3 - m2) * B) c2);
      [|done|done|simpl; lia|by right; left].
    simpl. by rewrite Hv1, Hv2, Hv3.
Qed.

(** * The statements at work on concrete inputs *)

Lemma take_block_empties_and_set_block_installs_witness :
  mods (studio 1) !! 5%positive = Some studio_plain
  ∧ buff studio_plain = Some 3%positive
  ∧ (∀ out, derived studio_plain ≠ MixUp out)
  ∧ (∃ s1,
       get_buffer 1 5%positive (studio 1) = Some (Some 3%positive, s1)
       ∧ held s1 5%positive = Some None)
  ∧ (∃ s3,
       AudioModule_set_buffer 5%positive (Some 2%positive) (studio 1) = Some (tt, s3)
       ∧ held s3 5%positive = Some (Some 2%positive)).
Proof.
  assert (Hk : ∀ out, derived studio_plain ≠ MixUp out) by (intros out; discriminate).
  split; [reflexivity|]. split; [reflexivity|]. split; [exact Hk|].
  destruct (take_block_empties_and_set_block_installs
              1 (studio 1) 5%positive studio_plain eq_refl)
    as (Htake & Hset & _).
  split.
  - destruct (Htake 3%positive eq_refl Hk) as (s1 & H1 & H2 & _).
    exists s1. split; assumption.
  - destruct (Hset (Some 2%positive)) as (s3 & H1 & H2 & _).
    exists s3. split; assumption.
Defined.

(** C5 as stated does not hold of every module: whatever the default channel
    count is, the Mix-up of the studio holds a block, and its get_buffer()
    does not leave it holding none (it keeps the block and hands out a
    copy). *)
Lemma mixup_take_leaves_block_held :
  ¬ ∃ default_channels : nat,
      ∀ (s : Store) (a : addr) (m : AudioModule) (q : bptr) (b : AudioBuffer),
        mods s !! a = Some m →
        buff m = Some q →
        heap s !! q = Some b →
        ∃ s1, get_buffer default_channels a s = Some (Some q, s1)
              ∧ held s1 a = Some None.
Proof.
  intros [dc H].
  destruct (H (studio 1) 2%positive studio_mixup_a 1%positive ones
              eq_refl eq_refl eq_refl) as (s1 & Hrun & Hheld).
  rewrite (get_buffer_mixup dc (studio 1) 2%positive studio_mixup_a [] eq_refl eq_refl)
    in Hrun.
  apply ModuleMixUp_get_buffer_inv in Hrun as (_ & Hmods & _).
  unfold held in Hheld. rewrite Hmods in Hheld. discriminate.
Qed.



Lemma mixup_get_buffer_copies_witness :
  mods (studio 1) !! 2%positive = Some studio_mixup_a
  ∧ buff studio_mixup_a = Some 1%positive
  ∧ heap (studio 1) !! 1%positive = Some ones
  ∧ size ones = out_buffer (info studio_mixup_a) * 1
  ∧ ∃ p1 p2 s1 s2 b1 b2,
      ModuleMixUp_get_buffer 1 2%positive (studio 1) = Some (Some p1, s1)
      ∧ ModuleMixUp_get_buffer 1 2%positive s1 = Some (Some p2, s2)
      ∧ heap s2 !! p1 = Some b1 ∧ heap s2 !! p2 = Some b2
      ∧ buf_data b1 = buf_data ones ∧ buf_data b2 = buf_data ones
      ∧ heap s2 !! 1%positive = Some ones
      ∧ p1 ≠ 1%positive ∧ p2 ≠ 1%positive ∧ p1 ≠ p2.
Proof.
  do 4 (split; [reflexivity|]).
  destruct (mixup_get_buffer_copies 1
              (studio 1) 2%positive studio_mixup_a 1%positive ones
              eq_refl eq_refl eq_refl eq_refl)
    as (p1 & p2 & s1 & s2 & b1 & b2 & H).
  exists p1, p2, s1, s2, b1, b2. tauto.
Defined.

Lemma process_block_dimensions_witness :
  mods (studio 1) !! 3%positive = Some studio_sine
  ∧ allocates_output 1 (studio 1) studio_sine
  ∧ ∃ s', process 1 exact_conversion 3%positive (studio 1) = Some (tt, s')
          ∧ holds_new_block (studio 1) s' 3%positive 2 1.
Proof.
  split; [reflexivity|]. split; [exact I|].
  destruct (process_block_dimensions 1 exact_conversion
              (studio 1) 3%positive studio_sine eq_refl I)
    as (s' & H1 & H2 & _).
  exists s'. split; assumption.
Defined.

(** C1 as stated does not hold: whatever the default of create_buffer's
    channel argument is (and whatever the conversion to double), there is a
    chain whose shared descriptor declares another channel count, and
    process() of its oscillator puts out a block with the channel count of
    the argument. *)
Lemma process_block_not_sized_by_chain_descriptor :
  ¬ ∃ (default_channels : nat) (to_double : R → R),
      ∀ (s s' : Store) (a : addr) (m : AudioModule) (c : cptr) (ci : ChainInfo)
        (q : bptr) (b : AudioBuffer),
        mods s !! a = Some m →
        chain m = Some c →
        chains s !! c = Some ci →
        process default_channels to_double a s = Some (tt, s') →
        held s' a = Some (Some q) →
        heap s' !! q = Some b →
        buf_frames b = chain_block_size ci ∧ buf_channels b = chain_channels ci.
Proof.
  intros (dc & td & H).
  destruct (process_allocates dc td (studio (S dc)) 3%positive studio_sine eq_refl I)
    as (s' & Hrun & (q & b & Hheld & Hb & _ & _ & Hch & _) & _).
  destruct (H (studio (S dc)) s' 3%positive studio_sine 1%positive
              (mkChainInfo 1000 (S dc) 2) q b
              eq_refl eq_refl eq_refl Hrun Hheld Hb) as [_ Hbad].
  simpl in Hbad. lia.
Qed.

Lemma mixdown_sums_constant_inputs_first_cycle :
  mods (studio 1) !! 1%positive = Some studio_mixdown
  ∧ derived studio_mixdown = MixDown [2%positive; 4%positive] []
  ∧ ∃ s1,
      collect 1 exact_conversion 1%positive [2%positive; 4%positive] (studio 1) = Some (tt, s1)
      ∧ Forall (λ p, data_at s1 p = Some (replicate (2 * 1) 1%R))
               (collected s1 1%positive)
      ∧ ∃ s2,
          ModuleMixDown_meta_process 1 exact_conversion 1%positive (studio 1)
          = Some (tt, s2)
          ∧ output s2 1%positive = Some (replicate (2 * 1) (INR 2 * 1)%R).
Proof.
  split; [reflexivity|]. split; [reflexivity|].
  destruct (collect 1 exact_conversion 1%positive [2%positive; 4%positive] (studio 1))
    as [[[] s1]|] eqn:Hc; [|vm_compute in Hc; discriminate].
  exists s1. split; [reflexivity|].
  assert (Hall : Forall (λ p, data_at s1 p = Some (replicate (2 * 1) 1%R))
                   (collected s1 1%positive)).
  { vm_compute in Hc. injection Hc as <-. vm_compute. repeat constructor. }
  split; [exact Hall|].
  destruct (mixdown_sums_constant_inputs 1 exact_conversion (studio 1) s1 1%positive studio_mixdown
              [2%positive; 4%positive] 1%R eq_refl eq_refl Hc Hall)
    as (s2 & H1 & _ & H3 & _).
  exists s2. split; assumption.
Defined.

Lemma mixdown_cycle_leaves_predecessors_witness :
  mods (studio 1) !! 1%positive = Some studio_mixdown
  ∧ derived studio_mixdown = MixDown [2%positive; 4%positive] []
  ∧ 2%positive ∈ [2%positive; 4%positive]
  ∧ behind (studio 1) 2%positive 3%positive
  ∧ (3%positive ∉ [2%positive; 4%positive])
  ∧ (3%positive ≠ 1%positive)
  ∧ ∃ s',
      ModuleMixDown_meta_process 1 exact_conversion 1%positive (studio 1)
      = Some (tt, s')
      ∧ mods s' !! 3%positive = mods (studio 1) !! 3%positive.
Proof.
  assert (Hin : 2%positive ∈ [2%positive; 4%positive])
    by (apply elem_of_cons; by left).
  assert (Hb : behind (studio 1) 2%positive 3%positive)
    by (by apply (behind_one _ _ _ studio_mixup_a)).
  assert (Hnin : 3%positive ∉ [2%positive; 4%positive]).
  { rewrite !not_elem_of_cons. repeat split; try discriminate.
    apply not_elem_of_nil. }
  assert (Hne : 3%positive ≠ 1%positive) by discriminate.
  do 2 (split; [reflexivity|]).
  do 4 (split; [assumption|]).
  destruct (ModuleMixDown_meta_process 1 exact_conversion 1%positive (studio 1))
    as [[[] s']|] eqn:Hrun; [|vm_compute in Hrun; discriminate].
  exists s'. split; [reflexivity|].
  by destruct (mixdown_cycle_leaves_predecessors 1 exact_conversion (studio 1) s' 1%positive
                 studio_mixdown [2%positive; 4%positive] [] eq_refl eq_refl Hrun
                 2%positive 3%positive Hin Hb Hnin Hne) as [? _].
Defined.

(** C2 on the code: the second cycle of the Mixdown of the studio.  It has
    N = 2 inputs, and in the second cycle (as in the first) each of them hands
    over a block with both samples equal to v = 1: the last two of the
    collected blocks.  The output of that cycle is 4 at each sample, not
    N x v = 2: the two blocks of the first cycle are summed again. *)
Theorem mixdown_later_cycle_exceeds_n_times_v (to_double : R → R) :
  ∃ s1 s2,
    ModuleMixDown_meta_process 1 to_double 1%positive (studio 1) = Some (tt, s1)
    ∧ ModuleMixDown_meta_process 1 to_double 1%positive s1 = Some (tt, s2)
    ∧ (derived <$> mods s1 !! 1%positive)
      = Some (MixDown [2%positive; 4%positive] (collected s1 1%positive))
    ∧ collected s2 1%positive
      = collected s1 1%positive
        ++ drop (length (collected s1 1%positive)) (collected s2 1%positive)
    ∧ (data_at s2 <$> drop (length (collected s1 1%positive)) (collected s2 1%positive))
      = [Some (replicate 2 1%R); Some (replicate 2 1%R)]
    ∧ output s2 1%positive = Some (replicate 2 4%R)
    ∧ output s2 1%positive
      ≠ Some (replicate 2 (INR (length [2%positive; 4%positive]) * 1)%R).
Proof.
  destruct (ModuleMixDown_meta_process 1 to_double 1%positive (studio 1))
    as [[[] s1]|] eqn:H1; [|vm_compute in H1; discriminate].
  destruct (ModuleMixDown_meta_process 1 to_double 1%positive s1)
    as [[[] s2]|] eqn:H2;
    [|vm_compute in H1; injection H1 as <-; vm_compute in H2; discriminate].
  exists s1, s2. do 2 (split; [done|]).
  vm_compute in H1. injection H1 as <-.
  vm_compute in H2. injection H2 as <-.
  do 3 (split; [vm_compute; reflexivity|]).
  split.
  - vm_compute. repeat f_equal; lra.
  - vm_compute. intros [= Hbad _]. lra.
Qed.

(** C3 on the code: two cycles of the Mixdown of the studio.  In each cycle
    the two inputs hand over one block each, with both samples equal to 1.
    The first cycle puts out 2 at each sample.  The second cycle still has the
    two blocks of the first cycle among its collected blocks (four in all)
    and puts out 4 at each sample, not the sum 2 of the blocks of that
    cycle. *)
Theorem mixdown_second_cycle_sums_first_cycle_again (to_double : R → R) :
  ∃ s1 s2,
    ModuleMixDown_meta_process 1 to_double 1%positive (studio 1) = Some (tt, s1)
    ∧ ModuleMixDown_meta_process 1 to_double 1%positive s1 = Some (tt, s2)
    ∧ (data_at s1 <$> collected s1 1%positive)
      = [Some [1%R; 1%R]; Some [1%R; 1%R]]
    ∧ output s1 1%positive = Some [2%R; 2%R]
    ∧ (data_at s2 <$> collected s2 1%positive)
      = [Some [1%R; 1%R]; Some [1%R; 1%R]; Some [1%R; 1%R]; Some [1%R; 1%R]]
    ∧ take 2 (collected s2 1%positive) = collected s1 1%positive
    ∧ output s2 1%positive = Some [4%R; 4%R].
Proof.
  destruct (ModuleMixDown_meta_process 1 to_double 1%positive (studio 1))
    as [[[] s1]|] eqn:H1; [|vm_compute in H1; discriminate].
  destruct (ModuleMixDown_meta_process 1 to_double 1%positive s1)
    as [[[] s2]|] eqn:H2;
    [|vm_compute in H1; injection H1 as <-; vm_compute in H2; discriminate].
  exists s1, s2. do 2 (split; [done|]).
  vm_compute in H1. injection H1 as <-.
  vm_compute in H2. injection H2 as <-.
  vm_compute. repeat split; repeat f_equal; lra.
Qed.

Lemma step_envelope_switches_at_k_witness :
  Envelope.shape step_at_348 = Envelope.SetValue
  ∧ (0 < Envelope.nano_frame clock_1000)%Z
  ∧ Envelope.stop_time step_at_348
    = Envelope.time_of clock_1000 (Envelope.sample clock_1000 + 348)
  ∧ (Envelope.fill step_at_348 1000 clock_1000).1 !! 347 = Some 0%R
  ∧ (Envelope.fill step_at_348 1000 clock_1000).1 !! 348 = Some 1%R.
Proof.
  assert (Hnf : (0 < Envelope.nano_frame clock_1000)%Z) by reflexivity.
  split; [reflexivity|]. split; [exact Hnf|]. split; [reflexivity|].
  destruct (step_envelope_switches_at_k step_at_348 clock_1000 348 1000
              eq_refl Hnf eq_refl) as [_ H].
  split.
  - destruct (H 347) as (_ & Hlow & _); [lia|]. apply Hlow. lia.
  - destruct (H 348) as (_ & _ & Hhigh); [lia|]. apply Hhigh. lia.
Defined.

Lemma chain_of_three_constants_witness :
  let c0 := Envelope.mkChainEnvelope [constant_5; constant_20; constant_30] 0
              (Envelope.set_samplerate 100 (Envelope.mkChainTimer 0 0)) in
  Envelope.stop_time constant_5 = (Z.of_nat (1 * 100) * 10000000)%Z
  ∧ Envelope.stop_time constant_20 = (Z.of_nat (2 * 100) * 10000000)%Z
  ∧ Envelope.stop_time constant_30 = (Z.of_nat (3 * 100) * 10000000)%Z
  ∧ (Envelope.pull 3 100 c0).1
    = [replicate 100 5%R; replicate 100 20%R; replicate 100 30%R]
  ∧ (Envelope.process 300 c0).1
    = replicate 100 5%R ++ replicate 100 20%R ++ replicate 100 30%R.
Proof.
  intros c0.
  assert (H1 : Envelope.stop_time constant_5 = (Z.of_nat (1 * 100) * 10000000)%Z)
    by reflexivity.
  assert (H2 : Envelope.stop_time constant_20 = (Z.of_nat (2 * 100) * 10000000)%Z)
    by reflexivity.
  assert (H3 : Envelope.stop_time constant_30 = (Z.of_nat (3 * 100) * 10000000)%Z)
    by reflexivity.
  do 3 (split; [assumption|]).
  exact (chain_of_three_constants constant_5 constant_20 constant_30
           100 1 2 3 10000000
           eq_refl eq_refl eq_refl eq_refl eq_refl eq_refl
           eq_refl ltac:(lia) ltac:(lia) ltac:(lia) ltac:(lia)
           eq_refl H1 eq_refl H2 eq_refl H3).
Defined.

Lemma averages_defined_iff_processed_witness :
  let cs := [Latency.Meta_process (Latency.mkOperation 7 7 440);
             Latency.Do_reset;
             Latency.Meta_process (Latency.mkOperation 10 1 440);
             Latency.Meta_process (Latency.mkOperation 21 3 440)] in
  (Z.of_nat (length cs) < 2 ^ 31)%Z
  ∧ Latency.average_time Latency.new = None
  ∧ Latency.processed (Latency.play cs Latency.new) = 2%Z
  ∧ Latency.average_time (Latency.play cs Latency.new) = Some 19%Z
  ∧ Latency.average_latency (Latency.play cs Latency.new) = Some 5%Z.
Proof.
  intros cs.
  assert (Hn : (Z.of_nat (length cs) < 2 ^ 31)%Z) by reflexivity.
  split; [exact Hn|].
  destruct (averages_defined_iff_processed cs Hn)
    as (_ & _ & Hp & _ & _ & Hq).
  split; [reflexivity|]. split; [exact Hp|].
  destruct Hq as [Ht Hl]; [discriminate|].
  split; [exact Ht|exact Hl].
Defined.

(** C10 as stated does not hold: that a meta_process() has completed does
    not make the divisor positive.  After one completed meta_process() and a
    reset(), processed() is 0 and average_time() divides by zero. *)
Lemma average_undefined_after_completed_meta_process :
  ¬ ∀ cs : list Latency.Call,
      is_Some (Latency.average_time (Latency.play cs Latency.new))
      ↔ ∃ o, Latency.Meta_process o ∈ cs.
Proof.
  intros H.
  destruct (proj2 (H [Latency.Meta_process (Latency.mkOperation 10 1 440);
                      Latency.Do_reset])) as [x Hx].
  - exists (Latency.mkOperation 10 1 440). apply elem_of_cons. by left.
  - discriminate.
Qed.
(** * sinc and percent_diff *)

Lemma sin_between (x : R) : (0 <= x)%R → (- x <= sin x <= x)%R.
Proof.
  intros Hx. split.
  - destruct (Rle_dec x 1) as [H1|H1].
    + pose proof PI2_1. assert (0 <= sin x)%R by (apply sin_ge_0; lra). lra.
    + pose proof (SIN_bound x). lra.
  - destruct Hx as [Hx| <-]; [left; by apply sin_lt_x|].
    rewrite sin_0. lra.
Qed.

Lemma sin_le_abs (x : R) : (Rabs (sin x) <= Rabs x)%R.
Proof.
  destruct (Rle_dec 0 x) as [Hx|Hx].
  - rewrite (Rabs_right x) by lra. apply Rabs_le. by apply sin_between.
  - rewrite (Rabs_left x) by lra. apply Rabs_le.
    pose proof (sin_between (- x)) as H. rewrite sin_neg in H. lra.
Qed.

(** X16.  sinc is even and lies under both 1 and 1/|x|: for [x] other than
    0, sinc(x) and sinc(-x) are the same number [y], with |y| <= 1 and
    |y| <= 1/|x|. *)
Theorem sinc_even_and_bounded (x : R) :
  x ≠ 0%R →
  ∃ y, sinc x = Some y
       ∧ sinc (- x) = Some y
       ∧ (Rabs y <= 1)%R
       ∧ (Rabs y <= / Rabs x)%R.
Proof.
  intros Hx. exists (sin x / x)%R. unfold sinc.
  destruct (Req_dec_T x 0) as [|_]; [done|].
  destruct (Req_dec_T (- x) 0) as [E|_]; [lra|].
  assert (Hax : (0 < Rabs x)%R) by (by apply Rabs_pos_lt).
  split; [done|]. split.
  { f_equal. rewrite sin_neg. by field. }
  unfold Rdiv. rewrite Rabs_mult, Rabs_inv.
  pose proof (Rinv_0_lt_compat _ Hax) as Hinv.
  split.
  - apply (Rmult_le_reg_r (Rabs x)); [done|].
    rewrite Rmult_assoc, Rinv_l by lra.
    pose proof (sin_le_abs x). lra.
  - pose proof (SIN_bound x) as [Hlo Hhi].
    assert (Rabs (sin x) <= 1)%R by (apply Rabs_le; lra).
    rewrite <- (Rmult_1_l (/ Rabs x)) at 2.
    apply Rmult_le_compat_r; lra.
Qed.

(** X17.  sinc is zero at every multiple of pi other than 0. *)
Theorem sinc_zero_crossings (k : Z) :
  k ≠ 0%Z → sinc (IZR k * PI) = Some 0%R.
Proof.
  intros Hk. unfold sinc.
  assert (Hne : (IZR k * PI)%R ≠ 0%R).
  { apply Rmult_integral_contrapositive_currified.
    - by apply not_0_IZR.
    - pose proof PI_RGT_0. lra. }
  destruct (Req_dec_T (IZR k * PI) 0) as [|_]; [done|].
  f_equal. rewrite (sin_eq_0_1 (IZR k * PI)) by (by exists k).
  unfold Rdiv. apply Rmult_0_l.
Qed.

(** X18.  percent_diff cannot tell which argument is the larger: for
    positive arguments it gives the same number in both orders, at least 0
    and at most 200. *)
Theorem percent_diff_symmetric (a b : R) :
  (0 < a)%R → (0 < b)%R →
  ∃ y, percent_diff a b = Some y
       ∧ percent_diff b a = Some y
       ∧ (0 <= y <= 200)%R.
Proof.
  intros Ha Hb. unfold percent_diff.
  destruct (Req_dec_T (a + b) 0) as [E|_]; [lra|].
  destruct (Req_dec_T (b + a) 0) as [E|_]; [lra|].
  eexists. split; [reflexivity|]. split.
  { f_equal. rewrite (Rabs_minus_sym a b), (Rplus_comm b a). reflexivity. }
  assert (Hs : (0 < a + b)%R) by lra.
  assert (Hd : (0 <= Rabs (b - a) < a + b)%R).
  { split; [apply Rabs_pos|]. apply Rabs_def1; lra. }
  replace (Rabs (b - a) / ((a + b) / 2) * 100)%R
    with (200 * (Rabs (b - a) / (a + b)))%R by (by field; lra).
  assert (Hq : (0 <= Rabs (b - a) / (a + b) < 1)%R).
  { split.
    - apply Rmult_le_pos; [lra|]. left. by apply Rinv_0_lt_compat.
    - apply (Rmult_lt_reg_r (a + b)); [done|].
      unfold Rdiv. rewrite Rmult_assoc, Rinv_l by lra. lra. }
  lra.
Qed.
(** * WaveReader::start *)

Lemma stream_read_run (n : nat) (bs : list Wav.byte) :
  n ≤ length bs → Wav.stream_read n bs = Some (take n bs, drop n bs).
Proof. intros Hn. unfold Wav.stream_read. by rewrite decide_True. Qed.

Lemma stream_read_drop (n k : nat) (bs : list Wav.byte) :
  k + n ≤ length bs →
  Wav.stream_read n (drop k bs) = Some (take n (drop k bs), drop (k + n) bs).
Proof.
  intros Hn. rewrite stream_read_run by (rewrite length_drop; lia).
  by rewrite drop_drop.
Qed.

(** X19.  WaveReader::start takes the first 36 bytes of any stream as a
    header and never refuses one: whatever the bytes are, it completes, with
    the size taken from offset 4, the format from 20, the channels from 22,
    the sample rate from 24, the byte rate from 28, the block alignment from
    32 and the bits per sample from 34, and with the stream at offset 36.
    The chunk ids at offsets 0 and 12, the format tag at 8 and the size of
    the format chunk at 16 are read and decide nothing. *)
Theorem wave_start_reads_fixed_offsets
    (u16 u32 : list Wav.byte → Z) (r : Wav.WaveReader) :
  36 ≤ length (Wav.stream r) →
  Wav.start u16 u32 r
  = Some (Wav.mkWaveReader
            (drop 36 (Wav.stream r))
            (u32 (take 4 (drop 4 (Wav.stream r))))
            (u16 (take 2 (drop 20 (Wav.stream r))))
            (u16 (take 2 (drop 22 (Wav.stream r))))
            (u32 (take 4 (drop 24 (Wav.stream r))))
            (u32 (take 4 (drop 28 (Wav.stream r))))
            (u16 (take 2 (drop 32 (Wav.stream r))))
            (u16 (take 2 (drop 34 (Wav.stream r))))).
Proof.
  intros Hlen. set (bs := Wav.stream r) in *.
  unfold Wav.start, Wav.read_wave_header, Wav.read_format_chunk,
    Wav.read_chunk_header.
  fold bs.
  rewrite (stream_read_run 4 bs) by lia. cbn [mbind option_bind].
  rewrite (stream_read_drop 4 4 bs) by lia. cbn [mbind option_bind Nat.add].
  rewrite (stream_read_drop 4 8 bs) by lia. cbn [mbind option_bind Nat.add].
  rewrite (stream_read_drop 4 12 bs) by lia. cbn [mbind option_bind Nat.add].
  rewrite (stream_read_drop 4 16 bs) by lia. cbn [mbind option_bind Nat.add].
  rewrite (stream_read_drop 2 20 bs) by lia. cbn [mbind option_bind Nat.add].
  rewrite (stream_read_drop 2 22 bs) by lia. cbn [mbind option_bind Nat.add].
  rewrite (stream_read_drop 4 24 bs) by lia. cbn [mbind option_bind Nat.add].
  rewrite (stream_read_drop 4 28 bs) by lia. cbn [mbind option_bind Nat.add].
  rewrite (stream_read_drop 2 32 bs) by lia. cbn [mbind option_bind Nat.add].
  rewrite (stream_read_drop 2 34 bs) by lia. cbn [mbind option_bind Nat.add].
  reflexivity.
Qed.
(** * AudioModule::meta_start *)

Lemma meta_start_S_source (start : addr → M unit) (fuel : nat) (s : Store)
    (a : addr) (m : AudioModule) (w : Wave) (f : R) (ph : Z) (sr : R) :
  mods s !! a = Some m →
  derived m = Oscillator w f ph sr →
  meta_start start (S fuel) a s = start a s.
Proof.
  intros Hm Hk. cbn [meta_start].
  by rewrite (bind_run _ _ _ _ _ (get_module_run _ _ _ Hm)), Hk.
Qed.

Lemma meta_start_S_plain (start : addr → M unit) (fuel : nat) (s : Store)
    (a back : addr) (m : AudioModule) :
  mods s !! a = Some m →
  derived m = Plain →
  backward m = Some back →
  meta_start start (S fuel) a s
  = (meta_start start fuel back;;
     m1 ← get_module a;
     back1 ← lift_option (backward m1);
     mb ← get_module back1;
     put_module a (with_info m1 (info mb));;
     start a) s.
Proof.
  intros Hm Hk Hb. cbn [meta_start].
  rewrite (bind_run _ _ _ _ _ (get_module_run _ _ _ Hm)), Hk.
  erewrite bind_run; [|apply lift_option_Some; split; [exact Hb|reflexivity]].
  reflexivity.
Qed.

Lemma outline_parts (x y : option AudioModule) :
  outline <$> x = outline <$> y →
  backward <$> x = backward <$> y ∧ info <$> x = info <$> y.
Proof.
  destruct x as [mx|], y as [my|]; simpl; try done.
  unfold outline. intros [= Hb Hi]. by rewrite Hb, Hi.
Qed.

(** X20.  meta_start() carries the info record of the source to the front:
    on a line of distinct plain modules [l] that ends in an oscillator [src],
    with a start() hook that completes and leaves the backward links and the
    info records alone, meta_start() of the front module completes within a
    recursion depth of one more than the number of plain modules, and then
    every module of the line has the info record of the source.  The
    backward links are as before, and so is the info record of every module
    outside the line. *)
Theorem meta_start_spreads_info
    (start : addr → M unit) (src : addr) (msrc : AudioModule)
    (w : Wave) (f : R) (ph : Z) (sr : R) (s : Store) (l : list addr) :
  keeps_outline start →
  mods s !! src = Some msrc →
  derived msrc = Oscillator w f ph sr →
  NoDup (l ++ [src]) →
  line s l src →
  ∃ s',
    meta_start start (S (length l)) (hd src l) s = Some (tt, s')
    ∧ (∀ x, x ∈ l ++ [src] → info <$> mods s' !! x = Some (info msrc))
    ∧ (∀ x, backward <$> mods s' !! x = backward <$> mods s !! x)
    ∧ (∀ x, x ∉ l → info <$> mods s' !! x = info <$> mods s !! x).
Proof.
  intros Hhook Hsrc Hk. induction l as [|a l IH]; intros Hnd Hline.
  - destruct (Hhook src s) as (s' & Hrun & Hout); [by rewrite Hsrc|].
    exists s'.
    split; [by rewrite (meta_start_S_source _ _ _ _ _ _ _ _ _ Hsrc Hk)|].
    assert (Hparts := λ x, outline_parts _ _ (Hout x)).
    split.
    { intros x ->%list_elem_of_singleton.
      destruct (Hparts src) as (_ & ->). by rewrite Hsrc. }
    split; [intros x; by destruct (Hparts x)|].
    intros x _. by destruct (Hparts x) as (_ & ?).
  - destruct Hline as [(ma & Ha & Hka & Hba) Hline].
    change ((a :: l) ++ [src]) with (a :: (l ++ [src])) in *.
    apply NoDup_cons in Hnd as [Hnotin Hnd].
    set (back := hd src l) in *.
    assert (Hback_in : back ∈ l ++ [src]).
    { subst back. destruct l; simpl; apply elem_of_cons; by left. }
    assert (Hal : a ∉ l).
    { intros Hin. apply Hnotin, elem_of_app. by left. }
    destruct (IH Hnd Hline) as (s1 & Hrun & Hinfo & Hback & Hframe).
    (* the module itself after the recursion *)
    destruct (mods s1 !! a) as [m1|] eqn:Ha1.
    2:{ specialize (Hback a). rewrite Ha1, Ha in Hback. discriminate. }
    assert (Hb1 : backward m1 = Some back).
    { specialize (Hback a). rewrite Ha1, Ha in Hback. simpl in Hback. congruence. }
    (* its predecessor after the recursion *)
    destruct (mods s1 !! back) as [mb|] eqn:Hmb.
    2:{ specialize (Hinfo back Hback_in). rewrite Hmb in Hinfo. discriminate. }
    assert (Hib : info mb = info msrc).
    { specialize (Hinfo back Hback_in). rewrite Hmb in Hinfo. simpl in Hinfo.
      congruence. }
    set (s2 := with_mods s1 (<[a := with_info m1 (info mb)]> (mods s1))).
    destruct (Hhook a s2) as (s3 & Hstart & Hout).
    { subst s2. simpl. by rewrite lookup_insert_eq. }
    assert (Hparts := λ x, outline_parts _ _ (Hout x)).
    exists s3. split.
    { cbn [length hd].
      rewrite (meta_start_S_plain _ _ _ _ _ _ Ha Hka Hba).
      fold back. rewrite (bind_run _ _ _ _ _ Hrun).
      rewrite (bind_run _ _ _ _ _ (get_module_run _ _ _ Ha1)).
      erewrite bind_run; [|apply lift_option_Some; split; [exact Hb1|reflexivity]].
      rewrite (bind_run _ _ _ _ _ (get_module_run _ _ _ Hmb)).
      exact Hstart. }
    split.
    { intros x Hx. destruct (Hparts x) as (_ & ->). subst s2. simpl.
      apply elem_of_cons in Hx as [->|Hx].
      - rewrite lookup_insert_eq. simpl. by rewrite Hib.
      - rewrite lookup_insert_ne by (intros ->; by apply Hnotin).
        by apply Hinfo. }
    split.
    { intros x. destruct (Hparts x) as (-> & _). subst s2. simpl.
      destruct (decide (x = a)) as [->|Hxa].
      - rewrite lookup_insert_eq, Ha. simpl. by rewrite Hb1, Hba.
      - rewrite lookup_insert_ne by done. apply Hback. }
    intros x Hx. apply not_elem_of_cons in Hx as [Hxa Hxl].
    destruct (Hparts x) as (_ & ->). subst s2. simpl.
    rewrite lookup_insert_ne by done. by apply Hframe.
Qed.

(** * AudioModule::meta_stop *)

Lemma for_each_snoc {A} (xs : list A) (x : A) (body : A → M unit) (s : Store) :
  for_each (xs ++ [x]) body s = (for_each xs body;; body x) s.
Proof.
  revert s. induction xs as [|y xs IH]; intros s; simpl.
  - unfold mbind, M_bind, mret, M_ret.
    destruct (body x s) as [[[] s']|]; reflexivity.
  - unfold mbind, M_bind in *. destruct (body y s) as [[[] s1]|]; [|reflexivity].
    apply IH.
Qed.

Lemma meta_stop_S_plain (stop : addr → M unit) (fuel : nat) (s : Store)
    (a back : addr) (m : AudioModule) :
  mods s !! a = Some m →
  derived m = Plain →
  backward m = Some back →
  meta_stop stop (S fuel) a s = (meta_stop stop fuel back;; stop a) s.
Proof.
  intros Hm Hk Hb. cbn [meta_stop].
  rewrite (bind_run _ _ _ _ _ (get_module_run _ _ _ Hm)), Hk.
  erewrite bind_run; [|apply lift_option_Some; split; [exact Hb|reflexivity]].
  reflexivity.
Qed.

(** X21.  meta_stop() stops a chain from the back: on a line of plain
    modules [l] that ends in an oscillator [src], meta_stop() of the front
    module does what running the stop() hooks one after the other does,
    first that of the source, last that of the front module, each once,
    whatever the hooks do. *)
Theorem meta_stop_runs_hooks_back_to_front
    (stop : addr → M unit) (src : addr) (msrc : AudioModule)
    (w : Wave) (f : R) (ph : Z) (sr : R) (s : Store) (l : list addr) :
  mods s !! src = Some msrc →
  derived msrc = Oscillator w f ph sr →
  line s l src →
  meta_stop stop (S (length l)) (hd src l) s
  = for_each (src :: rev l) stop s.
Proof.
  intros Hsrc Hk. induction l as [|a l IH]; intros Hline.
  - cbn [meta_stop length hd rev for_each].
    rewrite (bind_run _ _ _ _ _ (get_module_run _ _ _ Hsrc)), Hk.
    unfold SourceModule_meta_stop, mbind, M_bind, mret, M_ret.
    destruct (stop src s) as [[[] s']|]; reflexivity.
  - destruct Hline as [(ma & Ha & Hka & Hba) Hline].
    specialize (IH Hline).
    change (rev (a :: l)) with (rev l ++ [a]).
    change (src :: rev l ++ [a]) with ((src :: rev l) ++ [a]).
    rewrite for_each_snoc.
    cbn [length hd].
    rewrite (meta_stop_S_plain _ _ _ _ _ _ Ha Hka Hba).
    unfold mbind, M_bind. by rewrite IH.
Qed.
(** * The statements on the small graphs *)



Lemma oscillator_block_bounded_witness :
  mods (rack) !! 9%positive = Some rack_square
  ∧ derived rack_square = Oscillator Square 1 0 4
  ∧ 0 < 2
  ∧ 4%R ≠ 0%R
  ∧ (- 2 ^ 31 ≤ 0)%Z
  ∧ (0 + Z.of_nat (out_buffer (info rack_square) * 2) ≤ 2 ^ 31 - 1)%Z
  ∧ (Square = Sine ∨ Square = Square
     ∨ ((0 <= 1)%R ∧ (0 < 4)%R ∧ (0 ≤ 0)%Z
        ∧ ∀ x, (0 <= x)%R → (0 <= exact_conversion x)%R))
  ∧ ∃ s' q b,
      process 2 exact_conversion 9%positive rack = Some (tt, s')
      ∧ heap s' !! q = Some b
      ∧ size b = 2 * 2
      ∧ Forall (λ x, (-1 <= x <= 1)%R) (buf_data b).
Proof.
  assert (Hsr : 4%R ≠ 0%R) by lra.
  assert (Hlo : (- 2 ^ 31 ≤ 0)%Z) by lia.
  assert (Hhi : (0 + Z.of_nat (out_buffer (info rack_square) * 2) ≤ 2 ^ 31 - 1)%Z)
    by (vm_compute; discriminate).
  assert (Hw : Square = Sine ∨ Square = Square
               ∨ ((0 <= 1)%R ∧ (0 < 4)%R ∧ (0 ≤ 0)%Z
                  ∧ ∀ x, (0 <= x)%R → (0 <= exact_conversion x)%R))
    by (right; left; reflexivity).
  split; [reflexivity|]. split; [reflexivity|]. split; [lia|].
  split; [exact Hsr|]. split; [exact Hlo|]. split; [exact Hhi|]. split; [exact Hw|].
  destruct (oscillator_block_bounded 2 exact_conversion rack 9%positive rack_square
              Square 1 0 4 eq_refl eq_refl (le_S 1 1 (le_n 1)) Hsr Hlo Hhi Hw)
    as (s' & q & b & Hrun & _ & Hb & Hsize & Hall).
  exists s', q, b. repeat split; assumption.
Defined.

Lemma mixdown_process_sums_samples_witness :
  mods bench !! 1%positive
  = Some (mkAudioModule None None None (mkModuleInfo 2) None
            (MixDown [] [Some 1%positive; Some 2%positive]))
  ∧ Forall2 (λ p d, data_at bench p = Some d)
      [Some 1%positive; Some 2%positive] [[1%R; 1%R]; [3%R]]
  ∧ Forall (λ d, length d ≤ 2 * 1) [[1%R; 1%R]; [3%R]]
  ∧ ∃ s' r,
      ModuleMixDown_process 1 1%positive bench = Some (tt, s')
      ∧ output s' 1%positive = Some r
      ∧ r !! 0 = Some (sample_sum [[1%R; 1%R]; [3%R]] 0)
      ∧ r !! 1 = Some (sample_sum [[1%R; 1%R]; [3%R]] 1).
Proof.
  assert (H2 : Forall2 (λ p d, data_at bench p = Some d)
                 [Some 1%positive; Some 2%positive] [[1%R; 1%R]; [3%R]])
    by (repeat constructor).
  assert (H3 : Forall (λ d, length d ≤ 2 * 1) [[1%R; 1%R]; [3%R]])
    by (repeat constructor).
  split; [reflexivity|]. split; [exact H2|]. split; [exact H3|].
  destruct (mixdown_process_sums_samples 1 bench 1%positive _ [] _ _
              eq_refl eq_refl H2 H3)
    as (s' & r & Hrun & _ & Hout & _ & Hsum & _).
  exists s', r. do 2 (split; [assumption|]).
  split; [exact (Hsum 0 (le_S 1 1 (le_n 1)))|exact (Hsum 1 (le_n 2))].
Defined.

Lemma mixdown_process_fails_on_null_or_oversize_witness :
  mods bench !! 3%positive
  = Some (mkAudioModule None None None (mkModuleInfo 2) None (MixDown [] [None]))
  ∧ Exists (λ p, p = None
                 ∨ ∃ d, data_at bench p = Some d ∧ 2 * 1 < length d) [None]
  ∧ ModuleMixDown_process 1 3%positive bench = None.
Proof.
  assert (Hex : Exists (λ p, p = None
                             ∨ ∃ d, data_at bench p = Some d ∧ 2 * 1 < length d)
                  [@None positive])
    by (constructor; left; reflexivity).
  split; [reflexivity|]. split; [exact Hex|].
  exact (mixdown_process_fails_on_null_or_oversize 1 bench 3%positive _ [] [None]
           eq_refl eq_refl Hex).
Defined.

Lemma mixdown_bind_appends_inputs_witness :
  mods (studio 1) !! 1%positive = Some studio_mixdown
  ∧ derived studio_mixdown = MixDown [2%positive; 4%positive] []
  ∧ ∃ s',
      for_each [3%positive; 5%positive] (ModuleMixDown_bind 1%positive) (studio 1)
      = Some (tt, s')
      ∧ mods s' !! 1%positive
        = Some (with_derived studio_mixdown
                  (MixDown ([2%positive; 4%positive] ++ [3%positive; 5%positive]) []))
      ∧ mods s' !! 3%positive = mods (studio 1) !! 3%positive.
Proof.
  split; [reflexivity|]. split; [reflexivity|].
  destruct (mixdown_bind_appends_inputs [3%positive; 5%positive] (studio 1)
              1%positive studio_mixdown [2%positive; 4%positive] [] eq_refl eq_refl)
    as (s' & Hrun & Hthis & Hoth & _).
  exists s'. do 2 (split; [assumption|]).
  apply Hoth. discriminate.
Defined.

Lemma mixdown_collected_grows_witness :
  mods (studio 1) !! 1%positive = Some studio_mixdown
  ∧ derived studio_mixdown = MixDown [2%positive; 4%positive] []
  ∧ ∃ s',
      for_each (replicate 2 1%positive) (ModuleMixDown_meta_process 1 exact_conversion)
        (studio 1)
      = Some (tt, s')
      ∧ ∃ new, collected s' 1%positive = [] ++ new ∧ length new = 2 * 2.
Proof.
  split; [reflexivity|]. split; [reflexivity|].
  destruct (for_each (replicate 2 1%positive) (ModuleMixDown_meta_process 1 exact_conversion)
        (studio 1))
    as [[[] s']|] eqn:Hrun; [|vm_compute in Hrun; discriminate].
  exists s'. split; [reflexivity|].
  exact (mixdown_collected_grows 1 exact_conversion 2 (studio 1) s' 1%positive studio_mixdown
           [2%positive; 4%positive] [] eq_refl eq_refl Hrun).
Defined.

Lemma mixup_get_buffer_pads_witness :
  mods (studio 2) !! 2%positive = Some studio_mixup_a
  ∧ buff studio_mixup_a = Some 1%positive
  ∧ heap (studio 2) !! 1%positive = Some ones
  ∧ size ones ≤ 2 * 2
  ∧ ∃ p s',
      ModuleMixUp_get_buffer 2 2%positive (studio 2) = Some (Some p, s')
      ∧ heap s' !! p
        = Some (mkAudioBuffer 2 2 (buf_data ones ++ replicate (2 * 2 - size ones) 0%R)).
Proof.
  assert (Hsz : size ones ≤ 2 * 2) by (vm_compute; lia).
  split; [reflexivity|]. split; [reflexivity|]. split; [reflexivity|].
  split; [exact Hsz|].
  destruct (mixup_get_buffer_pads 2 (studio 2) 2%positive studio_mixup_a 1%positive
              ones eq_refl eq_refl eq_refl Hsz)
    as (p & s' & Hrun & _ & Hp & _).
  exists p, s'. split; assumption.
Defined.

Lemma mixup_get_buffer_fails_witness :
  mods bench !! 2%positive
  = Some (mkAudioModule None None None (mkModuleInfo 2) None (MixUp []))
  ∧ ModuleMixUp_get_buffer 1 2%positive bench = None.
Proof.
  split; [reflexivity|].
  exact (mixup_get_buffer_fails 1 bench 2%positive _ eq_refl (or_introl eq_refl)).
Defined.




Lemma rack_line : line rack [7%positive; 8%positive] 9%positive.
Proof.
  split; [exists rack_front; by repeat split|].
  split; [exists rack_middle; by repeat split|]. exact I.
Defined.

Lemma rack_distinct : NoDup ([7%positive; 8%positive] ++ [9%positive]).
Proof.
  repeat constructor; rewrite ?elem_of_cons, ?elem_of_nil; intuition discriminate.
Defined.


Lemma behind_has_link (s : Store) (i p : addr) :
  behind s i p → ∃ m q, mods s !! i = Some m ∧ backward m = Some q.
Proof. induction 1; eauto. Qed.

Lemma meta_process_needs_a_source_witness :
  (∀ x, x = 5%positive ∨ behind (studio 1) 5%positive x →
        ∃ m, mods (studio 1) !! x = Some m
             ∧ (derived m = Plain ∨ ∃ out, derived m = MixUp out))
  ∧ meta_process 1 exact_conversion 4 5%positive (studio 1) = None.
Proof.
  assert (Hall : ∀ x, x = 5%positive ∨ behind (studio 1) 5%positive x →
                      ∃ m, mods (studio 1) !! x = Some m
                           ∧ (derived m = Plain ∨ ∃ out, derived m = MixUp out)).
  { intros x [->|Hb].
    - exists studio_plain. split; [reflexivity|by left].
    - apply behind_has_link in Hb as (m & q & Hm & Hq).
      injection Hm as <-. discriminate. }
  split; [exact Hall|].
  exact (meta_process_needs_a_source 1 exact_conversion (studio 1) 5%positive Hall 4).
Defined.



Lemma sinc_even_and_bounded_witness :
  1%R ≠ 0%R
  ∧ ∃ y, sinc 1 = Some y ∧ sinc (- 1) = Some y ∧ (Rabs y <= 1)%R.
Proof.
  split; [lra|].
  destruct (sinc_even_and_bounded 1 R1_neq_R0) as (y & H1 & H2 & H3 & _).
  exists y. repeat split; assumption.
Defined.

Lemma sinc_zero_crossings_witness :
  2%Z ≠ 0%Z ∧ sinc (IZR 2 * PI) = Some 0%R.
Proof.
  assert (H : 2%Z ≠ 0%Z) by discriminate.
  split; [exact H|]. exact (sinc_zero_crossings 2 H).
Defined.

Lemma percent_diff_symmetric_witness :
  (0 < 1)%R ∧ (0 < 3)%R
  ∧ ∃ y, percent_diff 1 3 = Some y ∧ percent_diff 3 1 = Some y ∧ (0 <= y <= 200)%R.
Proof.
  assert (H1 : (0 < 1)%R) by lra. assert (H3 : (0 < 3)%R) by lra.
  split; [exact H1|]. split; [exact H3|].
  exact (percent_diff_symmetric 1 3 H1 H3).
Defined.

Lemma wave_start_reads_fixed_offsets_witness :
  36 ≤ length plain_header
  ∧ ∃ r, Wav.start Wav.little_endian Wav.little_endian
           (Wav.mkWaveReader plain_header 0 0 0 0 0 0 0) = Some r
         ∧ Wav.channels r = 2%Z
         ∧ Wav.bits_per_sample r = 16%Z
         ∧ Wav.stream r = [].
Proof.
  assert (Hlen : 36 ≤ length plain_header) by (vm_compute; lia).
  split; [exact Hlen|].
  eexists. split.
  - exact (wave_start_reads_fixed_offsets Wav.little_endian Wav.little_endian
             (Wav.mkWaveReader plain_header 0 0 0 0 0 0 0) Hlen).
  - repeat split.
Defined.

Lemma no_hook_keeps_outline : keeps_outline no_hook.
Proof. intros a s _. by exists s. Defined.

Lemma meta_start_spreads_info_witness :
  keeps_outline no_hook
  ∧ mods rack !! 9%positive = Some rack_square
  ∧ derived rack_square = Oscillator Square 1 0 4
  ∧ NoDup ([7%positive; 8%positive] ++ [9%positive])
  ∧ line rack [7%positive; 8%positive] 9%positive
  ∧ ∃ s',
      meta_start no_hook 3 7%positive rack = Some (tt, s')
      ∧ info <$> mods s' !! 7%positive = Some (mkModuleInfo 2)
      ∧ info <$> mods s' !! 8%positive = Some (mkModuleInfo 2).
Proof.
  split; [exact no_hook_keeps_outline|]. do 2 (split; [reflexivity|]).
  split; [exact rack_distinct|]. split; [exact rack_line|].
  destruct (meta_start_spreads_info no_hook 9%positive rack_square Square 1 0 4
              rack [7%positive; 8%positive] no_hook_keeps_outline eq_refl eq_refl
              rack_distinct rack_line)
    as (s' & Hrun & Hinfo & _).
  exists s'. split; [assumption|].
  split; apply Hinfo; rewrite !elem_of_app, !elem_of_cons; tauto.
Defined.

Lemma meta_stop_runs_hooks_back_to_front_witness :
  mods rack !! 9%positive = Some rack_square
  ∧ derived rack_square = Oscillator Square 1 0 4
  ∧ line rack [7%positive; 8%positive] 9%positive
  ∧ meta_stop no_hook 3 7%positive rack
    = for_each [9%positive; 8%positive; 7%positive] no_hook rack.
Proof.
  do 2 (split; [reflexivity|]). split; [exact rack_line|].
  exact (meta_stop_runs_hooks_back_to_front no_hook 9%positive rack_square
           Square 1 0 4 rack [7%positive; 8%positive] eq_refl eq_refl rack_line).
Defined.


Lemma mixdown_cycle_needs_blocks_witness :
  mods idle !! 1%positive = Some idle_mixdown
  ∧ derived idle_mixdown = MixDown [2%positive] []
  ∧ 2%positive ∈ [2%positive]
  ∧ mods idle !! 2%positive = Some idle_input
  ∧ buff idle_input = None
  ∧ ModuleMixDown_meta_process 1 exact_conversion 1%positive idle = None.
Proof.
  assert (Hin : 2%positive ∈ [2%positive]) by (apply elem_of_cons; by left).
  do 2 (split; [reflexivity|]). split; [exact Hin|]. do 2 (split; [reflexivity|]).
  apply (mixdown_cycle_needs_blocks 1 exact_conversion idle 1%positive 2%positive idle_mixdown
           idle_input [2%positive] [] eq_refl eq_refl Hin);
    [discriminate|reflexivity..].
Defined.

Lemma studio_blocks :
  Forall2 (input_block (studio 1) 2) [2%positive; 4%positive] [[1%R; 1%R]; [1%R; 1%R]].
Proof.
  constructor; [exists studio_mixup_a, [], 1%positive, ones; by repeat split|].
  constructor; [exists studio_mixup_b, [], 2%positive, ones; by repeat split|].
  constructor.
Defined.

Lemma mixdown_mixes_retained_blocks_witness :
  mods (studio 1) !! 1%positive = Some studio_mixdown
  ∧ derived studio_mixdown = MixDown [2%positive; 4%positive] []
  ∧ (1%positive ∉ [2%positive; 4%positive])
  ∧ Forall2 (input_block (studio 1) 2) [2%positive; 4%positive]
      [[1%R; 1%R]; [1%R; 1%R]]
  ∧ Forall (λ d, length d = 2 * 1) [[1%R; 1%R]; [1%R; 1%R]]
  ∧ ∃ s' r,
      ModuleMixDown_meta_process 1 exact_conversion 1%positive (studio 1) = Some (tt, s')
      ∧ output s' 1%positive = Some r
      ∧ r !! 0 = Some (sample_sum [[1%R; 1%R]; [1%R; 1%R]] 0)
      ∧ mods s' !! 2%positive = mods (studio 1) !! 2%positive.
Proof.
  assert (Hnin : 1%positive ∉ [2%positive; 4%positive]).
  { rewrite !not_elem_of_cons. repeat split; try discriminate.
    apply not_elem_of_nil. }
  assert (Hlens : Forall (λ d, length d = 2 * 1) [[1%R; 1%R]; [1%R; 1%R]])
    by (repeat constructor).
  do 2 (split; [reflexivity|]). split; [exact Hnin|].
  split; [exact studio_blocks|]. split; [exact Hlens|].
  destruct (mixdown_mixes_retained_blocks 1 exact_conversion (studio 1) 1%positive
              studio_mixdown
              [2%positive; 4%positive] _ eq_refl eq_refl Hnin studio_blocks Hlens)
    as (s' & r & Hrun & Hout & _ & Hsum & Hoth & _).
  exists s', r. do 2 (split; [assumption|]).
  split; [exact (Hsum 0 (le_S 1 1 (le_n 1)))|].
  apply Hoth. discriminate.
Defined.

(** * The period of the oscillators *)

Lemma frac_part_plus_nat (x : R) (k : nat) : frac_part (x + INR k) = frac_part x.
Proof.
  symmetry.
  apply (Int_part_frac_part_spec (x + INR k) (Int_part x + Z.of_nat k) (frac_part x)).
  - destruct (base_fp x). lra.
  - rewrite plus_IZR, <- INR_IZR_INZ.
    rewrite (Rplus_Int_part_frac_part x) at 1. lra.
Qed.

Lemma modf_plus_nat (x : R) (k : nat) : (0 <= x)%R → modf (x + INR k) = modf x.
Proof.
  intros Hx. unfold modf. pose proof (pos_INR k).
  destruct (Rle_dec 0 (x + INR k)) as [_|Hn]; [|lra].
  destruct (Rle_dec 0 x) as [_|Hn]; [|lra].
  apply frac_part_plus_nat.
Qed.

(** X26.  The oscillators repeat: when [k] whole periods take [N] samples
    (f * N = k * sample_rate), each waveform has at the phase [ph + N] the
    value it has at [ph], for a frequency and phases that are not
    negative. *)
Theorem oscillator_period
    (w : Wave) (f sr : R) (ph N : Z) (k : nat) :
  (0 <= f)%R → (0 < sr)%R → (0 ≤ ph)%Z → (0 ≤ N)%Z →
  (f * IZR N = INR k * sr)%R →
  wave_sample w f (ph + N) sr = wave_sample w f ph sr.
Proof.
  intros Hf Hsr Hph HN Hper.
  assert (Hshift : (f * IZR (ph + N) / sr = f * IZR ph / sr + INR k)%R).
  { rewrite plus_IZR. unfold Rdiv.
    rewrite Rmult_plus_distr_l, Rmult_plus_distr_r, Hper. by field; lra. }
  assert (Hx : (0 <= f * IZR ph / sr)%R).
  { apply IZR_le in Hph. apply Rmult_le_pos; [by apply Rmult_le_pos|].
    left. by apply Rinv_0_lt_compat. }
  unfold wave_sample, oscillator_value, exact_conversion.
  destruct (Req_dec_T sr 0) as [E|_]; [lra|].
  destruct w; simpl.
  - replace (TWO_PI * f * IZR (ph + N) / sr)%R
      with (TWO_PI * f * IZR ph / sr + 2 * INR k * PI)%R.
    + apply sin_period.
    + unfold TWO_PI.
      replace (2 * PI * f * IZR (ph + N) / sr)%R
        with (2 * PI * (f * IZR (ph + N) / sr))%R by (by field; lra).
      rewrite Hshift. by field; lra.
  - by rewrite Hshift, modf_plus_nat.
  - replace (f * IZR (ph + N) / sr + 1 / 2)%R
      with (f * IZR ph / sr + 1 / 2 + INR k)%R by (rewrite Hshift; lra).
    rewrite modf_plus_nat; [done|lra].
  - by rewrite Hshift, modf_plus_nat.
Qed.

Lemma oscillator_period_witness :
  (0 <= 1)%R ∧ (0 < 4)%R ∧ (0 ≤ 3)%Z ∧ (0 ≤ 8)%Z
  ∧ (1 * IZR 8 = INR 2 * 4)%R
  ∧ wave_sample Triangle 1 (3 + 8) 4 = wave_sample Triangle 1 3 4.
Proof.
  assert (H1 : (0 <= 1)%R) by lra. assert (H2 : (0 < 4)%R) by lra.
  assert (H3 : (0 ≤ 3)%Z) by lia. assert (H4 : (0 ≤ 8)%Z) by lia.
  assert (H5 : (1 * IZR 8 = INR 2 * 4)%R) by (simpl; lra).
  do 4 (split; [assumption|]). split; [exact H5|].
  exact (oscillator_period Triangle 1 4 3 8 2 H1 H2 H3 H4 H5).
Defined.
